(** * Three-symbol tic-tac-toe session server: shallow embedding

    The repository holds two versions of the socket server:

    - [server.js], the minimal ruleset (placement, removal, undo through a
      removal stack, unconditional reset), embedded in [Module Simple];
    - the hardened server (roles and spectators, move timer, room expiry,
      rate limiting, rematch, scores), embedded in [Module Hardened].

    Handlers are state transformers that also return the messages they
    emit.  [Date.now()] is an argument of every handler ([now]); one
    reading per handler invocation.  Timers are the entries of
    [roomTimers] that are still pending: an entry holds the deadline and
    the callback, and the callback holds the room identifier only.

    The events of the model are well-formed requests: the room identifier
    is a string, the cell index is an integer ([Z]) and, on the minimal
    server, the player is a symbol.  The source does not test the types of
    these fields: it takes the strings ["0"] to ["8"] as indices and stores
    them as sent, and the minimal server compares the cell with whatever
    [player] holds.  Such requests are outside the model, and what is
    proved of runs is proved of runs of well-formed requests.  A request
    without a payload object makes a destructuring handler throw:
    [Request] and [serve] add these to the events of the hardened server.
    The minimal server keeps its rooms in plain objects, so room
    identifiers that name an inherited property ([inherited]) are outside
    its model as well. *)

From stdpp Require Import gmap strings list fin_maps pretty.
From Stdlib Require Import ZArith Lia.

#[global] Set Warnings "-clear-no-such-hyp".

(** ** Values shared by both servers *)

(** The two symbols, ["X"] and ["O"]. *)
Inductive Mark := X | O.

#[global] Instance Mark_eq_dec : EqDecision Mark.
Proof. solve_decision. Defined.

(** A board cell: [""], ["X"] or ["O"]. *)
Inductive Cell := Blank | Sym (m : Mark).

#[global] Instance Cell_eq_dec : EqDecision Cell.
Proof. solve_decision. Defined.

(** [player === "X" ? "O" : "X"] *)
Definition opponent (player : Mark) : Mark :=
  match player with X => O | O => X end.

(** [a[i]] for an integer [i]: [None] is [undefined]. *)
Definition array_get {A} (a : list A) (i : Z) : option A :=
  if decide (0 ≤ i)%Z then a !! Z.to_nat i else None.

(** [a[i] = x].  A placement and a removal write a cell that the handler
    has just read, and [undo] writes the cell a removal has read before, so
    [i] is in range at every call site (see [array_get_Some_range] and
    [simple_writes_in_range]); an out-of-range write, which would grow a
    JavaScript array, is left as the identity. *)
Definition array_set {A} (a : list A) (i : Z) (x : A) : list A :=
  if decide (0 ≤ i)%Z then <[Z.to_nat i := x]> a else a.

(** [{ X: [...], O: [...] }] *)
Record Moves := { mX : list Z; mO : list Z }.

Definition moves_of (m : Moves) (player : Mark) : list Z :=
  match player with X => mX m | O => mO m end.

Definition set_moves (m : Moves) (player : Mark) (l : list Z) : Moves :=
  match player with
  | X => {| mX := l; mO := mO m |}
  | O => {| mX := mX m; mO := l |}
  end.

(** [Array(9).fill("")] *)
Definition emptyBoard : list Cell := replicate 9 Blank.

(** [moves[player].filter((i) => i !== index)] *)
Definition without (index : Z) (l : list Z) : list Z :=
  filter (λ i, i ≠ index) l.

(** ** The minimal server, [server.js] *)

(** The [player] field of a request is a symbol: requests that carry
    anything else are left out. *)

Module Simple.

Record Game := {
  board : list Cell;
  currentPlayer : Mark;
  moves : Moves;
  removedStack : list (Mark * Z)
}.

(** [games] and [players], two plain objects.  The maps stand for them on
    room identifiers that do not name a property of [Object.prototype]
    (the list [inherited] below): under such a name the source reads the
    inherited value. *)
Record State := {
  games : gmap string Game;
  players : gmap string (gmap string Mark)
}.

Inductive Msg :=
| Init (game : Game) (myPlayer : Mark)
| Update (game : Game).

Definition newGame : Game :=
  {| board := emptyBoard; currentPlayer := X;
     moves := {| mX := []; mO := [] |}; removedStack := [] |}.

Definition initial : State := {| games := ∅; players := ∅ |}.

(** [Object.values(players[roomId])] *)
Definition values (roomPlayers : gmap string Mark) : list Mark :=
  (map_to_list roomPlayers).*2.

(** The [joinGame] handler.  [None] is the uncaught [TypeError] of
    [players[roomId][socket.id]] when [games[roomId]] exists (after a
    [resetGame]) and [players[roomId]] does not. *)
Definition joinGame (socketId roomId : string) (st : State)
  : option (State * list Msg) :=
  let st1 :=
    match games st !! roomId with
    | None => {| games := <[roomId := newGame]> (games st);
                 players := <[roomId := ∅]> (players st) |}
    | Some _ => st
    end in
  match players st1 !! roomId, games st1 !! roomId with
  | Some roomPlayers, Some game =>
      let roomPlayers' :=
        match roomPlayers !! socketId with
        | None =>
            let assigned := if bool_decide (X ∈ values roomPlayers) then O else X in
            <[socketId := assigned]> roomPlayers
        | Some _ => roomPlayers
        end in
      match roomPlayers' !! socketId with
      | Some myPlayer =>
          Some ({| games := games st1;
                   players := <[roomId := roomPlayers']> (players st1) |},
                [Init game myPlayer])
      | None => None
      end
  | _, _ => None
  end.

(** The [makeMove] handler; [player] is the symbol and [index] the
    integer of a well-formed request. *)
Definition makeMove (roomId : string) (index : Z) (player : Mark) (st : State)
  : State * list Msg :=
  match games st !! roomId with
  | None => (st, [])
  | Some game =>
      if bool_decide (player ≠ currentPlayer game) then (st, [])
      else if bool_decide (3 ≤ length (moves_of (moves game) player)) then (st, [])
      else if bool_decide (array_get (board game) index ≠ Some Blank) then (st, [])
      else
        let game' :=
          {| board := array_set (board game) index (Sym player);
             currentPlayer := opponent player;
             moves := set_moves (moves game) player
                        (moves_of (moves game) player ++ [index]);
             removedStack := removedStack game |} in
        ({| games := <[roomId := game']> (games st); players := players st |},
         [Update game'])
  end.

(** The [removeSymbol] handler, on a well-formed request: the source
    compares the cell with whatever [player] holds and filters the moves
    with [!==], so a request without a symbol or with a string as index is
    not an instance of this function. *)
Definition removeSymbol (roomId : string) (index : Z) (player : Mark) (st : State)
  : State * list Msg :=
  match games st !! roomId with
  | None => (st, [])
  | Some game =>
      if bool_decide (array_get (board game) index = Some (Sym player)) then
        let game' :=
          {| board := array_set (board game) index Blank;
             currentPlayer := currentPlayer game;
             moves := set_moves (moves game) player
                        (without index (moves_of (moves game) player));
             removedStack := removedStack game ++ [(player, index)] |} in
        ({| games := <[roomId := game']> (games st); players := players st |},
         [Update game'])
      else (st, [])
  end.

(** [removedStack.pop()]: the last element and the rest. *)
Definition pop {A} (l : list A) : option (A * list A) :=
  match reverse l with
  | [] => None
  | x :: r => Some (x, reverse r)
  end.

(** The [undo] handler. *)
Definition undo (roomId : string) (st : State) : State * list Msg :=
  match games st !! roomId with
  | None => (st, [])
  | Some game =>
      match pop (removedStack game) with
      | None => (st, [])
      | Some ((player, index), rest) =>
          let game' :=
            {| board := array_set (board game) index (Sym player);
               currentPlayer := currentPlayer game;
               moves := set_moves (moves game) player
                          (moves_of (moves game) player ++ [index]);
               removedStack := rest |} in
          ({| games := <[roomId := game']> (games st); players := players st |},
           [Update game'])
      end
  end.

(** The [resetGame] handler. *)
Definition resetGame (roomId : string) (st : State) : State * list Msg :=
  ({| games := <[roomId := newGame]> (games st); players := players st |},
   [Update newGame]).

(** Client events. *)
Inductive Event :=
| JoinGame (socketId roomId : string)
| MakeMove (roomId : string) (index : Z) (player : Mark)
| RemoveSymbol (roomId : string) (index : Z) (player : Mark)
| Undo (roomId : string)
| ResetGame (roomId : string).

Definition handle (ev : Event) (st : State) : option (State * list Msg) :=
  match ev with
  | JoinGame s r => joinGame s r st
  | MakeMove r i p => Some (makeMove r i p st)
  | RemoveSymbol r i p => Some (removeSymbol r i p st)
  | Undo r => Some (undo r st)
  | ResetGame r => Some (resetGame r st)
  end.

(** The state after a run of events; [None] once a handler has thrown. *)
Fixpoint run (evs : list Event) (st : State) : option State :=
  match evs with
  | [] => Some st
  | ev :: evs' =>
      match handle ev st with
      | Some (st', _) => run evs' st'
      | None => None
      end
  end.

End Simple.

(** ** The hardened server *)

Module Hardened.

Record Config := {
  MAX_SYMBOLS : nat;
  MOVE_TIMEOUT : Z;
  ROOM_EXPIRY : Z;
  MAX_ROOM_NAME_LENGTH : nat;
  RATE_LIMIT_WINDOW : Z;
  MAX_MOVES_PER_WINDOW : nat
}.

Definition CONFIG : Config :=
  {| MAX_SYMBOLS := 3;
     MOVE_TIMEOUT := 30000;
     ROOM_EXPIRY := 3600000;
     MAX_ROOM_NAME_LENGTH := 50;
     RATE_LIMIT_WINDOW := 1000;
     MAX_MOVES_PER_WINDOW := 5 |}.

(** A member's role: ["X"], ["O"] or ["spectator"]. *)
Inductive Role := Player (m : Mark) | Spectator.

#[global] Instance Role_eq_dec : EqDecision Role.
Proof. solve_decision. Defined.

(** [winner]: a symbol or ["draw"]; [null] is [None]. *)
Inductive Outcome := Win (m : Mark) | Draw.

#[global] Instance Outcome_eq_dec : EqDecision Outcome.
Proof. solve_decision. Defined.

(** [gameStatus] *)
Inductive Status := waiting | playing | finished.

#[global] Instance Status_eq_dec : EqDecision Status.
Proof. solve_decision. Defined.

(** [{ X: 0, O: 0, draws: 0 }] *)
Record Scores := { sX : nat; sO : nat; draws : nat }.

Definition score_of (s : Scores) (m : Mark) : nat :=
  match m with X => sX s | O => sO s end.

(** [scores[winner]++] *)
Definition bump (winner : Mark) (s : Scores) : Scores :=
  match winner with
  | X => {| sX := S (sX s); sO := sO s; draws := draws s |}
  | O => {| sX := sX s; sO := S (sO s); draws := draws s |}
  end.

(** [scores.draws++] *)
Definition bump_draws (s : Scores) : Scores :=
  {| sX := sX s; sO := sO s; draws := S (draws s) |}.

Inductive MoveType := place | remove.

Record HistoryEntry := {
  type : MoveType;
  player : Mark;
  index : Z;
  timestamp : Z
}.

Record Game := {
  board : list Cell;
  currentPlayer : Mark;
  moves : Moves;
  moveHistory : list HistoryEntry;
  winner : option Outcome;
  winningLine : option (Z * Z * Z);
  gameStatus : Status;
  createdAt : Z;
  lastActivity : Z;
  turnStartTime : option Z;
  scores : Scores
}.

(** An entry of [players.get(roomId)]. *)
Record Member := {
  role : Role;
  playerId : string;
  joinedAt : Z
}.

(** An entry of [rateLimits]. *)
Record Limit := { count : nat; resetTime : Z }.

(** What a scheduled callback closes over: the room identifier. *)
Inductive Callback :=
| MoveTimeout (roomId : string)
| RoomExpiry (roomId : string).

(** A pending [setTimeout]. *)
Record Timer := { deadline : Z; callback : Callback }.

Record State := {
  games : gmap string Game;
  players : gmap string (gmap string Member);
  rateLimits : gmap string Limit;
  roomTimers : gmap string Timer
}.

Definition initial : State :=
  {| games := ∅; players := ∅; rateLimits := ∅; roomTimers := ∅ |}.

Definition set_games (f : gmap string Game → gmap string Game) (st : State) : State :=
  {| games := f (games st); players := players st;
     rateLimits := rateLimits st; roomTimers := roomTimers st |}.

Definition set_players
  (f : gmap string (gmap string Member) → gmap string (gmap string Member))
  (st : State) : State :=
  {| games := games st; players := f (players st);
     rateLimits := rateLimits st; roomTimers := roomTimers st |}.

Definition set_rateLimits (f : gmap string Limit → gmap string Limit) (st : State) : State :=
  {| games := games st; players := players st;
     rateLimits := f (rateLimits st); roomTimers := roomTimers st |}.

Definition set_roomTimers (f : gmap string Timer → gmap string Timer) (st : State) : State :=
  {| games := games st; players := players st;
     rateLimits := rateLimits st; roomTimers := f (roomTimers st) |}.

(** Errors, named as in the specification; [message] is the text sent. *)
Inductive ErrorKind :=
| InvalidRoomId
| RoomNotFound
| SpectatorForbidden
| GameNotActive
| NotYourTurn
| SymbolCapReached
| InvalidCellIndex
| CellOccupied
| CannotRemoveForeignSymbol
| RateLimited.

Definition message (e : ErrorKind) : string :=
  match e with
  | InvalidRoomId => "Invalid room ID"
  | RoomNotFound => "Game not found"
  | SpectatorForbidden => "You are a spectator"
  | GameNotActive => "Game is not active"
  | NotYourTurn => "Not your turn"
  | SymbolCapReached =>
      "Maximum " +:+ pretty (MAX_SYMBOLS CONFIG) +:+ " symbols placed. Remove one first."
  | InvalidCellIndex => "Invalid cell index"
  | CellOccupied => "Cell already occupied"
  | CannotRemoveForeignSymbol => "Cannot remove this symbol"
  | RateLimited => "Too many requests. Slow down!"
  end.

Inductive Reason := timeout.

(** Payloads; the room statistics spread into [init], [playerJoined] and
    [playerLeft] are left out. *)
Inductive Msg :=
| Error (e : ErrorKind)
| Init (game : Game) (myPlayer : Role) (playerId roomId : string)
| PlayerJoined (playerId : string) (r : Role)
| PlayerLeft (playerId : string) (r : Role)
| GameOver (w : Outcome) (line : option (Z * Z * Z)) (s : Scores)
| GameOverBy (w : Mark) (reason : Reason) (loser : Mark)
| Update (game : Game)
| GameReset (s : Scores).

Inductive Out :=
| ToSocket (socketId : string) (m : Msg)          (* socket.emit *)
| ToRoom (roomId : string) (m : Msg)              (* io.to(roomId).emit *)
| ToOthers (socketId roomId : string) (m : Msg).  (* socket.to(roomId).emit *)

(** [generatePlayerId()] is random; its result is an argument [fresh] of
    [joinGame]. *)

Definition room_char (c : Ascii.ascii) : bool :=
  let n := Ascii.nat_of_ascii c in
  ((97 <=? n) && (n <=? 122)) || ((65 <=? n) && (n <=? 90))
  || ((48 <=? n) && (n <=? 57)) || (n =? 45) || (n =? 95).

Definition isValidRoomId (roomId : string) : bool :=
  (0 <? String.length roomId) &&
  (String.length roomId <=? MAX_ROOM_NAME_LENGTH CONFIG) &&
  forallb room_char (String.list_ascii_of_string roomId).

Definition lines : list (Z * Z * Z) :=
  [(0, 1, 2); (3, 4, 5); (6, 7, 8);
   (0, 3, 6); (1, 4, 7); (2, 5, 8);
   (0, 4, 8); (2, 4, 6)]%Z.

Record Result := { res_winner : Outcome; res_line : option (Z * Z * Z) }.

(** [board[a] && board[a] === board[b] && board[a] === board[c]] *)
Definition line_owner (board : list Cell) (l : Z * Z * Z) : option Mark :=
  let '(a, b, c) := l in
  match array_get board a with
  | Some (Sym m) =>
      if bool_decide (array_get board b = Some (Sym m))
         && bool_decide (array_get board c = Some (Sym m))
      then Some m else None
  | _ => None
  end.

Fixpoint first_line (board : list Cell) (ls : list (Z * Z * Z)) : option Result :=
  match ls with
  | [] => None
  | l :: ls' =>
      match line_owner board l with
      | Some m => Some {| res_winner := Win m; res_line := Some l |}
      | None => first_line board ls'
      end
  end.

Definition checkWinner (board : list Cell) : option Result :=
  match first_line board lines with
  | Some r => Some r
  | None =>
      if forallb (λ cell, bool_decide (cell ≠ Blank)) board
      then Some {| res_winner := Draw; res_line := None |}
      else None
  end.

Definition checkRateLimit (now : Z) (socketId : string) (st : State) : bool * State :=
  let limit :=
    default {| count := 0; resetTime := now + RATE_LIMIT_WINDOW CONFIG |}
            (rateLimits st !! socketId) in
  let limit' :=
    if bool_decide (resetTime limit < now)%Z
    then {| count := 1; resetTime := now + RATE_LIMIT_WINDOW CONFIG |}
    else {| count := S (count limit); resetTime := resetTime limit |} in
  (bool_decide (count limit' ≤ MAX_MOVES_PER_WINDOW CONFIG),
   set_rateLimits <[socketId := limit']> st).

Definition createGame (now : Z) : Game :=
  {| board := emptyBoard;
     currentPlayer := X;
     moves := {| mX := []; mO := [] |};
     moveHistory := [];
     winner := None;
     winningLine := None;
     gameStatus := waiting;
     createdAt := now;
     lastActivity := now;
     turnStartTime := None;
     scores := {| sX := 0; sO := 0; draws := 0 |} |}.

(** Field updates of the game object. *)
Definition set_turnStartTime (t : option Z) (g : Game) : Game :=
  {| board := board g; currentPlayer := currentPlayer g; moves := moves g;
     moveHistory := moveHistory g; winner := winner g;
     winningLine := winningLine g; gameStatus := gameStatus g;
     createdAt := createdAt g; lastActivity := lastActivity g;
     turnStartTime := t; scores := scores g |}.

Definition set_gameStatus (s : Status) (g : Game) : Game :=
  {| board := board g; currentPlayer := currentPlayer g; moves := moves g;
     moveHistory := moveHistory g; winner := winner g;
     winningLine := winningLine g; gameStatus := s;
     createdAt := createdAt g; lastActivity := lastActivity g;
     turnStartTime := turnStartTime g; scores := scores g |}.

Definition set_currentPlayer (p : Mark) (g : Game) : Game :=
  {| board := board g; currentPlayer := p; moves := moves g;
     moveHistory := moveHistory g; winner := winner g;
     winningLine := winningLine g; gameStatus := gameStatus g;
     createdAt := createdAt g; lastActivity := lastActivity g;
     turnStartTime := turnStartTime g; scores := scores g |}.

Definition set_scores (s : Scores) (g : Game) : Game :=
  {| board := board g; currentPlayer := currentPlayer g; moves := moves g;
     moveHistory := moveHistory g; winner := winner g;
     winningLine := winningLine g; gameStatus := gameStatus g;
     createdAt := createdAt g; lastActivity := lastActivity g;
     turnStartTime := turnStartTime g; scores := s |}.

(** [winner = w; winningLine = line; gameStatus = "finished"] *)
Definition finish (w : Outcome) (line : option (Z * Z * Z)) (g : Game) : Game :=
  {| board := board g; currentPlayer := currentPlayer g; moves := moves g;
     moveHistory := moveHistory g; winner := Some w;
     winningLine := line; gameStatus := finished;
     createdAt := createdAt g; lastActivity := lastActivity g;
     turnStartTime := turnStartTime g; scores := scores g |}.

(** The first four writes of a placement or of a removal: the cell, the
    player's [moves], the history entry and [lastActivity]. *)
Definition record_move (now : Z) (ty : MoveType) (p : Mark) (i : Z)
  (b : list Cell) (l : list Z) (g : Game) : Game :=
  {| board := b; currentPlayer := currentPlayer g;
     moves := set_moves (moves g) p l;
     moveHistory := moveHistory g ++
       [{| type := ty; player := p; index := i; timestamp := now |}];
     winner := winner g;
     winningLine := winningLine g; gameStatus := gameStatus g;
     createdAt := createdAt g; lastActivity := now;
     turnStartTime := turnStartTime g; scores := scores g |}.

(** Keys of [roomTimers]: [`${roomId}-move`] and [`${roomId}-expiry`]. *)
Definition moveKey (roomId : string) : string := roomId +:+ "-move".
Definition expiryKey (roomId : string) : string := roomId +:+ "-expiry".

(** [clearTimeout(roomTimers.get(key))]: the timer is no longer pending. *)
Definition clearTimeout (key : string) (st : State) : State :=
  set_roomTimers (delete key) st.

(** [setTimeout(cb, delay)] stored under [key]. *)
Definition setTimeout (now : Z) (key : string) (cb : Callback) (delay : Z)
  (st : State) : State :=
  set_roomTimers <[key := {| deadline := now + delay; callback := cb |}]> st.

Definition startMoveTimer (now : Z) (roomId : string) (st : State) : State :=
  match games st !! roomId with
  | None => st
  | Some game =>
      if bool_decide (gameStatus game ≠ playing) then st
      else
        let st1 := clearTimeout (moveKey roomId) st in
        let st2 := set_games <[roomId := set_turnStartTime (Some now) game]> st1 in
        setTimeout now (moveKey roomId) (MoveTimeout roomId) (MOVE_TIMEOUT CONFIG) st2
  end.

(** The callback scheduled by [startMoveTimer]: it is given the room
    identifier and reads the game from [games]. *)
Definition onMoveTimeout (roomId : string) (st : State) : State * list Out :=
  match games st !! roomId with
  | None => (st, [])
  | Some currentGame =>
      if bool_decide (gameStatus currentGame ≠ playing) then (st, [])
      else
        let w := opponent (currentPlayer currentGame) in
        let game' :=
          set_scores (bump w (scores currentGame))
            (finish (Win w) (winningLine currentGame) currentGame) in
        (set_games <[roomId := game']> st,
         [ToRoom roomId (GameOverBy w timeout (currentPlayer currentGame));
          ToRoom roomId (Update game')])
  end.

Definition clearRoomTimers (roomId : string) (st : State) : State :=
  set_roomTimers (delete (expiryKey roomId))
    (set_roomTimers (delete (moveKey roomId))
       (clearTimeout (expiryKey roomId) (clearTimeout (moveKey roomId) st))).

Definition cleanupRoom (roomId : string) (st : State) : State :=
  clearRoomTimers roomId
    (set_players (delete roomId) (set_games (delete roomId) st)).

Definition startRoomExpiryTimer (now : Z) (roomId : string) (st : State) : State :=
  setTimeout now (expiryKey roomId) (RoomExpiry roomId) (ROOM_EXPIRY CONFIG)
    (clearTimeout (expiryKey roomId) st).

Definition runCallback (cb : Callback) (st : State) : State * list Out :=
  match cb with
  | MoveTimeout roomId => onMoveTimeout roomId st
  | RoomExpiry roomId => (cleanupRoom roomId st, [])
  end.

(** The runtime fires the timer stored under [key] at time [now]: only a
    pending timer whose deadline has passed fires, and it stops being
    pending. *)
Definition fire (now : Z) (key : string) (st : State) : State * list Out :=
  match roomTimers st !! key with
  | None => (st, [])
  | Some t =>
      if bool_decide (deadline t ≤ now)%Z
      then runCallback (callback t) (set_roomTimers (delete key) st)
      else (st, [])
  end.

(** [Object.values(roomPlayers).map((p) => p.role)] *)
Definition existingRoles (roomPlayers : gmap string Member) : list Role :=
  role <$> (map_to_list roomPlayers).*2.

(** The role of a new member: ["X"] if nobody holds it, else ["O"] if
    nobody holds it, else ["spectator"]. *)
Definition freeRole (roles : list Role) : Role :=
  if bool_decide (Player X ∉ roles) then Player X
  else if bool_decide (Player O ∉ roles) then Player O
  else Spectator.

(** [playerName || generatePlayerId()] *)
Definition choosePlayerId (playerName : option string) (fresh : string) : string :=
  match playerName with
  | Some n => if bool_decide (n = "") then fresh else n
  | None => fresh
  end.

(** The [joinGame] handler.  [None] is the [TypeError] of
    [roomPlayers[socket.id]] on a room that has a game and no member map
    (no reachable state has one, see [run_never_throws]). *)
Definition joinGame (now : Z) (socketId roomId : string)
  (playerName : option string) (fresh : string) (st : State)
  : option (State * list Out) :=
  if negb (isValidRoomId roomId) then
    Some (st, [ToSocket socketId (Error InvalidRoomId)])
  else
    let st1 :=
      match games st !! roomId with
      | None =>
          startRoomExpiryTimer now roomId
            (set_players <[roomId := ∅]>
               (set_games <[roomId := createGame now]> st))
      | Some _ => st
      end in
    match players st1 !! roomId with
    | None => None
    | Some roomPlayers =>
        let st2 :=
          match roomPlayers !! socketId with
          | Some _ => st1
          | None =>
              let roles := existingRoles roomPlayers in
              let r := freeRole roles in
              let me := {| role := r;
                           playerId := choosePlayerId playerName fresh;
                           joinedAt := now |} in
              let st' := set_players <[roomId := <[socketId := me]> roomPlayers]> st1 in
              if bool_decide (length roles = 1) && bool_decide (r ≠ Spectator) then
                startMoveTimer now roomId
                  (set_games (alter (set_gameStatus playing) roomId) st')
              else st'
          end in
        match games st2 !! roomId, players st2 !! roomId ≫= (.!! socketId) with
        | Some game, Some myPlayer =>
            Some (st2,
                  [ToSocket socketId
                     (Init game (role myPlayer) (playerId myPlayer) roomId);
                   ToOthers socketId roomId
                     (PlayerJoined (playerId myPlayer) (role myPlayer))])
        | _, _ => None
        end
    end.

(** [roomPlayers[socket.id]?.role] *)
Definition role_of (roomPlayers : gmap string Member) (socketId : string)
  : option Role :=
  role <$> roomPlayers !! socketId.

(** The writes of the win branch of [makeMove]: winner, winning line,
    status, and the score of the winner or of the draws. *)
Definition conclude (result : Result) (g : Game) : Game :=
  let g' := finish (res_winner result) (res_line result) g in
  match res_winner result with
  | Win w => set_scores (bump w (scores g')) g'
  | Draw => set_scores (bump_draws (scores g')) g'
  end.

(** The [makeMove] handler, on a request with its payload and an integer
    [index].  The source takes the strings ["0"] to ["8"] as well and
    pushes them as sent; a call without payload throws, see [serve]. *)
Definition makeMove (now : Z) (socketId roomId : string) (index : Z)
  (st0 : State) : State * list Out :=
  let '(allowed, st) := checkRateLimit now socketId st0 in
  if negb allowed then (st, [ToSocket socketId (Error RateLimited)])
  else
    match games st !! roomId, players st !! roomId with
    | Some game, Some roomPlayers =>
        match role_of roomPlayers socketId with
        | None | Some Spectator =>
            (st, [ToSocket socketId (Error SpectatorForbidden)])
        | Some (Player player) =>
            if bool_decide (gameStatus game ≠ playing) then
              (st, [ToSocket socketId (Error GameNotActive)])
            else if bool_decide (player ≠ currentPlayer game) then
              (st, [ToSocket socketId (Error NotYourTurn)])
            else if bool_decide
                      (MAX_SYMBOLS CONFIG ≤ length (moves_of (moves game) player)) then
              (st, [ToSocket socketId (Error SymbolCapReached)])
            else if bool_decide (index < 0 ∨ 8 < index)%Z then
              (st, [ToSocket socketId (Error InvalidCellIndex)])
            else if bool_decide (array_get (board game) index ≠ Some Blank) then
              (st, [ToSocket socketId (Error CellOccupied)])
            else
              let game1 :=
                record_move now place player index
                  (array_set (board game) index (Sym player))
                  (moves_of (moves game) player ++ [index]) game in
              match checkWinner (board game1) with
              | Some result =>
                  let game2 := conclude result game1 in
                  (clearTimeout (moveKey roomId)
                     (set_games <[roomId := game2]> st),
                   [ToRoom roomId
                      (GameOver (res_winner result) (res_line result) (scores game2));
                    ToRoom roomId (Update game2)])
              | None =>
                  let game2 := set_currentPlayer (opponent player) game1 in
                  let st' :=
                    startMoveTimer now roomId (set_games <[roomId := game2]> st) in
                  (st', [ToRoom roomId
                           (Update (default game2 (games st' !! roomId)))])
              end
        end
    | _, _ => (st, [ToSocket socketId (Error RoomNotFound)])
    end.

(** The [removeSymbol] handler, on a request with its payload and an
    integer [index]; the filter of the source compares with [!==], so a
    cell placed under a string index is not an instance of this
    function. *)
Definition removeSymbol (now : Z) (socketId roomId : string) (index : Z)
  (st0 : State) : State * list Out :=
  let '(allowed, st) := checkRateLimit now socketId st0 in
  if negb allowed then (st, [ToSocket socketId (Error RateLimited)])
  else
    match games st !! roomId, players st !! roomId with
    | Some game, Some roomPlayers =>
        match role_of roomPlayers socketId with
        | None | Some Spectator =>
            (st, [ToSocket socketId (Error SpectatorForbidden)])
        | Some (Player player) =>
            if bool_decide (gameStatus game ≠ playing) then
              (st, [ToSocket socketId (Error GameNotActive)])
            else if bool_decide (player ≠ currentPlayer game) then
              (st, [ToSocket socketId (Error NotYourTurn)])
            else if bool_decide (array_get (board game) index ≠ Some (Sym player)) then
              (st, [ToSocket socketId (Error CannotRemoveForeignSymbol)])
            else
              let game1 :=
                record_move now remove player index
                  (array_set (board game) index Blank)
                  (without index (moves_of (moves game) player)) game in
              let game2 := set_currentPlayer (opponent player) game1 in
              let st' :=
                startMoveTimer now roomId (set_games <[roomId := game2]> st) in
              (st', [ToRoom roomId
                       (Update (default game2 (games st' !! roomId)))])
        end
    | _, _ => (st, [])
    end.

(** The [rematch] handler. *)
Definition rematch (now : Z) (socketId roomId : string) (st : State)
  : State * list Out :=
  match games st !! roomId, players st !! roomId with
  | Some game, Some roomPlayers =>
      match role_of roomPlayers socketId with
      | None | Some Spectator => (st, [])
      | Some (Player _) =>
          let newGame :=
            set_gameStatus playing (set_scores (scores game) (createGame now)) in
          let st' :=
            startMoveTimer now roomId (set_games <[roomId := newGame]> st) in
          (st', [ToRoom roomId (Update (default newGame (games st' !! roomId)));
                 ToRoom roomId (GameReset (scores game))])
      end
  | _, _ => (st, [])
  end.

(** One turn of the loop of the [disconnect] handler, for the entry
    [roomId] of [players]. *)
Definition leaveRoom (socketId roomId : string) (acc : State * list Out)
  : State * list Out :=
  let '(st, out) := acc in
  match players st !! roomId with
  | None => acc
  | Some roomPlayers =>
      match roomPlayers !! socketId with
      | None => acc
      | Some player =>
          let roomPlayers' := delete socketId roomPlayers in
          let st1 := set_players <[roomId := roomPlayers']> st in
          let out1 :=
            out ++ [ToOthers socketId roomId
                      (PlayerLeft (playerId player) (role player))] in
          if bool_decide (size roomPlayers' = 0) then
            (cleanupRoom roomId st1, out1)
          else if bool_decide (role player ≠ Spectator) then
            match games st1 !! roomId with
            | Some game =>
                let game' := set_gameStatus waiting game in
                (clearTimeout (moveKey roomId)
                   (set_games <[roomId := game']> st1),
                 out1 ++ [ToRoom roomId (Update game')])
            | None => (st1, out1)
            end
          else (st1, out1)
      end
  end.

(** The [disconnect] handler: the loop over [players.entries()], then
    [rateLimits.delete(socket.id)].  Rooms are visited in key order here
    and in insertion order in the source; a turn touches its own room
    only. *)
Definition disconnect (socketId : string) (st : State) : State * list Out :=
  let '(st', out) :=
    foldl (λ acc roomId, leaveRoom socketId roomId acc) (st, [])
      (map_to_list (players st)).*1 in
  (set_rateLimits (delete socketId) st', out).

(** What the server reacts to: client events, each with the payload its
    handler expects, and timers.  [getRoomInfo] and [chatMessage] read the
    state without writing it and are left out. *)
Inductive Event :=
| JoinGame (now : Z) (socketId roomId : string)
    (playerName : option string) (fresh : string)
| MakeMove (now : Z) (socketId roomId : string) (index : Z)
| RemoveSymbol (now : Z) (socketId roomId : string) (index : Z)
| Rematch (now : Z) (socketId roomId : string)
| Disconnect (socketId : string)
| Fire (now : Z) (key : string).

Definition handle (ev : Event) (st : State) : option (State * list Out) :=
  match ev with
  | JoinGame now s r n f => joinGame now s r n f st
  | MakeMove now s r i => Some (makeMove now s r i st)
  | RemoveSymbol now s r i => Some (removeSymbol now s r i st)
  | Rematch now s r => Some (rematch now s r st)
  | Disconnect s => Some (disconnect s st)
  | Fire now key => Some (fire now key st)
  end.

(** The state after a run of events; [None] once a handler has thrown. *)
Fixpoint run (evs : list Event) (st : State) : option State :=
  match evs with
  | [] => Some st
  | ev :: evs' =>
      match handle ev st with
      | Some (st', _) => run evs' st'
      | None => None
      end
  end.

End Hardened.

(** ** Notions used in the statements *)

(** A handler accepted the request when it broadcast an [update]. *)
Definition simple_accepted (out : list Simple.Msg) : bool :=
  existsb (λ m, match m with Simple.Update _ => true | _ => false end) out.

Definition accepted (out : list Hardened.Out) : bool :=
  existsb (λ o, match o with
                | Hardened.ToRoom _ (Hardened.Update _) => true
                | _ => false
                end) out.

(** The role carried by the [init] message of a reply. *)
Definition simple_assigned (out : list Simple.Msg) : option Mark :=
  match out with
  | [Simple.Init _ myPlayer] => Some myPlayer
  | _ => None
  end.

Definition assigned (out : list Hardened.Out) : option Hardened.Role :=
  match out with
  | Hardened.ToSocket _ (Hardened.Init _ myPlayer _ _) :: _ => Some myPlayer
  | _ => None
  end.

(** At most one connection of a room holds the value [r]. *)
Definition held_once {A B} (proj : A → B) (r : B) (roomPlayers : gmap string A) : Prop :=
  ∀ s1 s2 m1 m2,
    roomPlayers !! s1 = Some m1 → roomPlayers !! s2 = Some m2 →
    proj m1 = r → proj m2 = r → s1 = s2.

(** Some connection of the room holds the role [r]. *)
Definition held (r : Hardened.Role) (roomPlayers : gmap string Hardened.Member) : Prop :=
  ∃ s m, roomPlayers !! s = Some m ∧ Hardened.role m = r.

(** The number of members of a room that are not spectators. *)
Definition activeMembers (roomPlayers : gmap string Hardened.Member) : nat :=
  length (filter (λ r, r ≠ Hardened.Spectator) (Hardened.existingRoles roomPlayers)).

(** Successive calls of [checkRateLimit] by one connection, at the given
    times. *)
Fixpoint checkRateLimits (times : list Z) (socketId : string) (st : Hardened.State)
  : list bool * Hardened.State :=
  match times with
  | [] => ([], st)
  | now :: times' =>
      let '(allowed, st1) := Hardened.checkRateLimit now socketId st in
      let '(rest, st2) := checkRateLimits times' socketId st1 in
      (allowed :: rest, st2)
  end.

(** The call at [now] starts a window for the connection: it has no
    entry, or the reset time of its entry has passed. *)
Definition opens_window (st : Hardened.State) (socketId : string) (now : Z) : Prop :=
  ∀ l, Hardened.rateLimits st !! socketId = Some l → (Hardened.resetTime l < now)%Z.

(** The board and moves invariants of the data model, for a symbol cap
    [cap]: cell by cell, the sum of the counts, and the cap. *)
Definition non_empty (b : list Cell) (i : Z) : bool :=
  match array_get b i with
  | Some (Sym _) => true
  | _ => false
  end.

Definition in_exactly_one (m : Moves) (i : Z) : bool :=
  xorb (bool_decide (i ∈ mX m)) (bool_decide (i ∈ mO m)).

Definition cells_match_moves (b : list Cell) (m : Moves) : bool :=
  forallb (λ i, bool_decide (non_empty b i = in_exactly_one m i)) (seqZ 0 9).

Definition cells_add_up (b : list Cell) (m : Moves) : bool :=
  bool_decide (length (mX m) + length (mO m) + length (filter (λ c, c = Blank) b) = 9).

Definition within_cap (cap : nat) (m : Moves) : bool :=
  bool_decide (length (mX m) ≤ cap ∧ length (mO m) ≤ cap).

Definition consistent (cap : nat) (b : list Cell) (m : Moves) : bool :=
  cells_match_moves b m && cells_add_up b m && within_cap cap m.

(** The last character of a string (of a timer key). *)
Fixpoint last_char (s : string) : Ascii.ascii :=
  match s with
  | "" => Ascii.zero
  | String c "" => c
  | String _ s' => last_char s'
  end.

(** What every reachable game satisfies, stated on its board and moves:
    nine cells, a cell holds the symbol of a player exactly when its index
    is in the moves of that player, no index twice, at most [cap] indices
    per player. *)
Record board_wf (cap : nat) (b : list Cell) (m : Moves) : Prop := {
  wf_length : length b = 9;
  wf_cells : ∀ i p, array_get b i = Some (Sym p) ↔ i ∈ moves_of m p;
  wf_nodup : ∀ p, NoDup (moves_of m p);
  wf_cap : ∀ p, length (moves_of m p) ≤ cap
}.

Definition game_wf (g : Hardened.Game) : Prop :=
  board_wf (Hardened.MAX_SYMBOLS Hardened.CONFIG) (Hardened.board g) (Hardened.moves g)
  ∧ (Hardened.gameStatus g = Hardened.finished → Hardened.winner g ≠ None).

(** On the minimal server: a board has nine cells and the removal stack
    holds indices of cells. *)
Definition simple_in_range (st : Simple.State) : Prop :=
  map_Forall (λ _ g, length (Simple.board g) = 9
                     ∧ Forall (λ e, 0 ≤ e.2 < 9)%Z (Simple.removedStack g))
             (Simple.games st).

(** The games of a state of the minimal server are well formed. *)
Definition simple_wf (st : Simple.State) : Prop :=
  map_Forall (λ _ g, board_wf 3 (Simple.board g) (Simple.moves g)) (Simple.games st).

(** What every reachable state of the hardened server satisfies: its games
    are well formed; [games] and [players] have the same rooms; X and O
    are held at most once per room; a pending timer sits under the key of
    the room its callback names; a game that is being played has its move
    timer pending, due [MOVE_TIMEOUT] after [turnStartTime]. *)
Record state_wf (st : Hardened.State) : Prop := {
  wf_games : map_Forall (λ _ g, game_wf g) (Hardened.games st);
  wf_dom : dom (Hardened.games st) = dom (Hardened.players st);
  wf_roles :
    map_Forall (λ _ roomPlayers,
                  held_once Hardened.role (Hardened.Player X) roomPlayers
                  ∧ held_once Hardened.role (Hardened.Player O) roomPlayers)
               (Hardened.players st);
  wf_timers : ∀ k t,
    Hardened.roomTimers st !! k = Some t →
    (∃ r, k = Hardened.moveKey r ∧ Hardened.callback t = Hardened.MoveTimeout r)
    ∨ (∃ r, k = Hardened.expiryKey r ∧ Hardened.callback t = Hardened.RoomExpiry r);
  wf_armed : ∀ r g,
    Hardened.games st !! r = Some g →
    Hardened.gameStatus g = Hardened.playing →
    ∃ t, Hardened.turnStartTime g = Some t
         ∧ Hardened.roomTimers st !! Hardened.moveKey r
           = Some {| Hardened.deadline := t + Hardened.MOVE_TIMEOUT Hardened.CONFIG;
                     Hardened.callback := Hardened.MoveTimeout r |}
}.

(** *** Requests as they arrive *)





(** *** Rate-limited requests *)

(** The requests that [checkRateLimit] guards: a placement or a removal. *)
Inductive Action :=
| Placement (roomId : string) (index : Z)
| Removal (roomId : string) (index : Z).

(** The event of a request. *)
Definition request (now : Z) (socketId : string) (a : Action) : Hardened.Event :=
  match a with
  | Placement r i => Hardened.MakeMove now socketId r i
  | Removal r i => Hardened.RemoveSymbol now socketId r i
  end.

(** The handler call of a request. *)
Definition act (now : Z) (socketId : string) (a : Action) (st : Hardened.State)
  : Hardened.State * list Hardened.Out :=
  match a with
  | Placement r i => Hardened.makeMove now socketId r i st
  | Removal r i => Hardened.removeSymbol now socketId r i st
  end.

(** The times of the placements and removals that a connection requests
    in a run, in order. *)
Definition request_times (socketId : string) (evs : list Hardened.Event) : list Z :=
  omap (λ ev, match ev with
              | Hardened.MakeMove now s _ _ | Hardened.RemoveSymbol now s _ _ =>
                  if decide (s = socketId) then Some now else None
              | _ => None
              end) evs.

(** The reply holds the [RateLimited] error. *)
Definition rate_limited (out : list Hardened.Out) : bool :=
  existsb (λ o, match o with
                | Hardened.ToSocket _ (Hardened.Error Hardened.RateLimited) => true
                | _ => false
                end) out.

(** The request passes every check that its handler makes after the rate
    limiter. *)
Definition passes_checks (st : Hardened.State) (socketId : string) (a : Action) : Prop :=
  match a with
  | Placement r i =>
      ∃ g roomPlayers p,
        Hardened.games st !! r = Some g
        ∧ Hardened.players st !! r = Some roomPlayers
        ∧ Hardened.role_of roomPlayers socketId = Some (Hardened.Player p)
        ∧ Hardened.gameStatus g = Hardened.playing
        ∧ Hardened.currentPlayer g = p
        ∧ length (moves_of (Hardened.moves g) p) < Hardened.MAX_SYMBOLS Hardened.CONFIG
        ∧ (0 ≤ i ≤ 8)%Z
        ∧ array_get (Hardened.board g) i = Some Blank
  | Removal r i =>
      ∃ g roomPlayers p,
        Hardened.games st !! r = Some g
        ∧ Hardened.players st !! r = Some roomPlayers
        ∧ Hardened.role_of roomPlayers socketId = Some (Hardened.Player p)
        ∧ Hardened.gameStatus g = Hardened.playing
        ∧ Hardened.currentPlayer g = p
        ∧ array_get (Hardened.board g) i = Some (Sym p)
  end.

(** *** Life of a room *)

(** Room [r] exists after every event of the run. *)
Fixpoint stays (r : string) (evs : list Hardened.Event) (st : Hardened.State) : bool :=
  match evs with
  | [] => true
  | ev :: evs' =>
      match Hardened.handle ev st with
      | Some (st', _) =>
          bool_decide (is_Some (Hardened.games st' !! r)) && stays r evs' st'
      | None => false
      end
  end.

(** *** Keys of plain objects *)

(** The property names that every plain object inherits from
    [Object.prototype].  The minimal server keeps [games] and [players] in
    plain objects: under one of these names [games[roomId]] and
    [players[roomId]] read the inherited value and not an entry, so the
    maps of the model stand for the objects on the other room identifiers
    only. *)
Definition inherited : list string :=
  ["constructor"; "hasOwnProperty"; "isPrototypeOf"; "propertyIsEnumerable";
   "toLocaleString"; "toString"; "valueOf"; "__proto__";
   "__defineGetter__"; "__defineSetter__"; "__lookupGetter__";
   "__lookupSetter__"].

(** The room identifier of a request to the minimal server. *)
Definition simple_room (ev : Simple.Event) : string :=
  match ev with
  | Simple.JoinGame _ r | Simple.MakeMove r _ _ | Simple.RemoveSymbol r _ _
  | Simple.Undo r | Simple.ResetGame r => r
  end.

(** ** Sample runs *)

(** Two players join room ["r"]; X takes 0, 1 and 2 and O takes 3 and 4:
    the last placement completes the first row. *)
Definition two_players : list Hardened.Event :=
  [Hardened.JoinGame 0 "a" "r" None "ida";
   Hardened.JoinGame 1 "b" "r" (Some "bob") "idb"].

Definition before_x_wins : list Hardened.Event :=
  two_players ++
  [Hardened.MakeMove 2 "a" "r" 0; Hardened.MakeMove 3 "b" "r" 3;
   Hardened.MakeMove 4 "a" "r" 1; Hardened.MakeMove 5 "b" "r" 4].

Definition x_wins : list Hardened.Event :=
  before_x_wins ++ [Hardened.MakeMove 6 "a" "r" 2].

(** X holds three symbols (0, 2, 3) without a line, and it is the turn
    of O. *)
Definition x_at_cap : list Hardened.Event :=
  two_players ++
  [Hardened.MakeMove 2 "a" "r" 0; Hardened.MakeMove 3 "b" "r" 1;
   Hardened.MakeMove 4 "a" "r" 2; Hardened.MakeMove 5 "b" "r" 4;
   Hardened.MakeMove 6 "a" "r" 3].

(** On the minimal server: X holds 2, 4 and 5, O holds 1, 3 and 0, and the
    removal stack still holds the removal of X from cell 0. *)
Definition before_undo : list Simple.Event :=
  [Simple.JoinGame "a" "r"; Simple.JoinGame "b" "r";
   Simple.MakeMove "r" 0 X; Simple.MakeMove "r" 1 O;
   Simple.MakeMove "r" 2 X; Simple.MakeMove "r" 3 O;
   Simple.MakeMove "r" 4 X; Simple.RemoveSymbol "r" 0 X;
   Simple.MakeMove "r" 0 O; Simple.MakeMove "r" 5 X].

(** Six requests of connection ["a"] within one second, among requests of
    connection ["b"]. *)
Definition six_requests : list Hardened.Event :=
  [Hardened.MakeMove 3 "b" "r" 3; Hardened.MakeMove 4 "a" "r" 1;
   Hardened.MakeMove 5 "b" "r" 4; Hardened.RemoveSymbol 6 "a" "r" 0;
   Hardened.MakeMove 7 "b" "r" 0; Hardened.MakeMove 8 "a" "r" 8;
   Hardened.MakeMove 9 "a" "r" 8].

(** Three connections join one room of the minimal server. *)
Definition three_join : list Simple.Event :=
  [Simple.JoinGame "a" "r"; Simple.JoinGame "b" "r"; Simple.JoinGame "c" "r"].

(** The state a run ends in (the initial state if a handler threw). *)
Definition state_after (evs : list Hardened.Event) : Hardened.State :=
  default Hardened.initial (Hardened.run evs Hardened.initial).

Definition simple_state_after (evs : list Simple.Event) : Simple.State :=
  default Simple.initial (Simple.run evs Simple.initial).

(** ** One room at a time *)

Module Rooms.
Import Hardened.

(** What the server holds about one room: its game, its members, its
    pending move timer and its pending expiry timer. *)
Definition View : Type :=
  option Game * option (gmap string Member) * option Timer * option Timer.

Definition room_view (st : State) (r : string) : View :=
  (games st !! r, players st !! r,
   roomTimers st !! moveKey r, roomTimers st !! expiryKey r).

(** The games that the handlers write. *)
Definition placed (now : Z) (i : Z) (g : Game) : Game :=
  record_move now place (currentPlayer g) i
    (array_set (board g) i (Sym (currentPlayer g)))
    (moves_of (moves g) (currentPlayer g) ++ [i]) g.

Definition removed (now : Z) (i : Z) (g : Game) : Game :=
  record_move now remove (currentPlayer g) i
    (array_set (board g) i Blank)
    (without i (moves_of (moves g) (currentPlayer g))) g.

Definition next_turn (now : Z) (g : Game) : Game :=
  set_turnStartTime (Some now) (set_currentPlayer (opponent (currentPlayer g)) g).

Definition forfeited (g : Game) : Game :=
  set_scores (bump (opponent (currentPlayer g)) (scores g))
    (finish (Win (opponent (currentPlayer g))) (winningLine g) g).

Definition rematch_game (now : Z) (g : Game) : Game :=
  set_turnStartTime (Some now)
    (set_gameStatus playing (set_scores (scores g) (createGame now))).

Definition started (now : Z) (g : Game) : Game :=
  set_turnStartTime (Some now) (set_gameStatus playing g).

Definition moveTimer (now : Z) (r : string) : Timer :=
  {| deadline := now + MOVE_TIMEOUT CONFIG; callback := MoveTimeout r |}.

Definition expiryTimer (now : Z) (r : string) : Timer :=
  {| deadline := now + ROOM_EXPIRY CONFIG; callback := RoomExpiry r |}.

Definition newMember (now : Z) (playerName : option string) (fresh : string)
  (roomPlayers : gmap string Member) : Member :=
  {| role := freeRole (existingRoles roomPlayers);
     playerId := choosePlayerId playerName fresh;
     joinedAt := now |}.

(** What one turn of the loop of [disconnect] does to the room it
    visits. *)
Definition leave_view (socketId : string) (v : View) : View :=
  let '(g, rp, mt, et) := v in
  match rp with
  | None => v
  | Some roomPlayers =>
      match roomPlayers !! socketId with
      | None => v
      | Some me =>
          if bool_decide (size (delete socketId roomPlayers) = 0) then
            (None, None, None, None)
          else if bool_decide (role me ≠ Spectator) then
            match g with
            | Some game =>
                (Some (set_gameStatus waiting game),
                 Some (delete socketId roomPlayers), None, et)
            | None => (None, Some (delete socketId roomPlayers), mt, et)
            end
          else (g, Some (delete socketId roomPlayers), mt, et)
      end
  end.

(** What an event does to room [r], seen from the room. *)
Inductive room_step (r : string) : Event → View → View → Prop :=
| step_none ev v :
    room_step r ev v v
| step_created now s n f rp0 mt et :
    isValidRoomId r = true →
    room_step r (JoinGame now s r n f)
      (None, rp0, mt, et)
      (Some (createGame now), Some {[s := newMember now n f ∅]}, mt,
       Some (expiryTimer now r))
| step_joined now s n f g rp mt et :
    rp !! s = None →
    ¬ (length (existingRoles rp) = 1 ∧ freeRole (existingRoles rp) ≠ Spectator) →
    room_step r (JoinGame now s r n f)
      (Some g, Some rp, mt, et)
      (Some g, Some (<[s := newMember now n f rp]> rp), mt, et)
| step_joined_start now s n f g rp mt et :
    rp !! s = None →
    length (existingRoles rp) = 1 →
    freeRole (existingRoles rp) ≠ Spectator →
    room_step r (JoinGame now s r n f)
      (Some g, Some rp, mt, et)
      (Some (started now g), Some (<[s := newMember now n f rp]> rp),
       Some (moveTimer now r), et)
| step_placed now s i g rp mt et :
    role_of rp s = Some (Player (currentPlayer g)) →
    gameStatus g = playing →
    length (moves_of (moves g) (currentPlayer g)) < MAX_SYMBOLS CONFIG →
    (0 ≤ i ≤ 8)%Z →
    array_get (board g) i = Some Blank →
    checkWinner (board (placed now i g)) = None →
    room_step r (MakeMove now s r i)
      (Some g, Some rp, mt, et)
      (Some (next_turn now (placed now i g)), Some rp, Some (moveTimer now r), et)
| step_won now s i g rp mt et result :
    role_of rp s = Some (Player (currentPlayer g)) →
    gameStatus g = playing →
    length (moves_of (moves g) (currentPlayer g)) < MAX_SYMBOLS CONFIG →
    (0 ≤ i ≤ 8)%Z →
    array_get (board g) i = Some Blank →
    checkWinner (board (placed now i g)) = Some result →
    room_step r (MakeMove now s r i)
      (Some g, Some rp, mt, et)
      (Some (conclude result (placed now i g)), Some rp, None, et)
| step_removed now s i g rp mt et :
    role_of rp s = Some (Player (currentPlayer g)) →
    gameStatus g = playing →
    array_get (board g) i = Some (Sym (currentPlayer g)) →
    room_step r (RemoveSymbol now s r i)
      (Some g, Some rp, mt, et)
      (Some (next_turn now (removed now i g)), Some rp, Some (moveTimer now r), et)
| step_rematch now s g rp p mt et :
    role_of rp s = Some (Player p) →
    room_step r (Rematch now s r)
      (Some g, Some rp, mt, et)
      (Some (rematch_game now g), Some rp, Some (moveTimer now r), et)
| step_forfeit now g rp t et :
    gameStatus g = playing → (deadline t ≤ now)%Z →
    room_step r (Fire now (moveKey r))
      (Some g, rp, Some t, et)
      (Some (forfeited g), rp, None, et)
| step_move_fired now g rp t et :
    (∀ game, g = Some game → gameStatus game ≠ playing) → (deadline t ≤ now)%Z →
    room_step r (Fire now (moveKey r))
      (g, rp, Some t, et)
      (g, rp, None, et)
| step_expired now g rp mt t :
    (deadline t ≤ now)%Z →
    room_step r (Fire now (expiryKey r))
      (g, rp, mt, Some t)
      (None, None, None, None)
| step_left s v :
    room_step r (Disconnect s) v (leave_view s v).

(** [a] is pointwise at most [b]. *)
Definition scores_le (a b : Scores) : Prop :=
  sX a ≤ sX b ∧ sO a ≤ sO b ∧ draws a ≤ draws b.

(** All three cells of the line [l] hold the symbol [m]. *)
Definition complete (b : list Cell) (l : Z * Z * Z) (m : Mark) : Prop :=
  array_get b l.1.1 = Some (Sym m)
  ∧ array_get b l.1.2 = Some (Sym m)
  ∧ array_get b l.2 = Some (Sym m).

(** *** [getRoomStats] *)

(** [{ id: data.playerId, socketId: id }] *)
Record Seat := { seat_id : string; seat_socketId : string }.

(** [playersList]: an object with at most the keys ["X"] and ["O"]. *)
Record PlayersList := { listX : option Seat; listO : option Seat }.

Definition seat_of (l : PlayersList) (m : Mark) : option Seat :=
  match m with X => listX l | O => listO l end.

(** The result of [getRoomStats]. *)
Record RoomStats := {
  stats_players : PlayersList;
  stats_spectators : nat;
  stats_gameStatus : Status;
  stats_scores : Scores
}.

(** One step of the [reduce] of [getRoomStats], after the [filter] that
    drops the spectators: [acc[data.role] = { id, socketId }]. *)
Definition seat (acc : PlayersList) (e : string * Member) : PlayersList :=
  match role e.2 with
  | Player X =>
      {| listX := Some {| seat_id := playerId e.2; seat_socketId := e.1 |};
         listO := listO acc |}
  | Player O =>
      {| listX := listX acc;
         listO := Some {| seat_id := playerId e.2; seat_socketId := e.1 |} |}
  | Spectator => acc
  end.

(** [getRoomStats] on the entries of the member object, in the order in
    which [Object.entries] lists them, and on the game if there is one. *)
Definition getRoomStats_of (entries : list (string * Member)) (game : option Game)
  : RoomStats :=
  {| stats_players := foldl seat {| listX := None; listO := None |} entries;
     stats_spectators :=
       length (filter (λ e, role e.2 = Spectator) entries);
     stats_gameStatus := from_option gameStatus waiting game;
     stats_scores := from_option scores {| sX := 0; sO := 0; draws := 0 |} game |}.

(** [getRoomStats(roomId)]; a room without members has [{}]. *)
Definition getRoomStats (roomId : string) (st : State) : RoomStats :=
  getRoomStats_of (map_to_list (default ∅ (players st !! roomId)))
    (games st !! roomId).

End Rooms.

(** ** Arrays and keys *)

Lemma array_get_Some_range {A} (a : list A) (i : Z) (x : A) :
  array_get a i = Some x → (0 ≤ i < Z.of_nat (length a))%Z.
Proof.
  unfold array_get. case_decide; [|done].
  intros Hlt%lookup_lt_Some. lia.
Qed.

Lemma array_set_length {A} (a : list A) (i : Z) (x : A) :
  length (array_set a i x) = length a.
Proof. unfold array_set. case_decide; [apply length_insert | done]. Qed.

Lemma array_get_set_eq {A} (a : list A) (i : Z) (x : A) :
  (0 ≤ i < Z.of_nat (length a))%Z → array_get (array_set a i x) i = Some x.
Proof.
  intros [? ?]. unfold array_get, array_set.
  rewrite !decide_True by done. apply list_lookup_insert_eq. lia.
Qed.

Lemma array_get_set_ne {A} (a : list A) (i j : Z) (x : A) :
  i ≠ j → array_get (array_set a i x) j = array_get a j.
Proof.
  intros Hne. unfold array_get, array_set.
  repeat case_decide; try done.
  apply list_lookup_insert_ne. lia.
Qed.

Lemma moves_of_set_moves m p l q :
  moves_of (set_moves m p l) q = if decide (q = p) then l else moves_of m q.
Proof. by destruct p, q. Qed.

Lemma string_length_app s t :
  String.length (s +:+ t) = String.length s + String.length t.
Proof. induction s as [|a s IH]; simpl; [done | by rewrite IH]. Qed.

Lemma app_right_inj t : ∀ s1 s2, s1 +:+ t = s2 +:+ t → s1 = s2.
Proof.
  assert (∀ c u, t ≠ String c (u +:+ t)) as Hshort.
  { intros c u Heq. apply (f_equal String.length) in Heq.
    simpl in Heq. rewrite string_length_app in Heq. lia. }
  induction s1 as [|a s1 IH]; intros [|b s2]; simpl; intros Heq.
  - done.
  - by apply Hshort in Heq.
  - symmetry in Heq. by apply Hshort in Heq.
  - injection Heq as -> Heq. f_equal. by apply IH.
Qed.

Lemma last_char_app c t : ∀ s, last_char (s +:+ String c t) = last_char (String c t).
Proof.
  induction s as [|a s IH]; [done|].
  change (last_char (String a (s +:+ String c t)) = last_char (String c t)).
  rewrite <- IH. simpl. by destruct s.
Qed.

Lemma moveKey_inj r1 r2 : Hardened.moveKey r1 = Hardened.moveKey r2 → r1 = r2.
Proof. apply app_right_inj. Qed.

Lemma expiryKey_inj r1 r2 : Hardened.expiryKey r1 = Hardened.expiryKey r2 → r1 = r2.
Proof. apply app_right_inj. Qed.

Lemma moveKey_expiryKey r1 r2 : Hardened.moveKey r1 ≠ Hardened.expiryKey r2.
Proof.
  unfold Hardened.moveKey, Hardened.expiryKey. intros Heq.
  apply (f_equal last_char) in Heq. rewrite !last_char_app in Heq. done.
Qed.

(** ** Boards and moves *)

Section Boards.
Context (cap : nat).

Lemma board_wf_empty : board_wf cap emptyBoard {| mX := []; mO := [] |}.
Proof.
  split.
  - done.
  - intros i p. split.
    + unfold array_get. case_decide; [|done].
      intros [[=] _]%lookup_replicate.
    + destruct p; simpl; by intros ?%elem_of_nil.
  - intros []; simpl; constructor.
  - intros []; simpl; lia.
Qed.

Lemma board_wf_place b m p i :
  board_wf cap b m →
  array_get b i = Some Blank →
  length (moves_of m p) < cap →
  board_wf cap (array_set b i (Sym p)) (set_moves m p (moves_of m p ++ [i])).
Proof.
  intros [Hlen Hcells Hnodup Hcap] Hblank Hroom.
  pose proof (array_get_Some_range _ _ _ Hblank) as Hrange.
  split.
  - by rewrite array_set_length.
  - intros j q. rewrite moves_of_set_moves.
    destruct (decide (j = i)) as [->|Hji].
    + rewrite array_get_set_eq by done.
      case_decide as Hq.
      * subst q. rewrite elem_of_app, list_elem_of_singleton. naive_solver.
      * rewrite <- Hcells, Hblank. naive_solver.
    + rewrite array_get_set_ne by done.
      case_decide as Hq.
      * subst q. rewrite elem_of_app, list_elem_of_singleton, Hcells. naive_solver.
      * apply Hcells.
  - intros q. rewrite moves_of_set_moves. case_decide; [|done].
    apply NoDup_app. split; [done|]. split; [|apply NoDup_singleton].
    intros j Hj ->%list_elem_of_singleton.
    apply Hcells in Hj. congruence.
  - intros q. rewrite moves_of_set_moves. case_decide; [|done].
    rewrite length_app. simpl. lia.
Qed.

Lemma board_wf_remove b m p i :
  board_wf cap b m →
  array_get b i = Some (Sym p) →
  board_wf cap (array_set b i Blank) (set_moves m p (without i (moves_of m p))).
Proof.
  intros [Hlen Hcells Hnodup Hcap] Hown.
  pose proof (array_get_Some_range _ _ _ Hown) as Hrange.
  split.
  - by rewrite array_set_length.
  - intros j q. rewrite moves_of_set_moves. unfold without.
    destruct (decide (j = i)) as [->|Hji].
    + rewrite array_get_set_eq by done.
      case_decide as Hq.
      * rewrite list_elem_of_filter. naive_solver.
      * rewrite <- Hcells, Hown. naive_solver.
    + rewrite array_get_set_ne by done.
      case_decide as Hq.
      * subst q. rewrite list_elem_of_filter, Hcells. naive_solver.
      * apply Hcells.
  - intros q. rewrite moves_of_set_moves. case_decide; [|done].
    by apply NoDup_filter.
  - intros q. rewrite moves_of_set_moves. case_decide; [|done].
    unfold without. etrans; [apply length_filter|]. done.
Qed.

End Boards.

(** ** Rate limiting *)

Section RateLimiter.
Import Hardened.
#[local] Arguments checkRateLimit : simpl never.

Lemma checkRateLimit_new_window now s st :
  opens_window st s now →
  checkRateLimit now s st =
    (true, set_rateLimits
             <[s := {| count := 1;
                       resetTime := now + RATE_LIMIT_WINDOW CONFIG |}]> st).
Proof.
  intros Hopen. unfold checkRateLimit.
  destruct (rateLimits st !! s) as [l|] eqn:Hl; simpl.
  - specialize (Hopen l Hl).
    rewrite (bool_decide_eq_true_2 (resetTime l < now)%Z) by done. done.
  - rewrite (bool_decide_eq_false_2 (now + 1000 < now)%Z) by lia. done.
Qed.

Lemma checkRateLimit_same_window now s st l :
  rateLimits st !! s = Some l → (now ≤ resetTime l)%Z →
  checkRateLimit now s st =
    (bool_decide (S (count l) ≤ MAX_MOVES_PER_WINDOW CONFIG),
     set_rateLimits
       <[s := {| count := S (count l); resetTime := resetTime l |}]> st).
Proof.
  intros Hl Hle. unfold checkRateLimit. rewrite Hl. simpl.
  rewrite (bool_decide_eq_false_2 (resetTime l < now)%Z) by lia. done.
Qed.

Lemma checkRateLimits_cons t ts s st :
  checkRateLimits (t :: ts) s st =
    (let '(allowed, st1) := checkRateLimit t s st in
     let '(rest, st2) := checkRateLimits ts s st1 in
     (allowed :: rest, st2)).
Proof. reflexivity. Qed.

Lemma checkRateLimits_same_window ts : ∀ s st l,
  rateLimits st !! s = Some l →
  Forall (λ t, t ≤ resetTime l)%Z ts →
  (checkRateLimits ts s st).1 =
    (λ k, bool_decide (count l + k ≤ MAX_MOVES_PER_WINDOW CONFIG))
      <$> seq 1 (length ts).
Proof.
  induction ts as [|t ts IH]; intros s st l Hl Hts; [done|].
  inversion_clear Hts as [|? ? Ht Hts']. rewrite checkRateLimits_cons.
  rewrite (checkRateLimit_same_window _ _ _ l) by done.
  specialize (IH s
    (set_rateLimits <[s := {| count := S (count l); resetTime := resetTime l |}]> st)
    {| count := S (count l); resetTime := resetTime l |}).
  destruct (checkRateLimits ts s _) as [rest st2]. simpl in *.
  rewrite IH; [| by rewrite lookup_insert_eq | done].
  f_equal; [apply bool_decide_ext; lia|].
  rewrite <- (fmap_S_seq 1), <- list_fmap_compose.
  apply list_fmap_ext. intros _ k _. simpl. apply bool_decide_ext. lia.
Qed.

Lemma makeMove_rate_limited now s r i st :
  (checkRateLimit now s st).1 = false →
  (makeMove now s r i st).2 = [ToSocket s (Error RateLimited)].
Proof.
  unfold makeMove. destruct (checkRateLimit now s st) as [b st1]. simpl.
  by intros ->.
Qed.

Lemma removeSymbol_rate_limited now s r i st :
  (checkRateLimit now s st).1 = false →
  (removeSymbol now s r i st).2 = [ToSocket s (Error RateLimited)].
Proof.
  unfold removeSymbol. destruct (checkRateLimit now s st) as [b st1]. simpl.
  by intros ->.
Qed.

(** [checkRateLimit] on its own: a call at [t0] that starts a window and
    [MAX_MOVES_PER_WINDOW] further calls up to the reset time are allowed
    but for the last; a call after the reset time is allowed and restarts
    the counter at 1. *)
Lemma checkRateLimits_window s st t0 ts :
  opens_window st s t0 →
  Forall (λ t, t ≤ t0 + RATE_LIMIT_WINDOW CONFIG)%Z ts →
  length ts = MAX_MOVES_PER_WINDOW CONFIG →
  (checkRateLimits (t0 :: ts) s st).1
    = replicate (MAX_MOVES_PER_WINDOW CONFIG) true ++ [false]
  ∧ (∀ now r i st', (checkRateLimit now s st').1 = false →
       (makeMove now s r i st').2 = [ToSocket s (Error RateLimited)]
       ∧ (removeSymbol now s r i st').2 = [ToSocket s (Error RateLimited)])
  ∧ (∀ now st' l,
       rateLimits st' !! s = Some l → (resetTime l < now)%Z →
       (checkRateLimit now s st').1 = true
       ∧ rateLimits (checkRateLimit now s st').2 !! s
         = Some {| count := 1; resetTime := now + RATE_LIMIT_WINDOW CONFIG |}).
Proof.
  intros Hopen Hts Hlen. split; [|split].
  - rewrite checkRateLimits_cons, checkRateLimit_new_window by done.
    pose proof (checkRateLimits_same_window ts s
      (set_rateLimits
         <[s := {| count := 1; resetTime := t0 + RATE_LIMIT_WINDOW CONFIG |}]> st)
      {| count := 1; resetTime := t0 + RATE_LIMIT_WINDOW CONFIG |}) as Hrest.
    destruct (checkRateLimits ts s _) as [rest st2]. simpl in *.
    rewrite Hrest; [| by rewrite lookup_insert_eq | done].
    rewrite Hlen. reflexivity.
  - intros now r i st' Hno. split.
    + by apply makeMove_rate_limited.
    + by apply removeSymbol_rate_limited.
  - intros now st' l Hl Hlt.
    rewrite checkRateLimit_new_window.
    + simpl. by rewrite lookup_insert_eq.
    + intros l' Hl'. congruence.
Qed.

End RateLimiter.

(** ** Joining twice *)

Section Join.
Import Hardened.

Lemma joinGame_again now1 now2 s r n1 n2 f1 f2 st st1 out1 :
  joinGame now1 s r n1 f1 st = Some (st1, out1) →
  joinGame now2 s r n2 f2 st1 = Some (st1, out1).
Proof.
  unfold joinGame at 1.
  destruct (isValidRoomId r) eqn:Hvalid; simpl.
  - destruct (players _ !! r) as [roomPlayers|]; [|done].
    set (st2 := match roomPlayers !! s with Some _ => _ | None => _ end).
    destruct (games st2 !! r) as [game|] eqn:Hgame; [|done].
    destruct (players st2 !! r) as [roomPlayers2|] eqn:Hplayers; [|done].
    simpl.
    destruct (roomPlayers2 !! s) as [myPlayer|] eqn:Hme; [|done].
    intros [= <- <-].
    unfold joinGame. rewrite Hvalid, Hgame. simpl.
    rewrite Hplayers, Hme, Hgame, Hplayers. simpl. by rewrite Hme.
  - intros [= <- <-]. unfold joinGame. by rewrite Hvalid.
Qed.

Lemma simple_joinGame_again s r st st1 out1 :
  Simple.joinGame s r st = Some (st1, out1) →
  Simple.joinGame s r st1 = Some (st1, out1).
Proof.
  unfold Simple.joinGame at 1.
  set (st0 := match Simple.games st !! r with Some _ => _ | None => _ end).
  destruct (Simple.players st0 !! r) as [roomPlayers|]; [|done].
  destruct (Simple.games st0 !! r) as [game|] eqn:Hgame; [|done].
  set (roomPlayers' := match roomPlayers !! s with Some _ => _ | None => _ end).
  destruct (roomPlayers' !! s) as [myPlayer|] eqn:Hme; [|done].
  intros [= <- <-].
  unfold Simple.joinGame. simpl. rewrite Hgame. simpl.
  rewrite lookup_insert_eq, Hgame, Hme. simpl. rewrite Hme.
  by rewrite insert_insert_eq.
Qed.

(** C9.  On both servers a second [joinGame] of a connection for the
    room it has joined assigns no role: it leaves the whole state, and so
    the member map of the room, as the first call left it, and replies as
    the first call did, with the same role. *)
Theorem join_idempotent now1 now2 s r n1 n2 f1 f2 :
  (∀ st st1 out1,
     joinGame now1 s r n1 f1 st = Some (st1, out1) →
     ∃ out2, joinGame now2 s r n2 f2 st1 = Some (st1, out2)
             ∧ assigned out2 = assigned out1)
  ∧ (∀ st st1 out1,
       Simple.joinGame s r st = Some (st1, out1) →
       ∃ out2, Simple.joinGame s r st1 = Some (st1, out2)
               ∧ simple_assigned out2 = simple_assigned out1).
Proof.
  split; intros st st1 out1 Hfirst; exists out1; split; try done.
  - by apply (joinGame_again now1 now2 s r n1 n2 f1 f2 st).
  - by apply (simple_joinGame_again s r st).
Qed.

Lemma join_idempotent_witness :
  ∃ st1 out1,
    joinGame 0 "a" "r" None "ida" initial = Some (st1, out1)
    ∧ assigned out1 = Some (Player X)
    ∧ ∃ out2, joinGame 7 "a" "r" (Some "ann") "idz" st1 = Some (st1, out2)
              ∧ assigned out2 = assigned out1.
Proof.
  eexists _, _. split; [vm_compute; reflexivity|]. split; [reflexivity|].
  refine (proj1 (join_idempotent 0 7 "a" "r" None (Some "ann") "ida" "idz")
            initial _ _ _).
  vm_compute. reflexivity.
Defined.

End Join.

(** ** The move timer *)

Section MoveTimer.
Import Hardened.

Lemma startMoveTimer_playing now r st g :
  games st !! r = Some g → gameStatus g = playing →
  startMoveTimer now r st =
    setTimeout now (moveKey r) (MoveTimeout r) (MOVE_TIMEOUT CONFIG)
      (set_games <[r := set_turnStartTime (Some now) g]>
         (clearTimeout (moveKey r) st)).
Proof.
  intros Hg Hplaying. unfold startMoveTimer. rewrite Hg.
  rewrite bool_decide_eq_false_2; [done | by intros []].
Qed.

Lemma startMoveTimer_not_playing now r st g :
  games st !! r = Some g → gameStatus g ≠ playing →
  startMoveTimer now r st = st.
Proof.
  intros Hg Hidle. unfold startMoveTimer. rewrite Hg.
  by rewrite bool_decide_eq_true_2.
Qed.

Lemma startMoveTimer_no_game now r st :
  games st !! r = None → startMoveTimer now r st = st.
Proof. intros Hg. unfold startMoveTimer. by rewrite Hg. Qed.

Lemma startMoveTimer_players now r st :
  players (startMoveTimer now r st) = players st.
Proof.
  unfold startMoveTimer. destruct (games st !! r); [|done].
  by case_bool_decide.
Qed.

Lemma startMoveTimer_rateLimits now r st :
  rateLimits (startMoveTimer now r st) = rateLimits st.
Proof.
  unfold startMoveTimer. destruct (games st !! r); [|done].
  by case_bool_decide.
Qed.

End MoveTimer.

(** ** Rematch *)

Section Rematch.
Import Hardened.




End Rematch.

(** ** Placement and removal, case by case *)

Section Moves.
Import Hardened.
#[local] Arguments checkRateLimit : simpl never.
#[local] Arguments startMoveTimer : simpl never.

Lemma checkRateLimit_games now s st :
  games (checkRateLimit now s st).2 = games st.
Proof. done. Qed.

Lemma checkRateLimit_players now s st :
  players (checkRateLimit now s st).2 = players st.
Proof. done. Qed.

Lemma checkRateLimit_roomTimers now s st :
  roomTimers (checkRateLimit now s st).2 = roomTimers st.
Proof. done. Qed.

(** The two outcomes of [makeMove]: a rejection that writes the
    rate-limiter entry only, or the state an accepted placement leaves. *)
Lemma makeMove_cases now s r i st :
  let st1 := (checkRateLimit now s st).2 in
  (∃ e, makeMove now s r i st = (st1, [ToSocket s (Error e)]))
  ∨ (∃ g roomPlayers p,
       games st !! r = Some g
       ∧ players st !! r = Some roomPlayers
       ∧ role_of roomPlayers s = Some (Player p)
       ∧ gameStatus g = playing
       ∧ currentPlayer g = p
       ∧ length (moves_of (moves g) p) < MAX_SYMBOLS CONFIG
       ∧ (0 ≤ i ≤ 8)%Z
       ∧ array_get (board g) i = Some Blank
       ∧ accepted (makeMove now s r i st).2 = true
       ∧ let g1 := record_move now place p i
                     (array_set (board g) i (Sym p))
                     (moves_of (moves g) p ++ [i]) g in
         match checkWinner (board g1) with
         | Some result =>
             (makeMove now s r i st).1 =
               clearTimeout (moveKey r)
                 (set_games <[r := conclude result g1]> st1)
         | None =>
             (makeMove now s r i st).1 =
               setTimeout now (moveKey r) (MoveTimeout r) (MOVE_TIMEOUT CONFIG)
                 (set_games
                    <[r := set_turnStartTime (Some now)
                             (set_currentPlayer (opponent p) g1)]>
                    (clearTimeout (moveKey r) st1))
         end).
Proof.
  intros st1. unfold makeMove.
  destruct (checkRateLimit now s st) as [allowed st1'] eqn:Hrl.
  assert (games st1' = games st ∧ players st1' = players st) as [Hg1 Hp1].
  { change st1' with (allowed, st1').2. rewrite <- Hrl. done. }
  subst st1. simpl.
  destruct allowed; simpl; [|left; eauto].
  rewrite Hg1, Hp1.
  destruct (games st !! r) as [g|] eqn:Hg; [|left; eauto].
  destruct (players st !! r) as [roomPlayers|] eqn:Hp; [|left; eauto].
  destruct (role_of roomPlayers s) as [[p|]|] eqn:Hrole; [|left; eauto ..].
  case_bool_decide as Hst; [left; eauto|].
  case_bool_decide as Hturn; [left; eauto|].
  case_bool_decide as Hcap; [left; eauto|].
  case_bool_decide as Hidx; [left; eauto|].
  case_bool_decide as Hocc; [left; eauto|].
  right. exists g, roomPlayers, p.
  repeat (split; [done || lia|]).
  destruct (checkWinner _) as [result|] eqn:Hwin; simpl.
  - by split.
  - erewrite startMoveTimer_playing;
      [| by simpl; rewrite lookup_insert_eq | done].
    split; [done|]. unfold setTimeout, set_games, clearTimeout, set_roomTimers.
    simpl. by rewrite insert_insert_eq.
Qed.

Lemma removeSymbol_cases now s r i st :
  let st1 := (checkRateLimit now s st).2 in
  removeSymbol now s r i st = (st1, [])
  ∨ (∃ e, removeSymbol now s r i st = (st1, [ToSocket s (Error e)]))
  ∨ (∃ g roomPlayers p,
       games st !! r = Some g
       ∧ players st !! r = Some roomPlayers
       ∧ role_of roomPlayers s = Some (Player p)
       ∧ gameStatus g = playing
       ∧ currentPlayer g = p
       ∧ array_get (board g) i = Some (Sym p)
       ∧ accepted (removeSymbol now s r i st).2 = true
       ∧ (removeSymbol now s r i st).1 =
           setTimeout now (moveKey r) (MoveTimeout r) (MOVE_TIMEOUT CONFIG)
             (set_games
                <[r := set_turnStartTime (Some now)
                         (set_currentPlayer (opponent p)
                            (record_move now remove p i
                               (array_set (board g) i Blank)
                               (without i (moves_of (moves g) p)) g))]>
                (clearTimeout (moveKey r) st1))).
Proof.
  intros st1. unfold removeSymbol.
  destruct (checkRateLimit now s st) as [allowed st1'] eqn:Hrl.
  assert (games st1' = games st ∧ players st1' = players st) as [Hg1 Hp1].
  { change st1' with (allowed, st1').2. rewrite <- Hrl. done. }
  subst st1. simpl.
  destruct allowed; simpl; [|right; left; eauto].
  rewrite Hg1, Hp1.
  destruct (games st !! r) as [g|] eqn:Hg; [|by left].
  destruct (players st !! r) as [roomPlayers|] eqn:Hp; [|by left].
  destruct (role_of roomPlayers s) as [[p|]|] eqn:Hrole; [|right; left; eauto ..].
  case_bool_decide as Hst; [right; left; eauto|].
  case_bool_decide as Hturn; [right; left; eauto|].
  case_bool_decide as Hown; [right; left; eauto|].
  right. right. exists g, roomPlayers, p.
  do 6 (split; [done|]).
  erewrite startMoveTimer_playing;
    [| by simpl; rewrite lookup_insert_eq | done].
  split; [done|]. simpl. unfold setTimeout, set_games, clearTimeout, set_roomTimers.
  simpl. by rewrite insert_insert_eq.
Qed.

Lemma makeMove_turn now s r i st g :
  games st !! r = Some g →
  if accepted (makeMove now s r i st).2
  then ∃ g', games (makeMove now s r i st).1 !! r = Some g'
             ∧ currentPlayer g' =
                 match checkWinner (board g') with
                 | Some _ => currentPlayer g
                 | None => opponent (currentPlayer g)
                 end
  else games (makeMove now s r i st).1 = games st
       ∧ players (makeMove now s r i st).1 = players st
       ∧ roomTimers (makeMove now s r i st).1 = roomTimers st.
Proof.
  intros Hg.
  destruct (makeMove_cases now s r i st)
    as [[e ->]|(g0 & rp & p & Hg0 & _ & _ & _ & Hcur & _ & _ & _ & -> & Hst)];
    [done|].
  assert (g0 = g) as -> by congruence.
  simpl in Hst. destruct (checkWinner _) as [result|] eqn:Hwin; rewrite Hst; simpl;
    rewrite lookup_insert_eq; eexists; (split; [done|]).
  - replace (board (conclude result _)) with
      (array_set (board g) i (Sym p)) by (unfold conclude; by destruct (res_winner result)).
    rewrite Hwin. unfold conclude. by destruct (res_winner result).
  - simpl. rewrite Hwin. by rewrite Hcur.
Qed.

Lemma removeSymbol_turn now s r i st g :
  games st !! r = Some g →
  if accepted (removeSymbol now s r i st).2
  then ∃ g', games (removeSymbol now s r i st).1 !! r = Some g'
             ∧ currentPlayer g' = opponent (currentPlayer g)
  else games (removeSymbol now s r i st).1 = games st
       ∧ players (removeSymbol now s r i st).1 = players st
       ∧ roomTimers (removeSymbol now s r i st).1 = roomTimers st.
Proof.
  intros Hg.
  destruct (removeSymbol_cases now s r i st)
    as [->|[[e ->]|(g0 & rp & p & Hg0 & _ & _ & _ & Hcur & _ & -> & ->)]];
    [done..|].
  assert (g0 = g) as -> by congruence.
  simpl. rewrite lookup_insert_eq. eexists. split; [done|]. simpl. by rewrite Hcur.
Qed.

Lemma simple_makeMove_turn r i p st g :
  Simple.games st !! r = Some g →
  if simple_accepted (Simple.makeMove r i p st).2
  then ∃ g', Simple.games (Simple.makeMove r i p st).1 !! r = Some g'
             ∧ Simple.currentPlayer g' = opponent (Simple.currentPlayer g)
  else (Simple.makeMove r i p st).1 = st.
Proof.
  intros Hg. unfold Simple.makeMove. rewrite Hg.
  repeat (case_bool_decide; [done|]). simpl.
  rewrite lookup_insert_eq. eexists. split; [done|]. simpl. congruence.
Qed.

Lemma simple_removeSymbol_turn r i p st g :
  Simple.games st !! r = Some g →
  if simple_accepted (Simple.removeSymbol r i p st).2
  then ∃ g', Simple.games (Simple.removeSymbol r i p st).1 !! r = Some g'
             ∧ Simple.currentPlayer g' = Simple.currentPlayer g
  else (Simple.removeSymbol r i p st).1 = st.
Proof.
  intros Hg. unfold Simple.removeSymbol. rewrite Hg.
  case_bool_decide; [|done]. simpl.
  rewrite lookup_insert_eq. by eexists.
Qed.

(** C2, as amended.  On the hardened server an accepted placement that
    completes no line and does not fill the board, and every accepted
    removal, hand the turn to the other player; an accepted placement
    that produces a win or a draw leaves [currentPlayer] as it was; a
    rejected placement or removal leaves the games as they were.  On the
    minimal server an accepted placement hands the turn to the other
    player and an accepted removal leaves [currentPlayer] as it was; a
    rejected one leaves the state as it was. *)
Theorem turn_alternation :
  (∀ now s r i st g,
     games st !! r = Some g →
     if accepted (makeMove now s r i st).2
     then ∃ g', games (makeMove now s r i st).1 !! r = Some g'
                ∧ currentPlayer g' =
                    match checkWinner (board g') with
                    | Some _ => currentPlayer g
                    | None => opponent (currentPlayer g)
                    end
     else games (makeMove now s r i st).1 = games st)
  ∧ (∀ now s r i st g,
       games st !! r = Some g →
       if accepted (removeSymbol now s r i st).2
       then ∃ g', games (removeSymbol now s r i st).1 !! r = Some g'
                  ∧ currentPlayer g' = opponent (currentPlayer g)
       else games (removeSymbol now s r i st).1 = games st)
  ∧ (∀ r i p st g,
       Simple.games st !! r = Some g →
       if simple_accepted (Simple.makeMove r i p st).2
       then ∃ g', Simple.games (Simple.makeMove r i p st).1 !! r = Some g'
                  ∧ Simple.currentPlayer g' = opponent (Simple.currentPlayer g)
       else (Simple.makeMove r i p st).1 = st)
  ∧ (∀ r i p st g,
       Simple.games st !! r = Some g →
       if simple_accepted (Simple.removeSymbol r i p st).2
       then ∃ g', Simple.games (Simple.removeSymbol r i p st).1 !! r = Some g'
                  ∧ Simple.currentPlayer g' = Simple.currentPlayer g
       else (Simple.removeSymbol r i p st).1 = st).
Proof.
  repeat split.
  - intros now s r i st g Hg. pose proof (makeMove_turn now s r i st g Hg) as H.
    destruct (accepted _); [done | by destruct H].
  - intros now s r i st g Hg. pose proof (removeSymbol_turn now s r i st g Hg) as H.
    destruct (accepted _); [done | by destruct H].
  - apply simple_makeMove_turn.
  - apply simple_removeSymbol_turn.
Qed.

Lemma turn_alternation_witness :
  run two_players initial = Some (state_after two_players)
  ∧ ∃ g', games (makeMove 2 "a" "r" 0 (state_after two_players)).1 !! "r" = Some g'
          ∧ currentPlayer g' = O.
Proof.
  split; [vm_compute; reflexivity|].
  pose proof (proj1 turn_alternation 2%Z "a" "r" 0%Z (state_after two_players) _
                ltac:(vm_compute; reflexivity)) as H.
  destruct (accepted _) eqn:E in H; [|vm_compute in E; discriminate].
  destruct H as (g' & Hg' & Hcur). exists g'. split; [exact Hg'|].
  vm_compute in Hg'. injection Hg' as <-. reflexivity.
Defined.

(** C2, as stated, fails: the placement that completes the first row
    for X is accepted and leaves X as the current player. *)
Lemma winning_placement_keeps_turn :
  run before_x_wins initial = Some (state_after before_x_wins)
  ∧ ¬ (∀ g g',
         games (state_after before_x_wins) !! "r" = Some g →
         accepted (makeMove 6 "a" "r" 2 (state_after before_x_wins)).2 = true →
         games (makeMove 6 "a" "r" 2 (state_after before_x_wins)).1 !! "r" = Some g' →
         currentPlayer g' = opponent (currentPlayer g)).
Proof.
  split; [vm_compute; reflexivity|].
  intros Hclaim.
  specialize (Hclaim _ _ ltac:(vm_compute; reflexivity)
                ltac:(vm_compute; reflexivity) ltac:(vm_compute; reflexivity)).
  vm_compute in Hclaim. discriminate.
Qed.

(** C5, as amended.  On the hardened server, a placement request of the
    player whose turn it is, in a game that is being played, by a
    connection that the rate limiter allows, is rejected with
    [SymbolCapReached] when the player already has [MAX_SYMBOLS] symbols
    on the board, whatever the index and whatever the cell holds; the
    rejection writes the rate-limiter entry and nothing else.  On the
    minimal server the same request is dropped without a reply and the
    state is unchanged. *)
Theorem cap_rejection :
  (∀ now s r i st g roomPlayers p,
     (checkRateLimit now s st).1 = true →
     games st !! r = Some g →
     players st !! r = Some roomPlayers →
     role_of roomPlayers s = Some (Player p) →
     gameStatus g = playing →
     currentPlayer g = p →
     MAX_SYMBOLS CONFIG ≤ length (moves_of (moves g) p) →
     makeMove now s r i st =
       ((checkRateLimit now s st).2, [ToSocket s (Error SymbolCapReached)])
     ∧ games (makeMove now s r i st).1 = games st
     ∧ players (makeMove now s r i st).1 = players st
     ∧ roomTimers (makeMove now s r i st).1 = roomTimers st)
  ∧ (∀ r i p st g,
       Simple.games st !! r = Some g →
       Simple.currentPlayer g = p →
       3 ≤ length (moves_of (Simple.moves g) p) →
       Simple.makeMove r i p st = (st, [])).
Proof.
  split.
  - intros now s r i st g roomPlayers p Hrl Hg Hp Hrole Hst Hcur Hcap.
    assert (makeMove now s r i st =
              ((checkRateLimit now s st).2, [ToSocket s (Error SymbolCapReached)]))
      as ->; [|done].
    unfold makeMove. destruct (checkRateLimit now s st) as [allowed st1] eqn:E.
    assert (games st1 = games st ∧ players st1 = players st) as [Hg1 Hp1].
    { change st1 with (allowed, st1).2. rewrite <- E. done. }
    simpl in Hrl. subst allowed. simpl.
    rewrite Hg1, Hp1, Hg, Hp, Hrole.
    rewrite bool_decide_eq_false_2 by (by intros []).
    rewrite bool_decide_eq_false_2 by (by intros []).
    by rewrite bool_decide_eq_true_2.
  - intros r i p st g Hg Hcur Hcap. unfold Simple.makeMove. rewrite Hg.
    rewrite bool_decide_eq_false_2 by (by intros []).
    by rewrite bool_decide_eq_true_2.
Qed.

Lemma cap_rejection_witness :
  run (x_at_cap ++ [MakeMove 7 "b" "r" 5]) initial
    = Some (state_after (x_at_cap ++ [MakeMove 7 "b" "r" 5]))
  ∧ (makeMove 8 "a" "r" 12 (state_after (x_at_cap ++ [MakeMove 7 "b" "r" 5]))).2
    = [ToSocket "a" (Error SymbolCapReached)].
Proof.
  split; [vm_compute; reflexivity|].
  pose proof (proj1 cap_rejection 8%Z "a" "r" 12%Z
                (state_after (x_at_cap ++ [MakeMove 7 "b" "r" 5])) _ _ X
                ltac:(vm_compute; reflexivity) ltac:(vm_compute; reflexivity)
                ltac:(vm_compute; reflexivity) ltac:(vm_compute; reflexivity)
                ltac:(vm_compute; reflexivity) ltac:(vm_compute; reflexivity)
                ltac:(vm_compute; lia)) as [H _].
  rewrite H. reflexivity.
Defined.

(** C5, as stated, fails: X holds three symbols and asks for a fourth
    while it is the turn of O; the reply is [NotYourTurn]. *)
Lemma cap_checked_after_turn :
  run x_at_cap initial = Some (state_after x_at_cap)
  ∧ ¬ (∀ g,
         games (state_after x_at_cap) !! "r" = Some g →
         MAX_SYMBOLS CONFIG ≤ length (moves_of (moves g) X) →
         (makeMove 7 "a" "r" 5 (state_after x_at_cap)).2
           = [ToSocket "a" (Error SymbolCapReached)]).
Proof.
  split; [vm_compute; reflexivity|].
  intros Hclaim.
  specialize (Hclaim _ ltac:(vm_compute; reflexivity) ltac:(vm_compute; lia)).
  vm_compute in Hclaim. discriminate.
Qed.

End Moves.

(** ** Well-formed games *)

Section Games.
Import Hardened.

Lemma game_wf_createGame now : game_wf (createGame now).
Proof. split; [apply board_wf_empty | done]. Qed.

Lemma game_wf_status s g :
  s ≠ finished → game_wf g → game_wf (set_gameStatus s g).
Proof. intros Hs [Hb Hf]. by split. Qed.

Lemma game_wf_turnStartTime t g : game_wf g → game_wf (set_turnStartTime t g).
Proof. intros [Hb Hf]. by split. Qed.

Lemma game_wf_currentPlayer p g : game_wf g → game_wf (set_currentPlayer p g).
Proof. intros [Hb Hf]. by split. Qed.

Lemma game_wf_place now g p i :
  game_wf g →
  array_get (board g) i = Some Blank →
  length (moves_of (moves g) p) < MAX_SYMBOLS CONFIG →
  game_wf (record_move now place p i (array_set (board g) i (Sym p))
             (moves_of (moves g) p ++ [i]) g).
Proof. intros [Hb Hf] Hblank Hroom. split; [by apply board_wf_place | done]. Qed.

Lemma game_wf_remove now g p i :
  game_wf g →
  array_get (board g) i = Some (Sym p) →
  game_wf (record_move now remove p i (array_set (board g) i Blank)
             (without i (moves_of (moves g) p)) g).
Proof. intros [Hb Hf] Hown. split; [by apply board_wf_remove | done]. Qed.

Lemma game_wf_conclude result g : game_wf g → game_wf (conclude result g).
Proof.
  intros [Hb Hf]. unfold conclude. destruct (res_winner result); by split.
Qed.

Lemma game_wf_forfeit w g :
  game_wf g →
  game_wf (set_scores (bump w (scores g)) (finish (Win w) (winningLine g) g)).
Proof. intros [Hb Hf]. by split. Qed.

Lemma game_wf_rematch now sc :
  game_wf (set_gameStatus playing (set_scores sc (createGame now))).
Proof. split; [apply board_wf_empty | done]. Qed.

End Games.

(** ** Well-formed states *)

Section States.
Import Hardened.

Lemma held_once_delete {A B} (proj : A → B) v s (m : gmap string A) :
  held_once proj v m → held_once proj v (delete s m).
Proof.
  intros H s1 s2 m1 m2 [_ H1]%lookup_delete_Some [_ H2]%lookup_delete_Some.
  by apply H.
Qed.

Lemma held_once_empty {A B} (proj : A → B) v : held_once proj v (∅ : gmap string A).
Proof. intros s1 s2 m1 m2 H. by rewrite lookup_empty in H. Qed.

Lemma state_wf_initial : state_wf initial.
Proof.
  split; simpl.
  - apply map_Forall_empty.
  - by rewrite !dom_empty_L.
  - apply map_Forall_empty.
  - intros k t H. by rewrite lookup_empty in H.
  - intros r g H. by rewrite lookup_empty in H.
Qed.

Lemma state_wf_rateLimits f st : state_wf st → state_wf (set_rateLimits f st).
Proof. by intros []. Qed.

Lemma state_wf_put_idle r g st :
  state_wf st → is_Some (games st !! r) → game_wf g → gameStatus g ≠ playing →
  state_wf (set_games <[r := g]> st).
Proof.
  intros [Hgames Hdom Hroles Htimers Harmed] Hr Hg Hidle. split; simpl; try done.
  - by apply map_Forall_insert_2.
  - rewrite dom_insert_lookup_L; done.
  - intros r' g' Hlook Hplaying.
    destruct (decide (r' = r)) as [->|Hne].
    + rewrite lookup_insert_eq in Hlook. congruence.
    + rewrite lookup_insert_ne in Hlook by done. by apply Harmed.
Qed.

Lemma state_wf_clear_move r st :
  state_wf st →
  (∀ g, games st !! r = Some g → gameStatus g ≠ playing) →
  state_wf (clearTimeout (moveKey r) st).
Proof.
  intros [Hgames Hdom Hroles Htimers Harmed] Hidle. split; simpl; try done.
  - intros k t [_ Hk]%lookup_delete_Some. by apply Htimers.
  - intros r' g' Hlook Hplaying.
    destruct (decide (r' = r)) as [->|Hne].
    + by destruct (Hidle g' Hlook).
    + rewrite lookup_delete_ne; [by apply Harmed|].
      intros Heq%moveKey_inj. done.
Qed.

Lemma state_wf_clear_expiry r st :
  state_wf st → state_wf (clearTimeout (expiryKey r) st).
Proof.
  intros [Hgames Hdom Hroles Htimers Harmed]. split; simpl; try done.
  - intros k t [_ Hk]%lookup_delete_Some. by apply Htimers.
  - intros r' g' Hlook Hplaying.
    rewrite lookup_delete_ne; [by apply Harmed|].
    intros Heq. symmetry in Heq. by apply moveKey_expiryKey in Heq.
Qed.

Lemma state_wf_put_playing now r g st :
  state_wf st → is_Some (games st !! r) → game_wf g →
  turnStartTime g = Some now →
  state_wf (setTimeout now (moveKey r) (MoveTimeout r) (MOVE_TIMEOUT CONFIG)
              (set_games <[r := g]> (clearTimeout (moveKey r) st))).
Proof.
  intros [Hgames Hdom Hroles Htimers Harmed] Hr Hg Hstart. split; simpl; try done.
  - by apply map_Forall_insert_2.
  - rewrite dom_insert_lookup_L; done.
  - intros k t Hk. destruct (decide (k = moveKey r)) as [->|Hne].
    + rewrite lookup_insert_eq in Hk. injection Hk as <-. left. by exists r.
    + rewrite lookup_insert_ne, lookup_delete_ne in Hk by done. by apply Htimers.
  - intros r' g' Hlook Hplaying.
    destruct (decide (r' = r)) as [->|Hne].
    + rewrite lookup_insert_eq in Hlook. injection Hlook as <-.
      exists now. by rewrite lookup_insert_eq.
    + rewrite lookup_insert_ne in Hlook by done.
      assert (moveKey r ≠ moveKey r') by (by intros ?%moveKey_inj).
      rewrite lookup_insert_ne, lookup_delete_ne by done. by apply Harmed.
Qed.

Lemma state_wf_set_expiry now r st :
  state_wf st →
  state_wf (setTimeout now (expiryKey r) (RoomExpiry r) (ROOM_EXPIRY CONFIG) st).
Proof.
  intros [Hgames Hdom Hroles Htimers Harmed]. split; simpl; try done.
  - intros k t Hk. destruct (decide (k = expiryKey r)) as [->|Hne].
    + rewrite lookup_insert_eq in Hk. injection Hk as <-. right. by exists r.
    + rewrite lookup_insert_ne in Hk by done. by apply Htimers.
  - intros r' g' Hlook Hplaying.
    rewrite lookup_insert_ne; [by apply Harmed|].
    intros Heq. symmetry in Heq. by apply moveKey_expiryKey in Heq.
Qed.

Lemma state_wf_members r roomPlayers st :
  state_wf st → is_Some (players st !! r) →
  held_once role (Player X) roomPlayers →
  held_once role (Player O) roomPlayers →
  state_wf (set_players <[r := roomPlayers]> st).
Proof.
  intros [Hgames Hdom Hroles Htimers Harmed] Hr HX HO. split; simpl; try done.
  - rewrite dom_insert_lookup_L; done.
  - by apply map_Forall_insert_2.
Qed.

Lemma state_wf_new_room now r st :
  state_wf st →
  state_wf (set_players <[r := ∅]> (set_games <[r := createGame now]> st)).
Proof.
  intros [Hgames Hdom Hroles Htimers Harmed]. split; simpl; try done.
  - apply map_Forall_insert_2; [apply game_wf_createGame | done].
  - rewrite !dom_insert_L. by rewrite Hdom.
  - apply map_Forall_insert_2; [|done]. split; apply held_once_empty.
  - intros r' g' Hlook Hplaying.
    destruct (decide (r' = r)) as [->|Hne].
    + rewrite lookup_insert_eq in Hlook. by injection Hlook as <-.
    + rewrite lookup_insert_ne in Hlook by done. by apply Harmed.
Qed.

Lemma state_wf_cleanupRoom r st : state_wf st → state_wf (cleanupRoom r st).
Proof.
  intros [Hgames Hdom Hroles Htimers Harmed]. split; simpl.
  - by apply map_Forall_delete.
  - rewrite !dom_delete_L. by rewrite Hdom.
  - by apply map_Forall_delete.
  - intros k t Hk.
    repeat (apply lookup_delete_Some in Hk as [_ Hk]). by apply Htimers.
  - intros r' g' [Hne Hlook]%lookup_delete_Some Hplaying.
    assert (moveKey r ≠ moveKey r') by (by intros ?%moveKey_inj).
    assert (expiryKey r ≠ moveKey r')
      by (intros Heq; symmetry in Heq; by apply moveKey_expiryKey in Heq).
    rewrite !lookup_delete_ne by done. by apply Harmed.
Qed.

End States.

(** ** Handlers keep states well formed *)

Section Preservation.
Import Hardened.
#[local] Arguments checkRateLimit : simpl never.
#[local] Arguments startMoveTimer : simpl never.

Lemma checkRateLimit_wf now s st :
  state_wf st → state_wf (checkRateLimit now s st).2.
Proof. apply state_wf_rateLimits. Qed.

Lemma startMoveTimer_put now r g st :
  gameStatus g = playing →
  startMoveTimer now r (set_games <[r := g]> st) =
    setTimeout now (moveKey r) (MoveTimeout r) (MOVE_TIMEOUT CONFIG)
      (set_games <[r := set_turnStartTime (Some now) g]>
         (clearTimeout (moveKey r) st)).
Proof.
  intros Hplaying.
  rewrite (startMoveTimer_playing now r _ g);
    [| by simpl; rewrite lookup_insert_eq | done].
  unfold setTimeout, set_games, clearTimeout, set_roomTimers. simpl.
  by rewrite insert_insert_eq.
Qed.

Lemma makeMove_wf now s r i st : state_wf st → state_wf (makeMove now s r i st).1.
Proof.
  intros Hwf. pose proof (checkRateLimit_wf now s st Hwf) as Hwf1.
  destruct (makeMove_cases now s r i st)
    as [[e ->]|(g & rp & p & Hg & _ & _ & Hst & Hcur & Hcap & _ & Hblank & _ & Hres)];
    [done|].
  pose proof (wf_games st Hwf r g Hg) as Hgwf.
  pose proof (game_wf_place now g p i Hgwf Hblank Hcap) as Hg1.
  simpl in Hres. destruct (checkWinner _) as [result|]; rewrite Hres.
  - apply (state_wf_clear_move r).
    + apply state_wf_put_idle; [done| by exists g | |].
      * by apply game_wf_conclude.
      * unfold conclude. by destruct (res_winner result).
    + simpl. intros g'. rewrite lookup_insert_eq. intros [= <-].
      unfold conclude. by destruct (res_winner result).
  - apply state_wf_put_playing; [done| by exists g | | done].
    by apply game_wf_turnStartTime, game_wf_currentPlayer.
Qed.

Lemma removeSymbol_wf now s r i st :
  state_wf st → state_wf (removeSymbol now s r i st).1.
Proof.
  intros Hwf. pose proof (checkRateLimit_wf now s st Hwf) as Hwf1.
  destruct (removeSymbol_cases now s r i st)
    as [->|[[e ->]|(g & rp & p & Hg & _ & _ & Hst & Hcur & Hown & _ & ->)]];
    [done..|].
  pose proof (wf_games st Hwf r g Hg) as Hgwf.
  apply state_wf_put_playing; [done| by exists g | | done].
  by apply game_wf_turnStartTime, game_wf_currentPlayer, game_wf_remove.
Qed.

Lemma rematch_wf now s r st : state_wf st → state_wf (rematch now s r st).1.
Proof.
  intros Hwf. unfold rematch.
  destruct (games st !! r) as [g|] eqn:Hg; [|done].
  destruct (players st !! r) as [rp|]; [|done].
  destruct (role_of rp s) as [[p|]|]; [|done..].
  simpl. rewrite startMoveTimer_put by done.
  apply state_wf_put_playing; [done| by exists g | | done].
  apply game_wf_turnStartTime, game_wf_rematch.
Qed.

Lemma fire_wf now key st : state_wf st → state_wf (fire now key st).1.
Proof.
  intros Hwf. unfold fire.
  destruct (roomTimers st !! key) as [t|] eqn:Hk; [|done].
  case_bool_decide; [|done].
  destruct (wf_timers st Hwf key t Hk) as [(r & -> & ->)|(r & -> & ->)]; simpl.
  - unfold onMoveTimeout. simpl.
    destruct (games st !! r) as [g|] eqn:Hg.
    + case_bool_decide as Hst; simpl.
      * apply (state_wf_clear_move r); [done|]. intros g'. rewrite Hg. by intros [= <-].
      * set (g1 := set_scores _ _).
        change (state_wf (clearTimeout (moveKey r) (set_games <[r := g1]> st))).
        apply (state_wf_clear_move r).
        -- apply state_wf_put_idle; [done| by exists g | | done].
           apply game_wf_forfeit. by apply (wf_games st Hwf r).
        -- simpl. intros g'. rewrite lookup_insert_eq. by intros [= <-].
    + apply (state_wf_clear_move r); [done|]. intros g'. by rewrite Hg.
  - apply state_wf_cleanupRoom. by apply (state_wf_clear_expiry r).
Qed.

Lemma leaveRoom_wf s r acc : state_wf acc.1 → state_wf (leaveRoom s r acc).1.
Proof.
  destruct acc as [st out]. simpl. intros Hwf.
  destruct (players st !! r) as [rp|] eqn:Hrp; [|done].
  destruct (rp !! s) as [me|] eqn:Hme; [|done].
  assert (state_wf (set_players <[r := delete s rp]> st)) as Hwf1.
  { destruct (wf_roles st Hwf r rp Hrp) as [HX HO].
    apply state_wf_members; [done| by rewrite Hrp | by apply held_once_delete ..]. }
  case_bool_decide; simpl.
  - by apply state_wf_cleanupRoom.
  - case_bool_decide; [|done].
    destruct (games st !! r) as [g|] eqn:Hg; [|done]. simpl.
    apply (state_wf_clear_move r).
    + apply state_wf_put_idle; [done| by exists g | | done].
      apply game_wf_status; [done|]. by apply (wf_games st Hwf r).
    + simpl. intros g'. rewrite lookup_insert_eq. by intros [= <-].
Qed.

Lemma disconnect_wf s st : state_wf st → state_wf (disconnect s st).1.
Proof.
  intros Hwf. unfold disconnect.
  assert (∀ rooms acc, state_wf acc.1 →
            state_wf (foldl (λ acc r, leaveRoom s r acc) acc rooms).1) as Hfold.
  { induction rooms as [|r rooms IH]; intros acc Hacc; [done|].
    simpl. by apply IH, leaveRoom_wf. }
  specialize (Hfold (map_to_list (players st)).*1 (st, []) Hwf).
  destruct (foldl _ _ _) as [st' out]. simpl in *.
  by apply state_wf_rateLimits.
Qed.

Lemma elem_of_existingRoles r0 (roomPlayers : gmap string Member) :
  r0 ∈ existingRoles roomPlayers ↔ held r0 roomPlayers.
Proof.
  unfold existingRoles, held. rewrite list_elem_of_fmap. split.
  - intros (m & -> & Hm). apply list_elem_of_fmap in Hm as ([s m'] & Heq & Hin).
    simpl in Heq. subst m. apply elem_of_map_to_list in Hin. by exists s, m'.
  - intros (s & m & Hlook & <-). exists m. split; [done|].
    apply list_elem_of_fmap. exists (s, m). split; [done|].
    by apply elem_of_map_to_list.
Qed.

Lemma held_once_insert p s me (roomPlayers : gmap string Member) :
  held_once role (Player p) roomPlayers →
  (role me = Player p → ¬ held (Player p) roomPlayers) →
  held_once role (Player p) (<[s := me]> roomPlayers).
Proof.
  intros Honce Hfree s1 s2 m1 m2 H1 H2 Hr1 Hr2.
  apply lookup_insert_Some in H1 as [[<- <-]|[Hne1 H1]];
    apply lookup_insert_Some in H2 as [[<- <-]|[Hne2 H2]].
  - done.
  - destruct (Hfree Hr1). by exists s2, m2.
  - destruct (Hfree Hr2). by exists s1, m1.
  - by apply (Honce s1 s2 m1 m2).
Qed.

Lemma freeRole_free p roles : freeRole roles = Player p → Player p ∉ roles.
Proof.
  unfold freeRole. repeat case_bool_decide; intros [= <-]; done.
Qed.

(** What [joinGame] does for a valid room identifier, from a well-formed
    state: [st1] is the state once the room exists. *)
Lemma joinGame_cases now s r n f st :
  state_wf st → isValidRoomId r = true →
  let st1 :=
    match games st !! r with
    | None =>
        startRoomExpiryTimer now r
          (set_players <[r := ∅]> (set_games <[r := createGame now]> st))
    | Some _ => st
    end in
  ∃ roomPlayers g,
    state_wf st1 ∧ players st1 !! r = Some roomPlayers ∧ games st1 !! r = Some g
    ∧ match roomPlayers !! s with
      | Some me =>
          joinGame now s r n f st =
            Some (st1, [ToSocket s (Init g (role me) (playerId me) r);
                        ToOthers s r (PlayerJoined (playerId me) (role me))])
      | None =>
          let me := {| role := freeRole (existingRoles roomPlayers);
                       playerId := choosePlayerId n f;
                       joinedAt := now |} in
          let st' := set_players <[r := <[s := me]> roomPlayers]> st1 in
          let st2 :=
            if bool_decide (length (existingRoles roomPlayers) = 1)
               && bool_decide (role me ≠ Spectator)
            then setTimeout now (moveKey r) (MoveTimeout r) (MOVE_TIMEOUT CONFIG)
                   (set_games
                      <[r := set_turnStartTime (Some now) (set_gameStatus playing g)]>
                      (clearTimeout (moveKey r) st'))
            else st' in
          ∃ g2, games st2 !! r = Some g2
                ∧ joinGame now s r n f st =
                    Some (st2, [ToSocket s (Init g2 (role me) (playerId me) r);
                                ToOthers s r (PlayerJoined (playerId me) (role me))])
      end.
Proof.
  intros Hwf Hvalid st1.
  assert (state_wf st1) as Hwf1.
  { subst st1. destruct (games st !! r); [done|].
    apply state_wf_set_expiry, state_wf_clear_expiry, state_wf_new_room, Hwf. }
  assert (is_Some (games st1 !! r)) as [g Hg].
  { subst st1. destruct (games st !! r) eqn:E; [by rewrite E|].
    simpl. by rewrite lookup_insert_eq. }
  assert (is_Some (players st1 !! r)) as [roomPlayers Hrp].
  { apply elem_of_dom. rewrite <- (wf_dom st1 Hwf1). apply elem_of_dom. by exists g. }
  exists roomPlayers, g. do 3 (split; [done|]).
  unfold joinGame. rewrite Hvalid. simpl. fold st1. rewrite Hrp.
  destruct (roomPlayers !! s) as [me|] eqn:Hme.
  - rewrite Hg, Hrp. simpl. by rewrite Hme.
  - set (me := {| role := freeRole (existingRoles roomPlayers);
                  playerId := choosePlayerId n f; joinedAt := now |}).
    set (st' := set_players <[r := <[s := me]> roomPlayers]> st1).
    change (freeRole (existingRoles roomPlayers)) with (role me).
    destruct (bool_decide (length (existingRoles roomPlayers) = 1)
              && bool_decide (role me ≠ Spectator)) eqn:Hstart.
    + replace (set_games (alter (set_gameStatus playing) r) st')
        with (set_games <[r := set_gameStatus playing g]> st').
      2:{ unfold set_games. f_equal. simpl. apply map_eq. intros r'.
          destruct (decide (r' = r)) as [->|Hne].
          - by rewrite lookup_insert_eq, lookup_alter_eq, Hg.
          - by rewrite lookup_insert_ne, lookup_alter_ne. }
      rewrite startMoveTimer_put by done.
      eexists. simpl. rewrite !lookup_insert_eq. simpl. rewrite lookup_insert_eq.
      split; done.
    + exists g. subst st'. simpl. rewrite Hg, lookup_insert_eq. simpl.
      rewrite lookup_insert_eq. split; done.
Qed.

Lemma joinGame_wf now s r n f st st' out :
  state_wf st → joinGame now s r n f st = Some (st', out) → state_wf st'.
Proof.
  intros Hwf Hjoin.
  destruct (isValidRoomId r) eqn:Hvalid.
  2:{ unfold joinGame in Hjoin. rewrite Hvalid in Hjoin. simpl in Hjoin. congruence. }
  destruct (joinGame_cases now s r n f st Hwf Hvalid)
    as (roomPlayers & g & Hwf1 & Hrp & Hg & Hcase).
  destruct (roomPlayers !! s) as [me|] eqn:Hme.
  { rewrite Hcase in Hjoin. by simplify_eq. }
  simpl in Hcase. destruct Hcase as (g2 & _ & Hcase).
  rewrite Hcase in Hjoin. simplify_eq.
  set (me := {| role := freeRole (existingRoles roomPlayers);
                playerId := choosePlayerId n f; joinedAt := now |}).
  assert (state_wf (set_players <[r := <[s := me]> roomPlayers]>
                      (match games st !! r with
                       | None => startRoomExpiryTimer now r
                                   (set_players <[r := ∅]>
                                      (set_games <[r := createGame now]> st))
                       | Some _ => st
                       end))) as Hwf'.
  { destruct (wf_roles _ Hwf1 r roomPlayers Hrp) as [HX HO].
    apply state_wf_members; [done | by exists roomPlayers | |];
      (apply held_once_insert; [done|]);
      intros Hrole%freeRole_free; by rewrite <- elem_of_existingRoles. }
  destruct (_ && _); [|done].
  apply state_wf_put_playing; [done | by exists g | | done].
  apply game_wf_turnStartTime, game_wf_status; [done|].
  by apply (wf_games _ Hwf1 r).
Qed.

Lemma joinGame_total now s r n f st : state_wf st → is_Some (joinGame now s r n f st).
Proof.
  intros Hwf. destruct (isValidRoomId r) eqn:Hvalid.
  2:{ unfold joinGame. rewrite Hvalid. simpl. by eexists. }
  destruct (joinGame_cases now s r n f st Hwf Hvalid)
    as (roomPlayers & g & _ & _ & _ & Hcase).
  destruct (roomPlayers !! s); [by rewrite Hcase|].
  destruct Hcase as (g2 & _ & ->). done.
Qed.

Lemma handle_wf ev st st' out :
  state_wf st → handle ev st = Some (st', out) → state_wf st'.
Proof.
  intros Hwf. destruct ev as [now s r n f|now s r i|now s r i|now s r|s|now key]; simpl.
  - by apply joinGame_wf.
  - intros [= Heq]. change st' with (st', out).1. rewrite <- Heq. by apply makeMove_wf.
  - intros [= Heq]. change st' with (st', out).1. rewrite <- Heq. by apply removeSymbol_wf.
  - intros [= Heq]. change st' with (st', out).1. rewrite <- Heq. by apply rematch_wf.
  - intros [= Heq]. change st' with (st', out).1. rewrite <- Heq. by apply disconnect_wf.
  - intros [= Heq]. change st' with (st', out).1. rewrite <- Heq. by apply fire_wf.
Qed.

Lemma run_wf evs : ∀ st st', state_wf st → run evs st = Some st' → state_wf st'.
Proof.
  induction evs as [|ev evs IH]; intros st st' Hwf; simpl.
  - by intros [= <-].
  - destruct (handle ev st) as [[st1 out]|] eqn:Hev; [|done].
    apply IH. by apply (handle_wf ev st st1 out).
Qed.

Lemma reachable_wf evs st : run evs initial = Some st → state_wf st.
Proof. apply run_wf, state_wf_initial. Qed.

(** No handler throws on a reachable state. *)
Lemma run_never_throws evs : ∀ st, state_wf st → is_Some (run evs st).
Proof.
  induction evs as [|ev evs IH]; intros st Hwf; simpl; [done|].
  destruct (handle ev st) as [[st1 out]|] eqn:Hev.
  - apply IH. by apply (handle_wf ev st st1 out).
  - destruct ev; simpl in Hev; try done.
    by destruct (joinGame_total now socketId roomId playerName fresh st Hwf) as [? ?];
      congruence.
Qed.

End Preservation.

(** ** Who holds X and O *)

Section Roles.
Import Hardened.










End Roles.

(** ** Forfeit by timeout *)

Section Forfeit.
Import Hardened.

Lemma onMoveTimeout_not_playing r st :
  (∀ g, games st !! r = Some g → gameStatus g ≠ playing) →
  onMoveTimeout r st = (st, []).
Proof.
  intros Hidle. unfold onMoveTimeout.
  destruct (games st !! r) as [g|]; [|done].
  by rewrite bool_decide_eq_true_2 by (by apply Hidle).
Qed.

Lemma fire_forfeit now r st g t :
  games st !! r = Some g → gameStatus g = playing →
  roomTimers st !! moveKey r
    = Some {| deadline := t; callback := MoveTimeout r |} →
  (t ≤ now)%Z →
  let w := opponent (currentPlayer g) in
  let g' := set_scores (bump w (scores g)) (finish (Win w) (winningLine g) g) in
  fire now (moveKey r) st =
    (set_games <[r := g']> (clearTimeout (moveKey r) st),
     [ToRoom r (GameOverBy w timeout (currentPlayer g)); ToRoom r (Update g')]).
Proof.
  intros Hg Hplaying Htimer Hdue. unfold fire. rewrite Htimer. simpl.
  rewrite bool_decide_eq_true_2 by done.
  unfold onMoveTimeout. simpl. rewrite Hg.
  by rewrite bool_decide_eq_false_2 by (by intros []).
Qed.

Lemma score_of_bump w q sc :
  score_of (bump w sc) q = if decide (q = w) then S (score_of sc q) else score_of sc q.
Proof. by destruct w, q. Qed.

Lemma opponent_ne p : p ≠ opponent p.
Proof. by destruct p. Qed.

(** C6.  In every reachable state, a game that is being played has its
    move timer pending, due [MOVE_TIMEOUT] after [turnStartTime], with a
    callback that holds the room identifier only.  The timer does not
    fire before it is due.  When it fires, on the state as it is then,
    the game becomes [finished], the winner is the player who is not the
    current player, the score of that player grows by exactly 1 and the
    other scores are unchanged.  The callback reads the game of the room
    from [games] when it runs, and does nothing when the room has no game
    or its game is not being played. *)
Theorem timeout_forfeit evs st r g :
  run evs initial = Some st →
  games st !! r = Some g →
  gameStatus g = playing →
  (∃ t, turnStartTime g = Some t
        ∧ roomTimers st !! moveKey r
          = Some {| deadline := t + MOVE_TIMEOUT CONFIG;
                    callback := MoveTimeout r |}
        ∧ (∀ now, (now < t + MOVE_TIMEOUT CONFIG)%Z →
                  fire now (moveKey r) st = (st, []))
        ∧ (∀ now, (t + MOVE_TIMEOUT CONFIG ≤ now)%Z →
             ∃ g', games (fire now (moveKey r) st).1 !! r = Some g'
                   ∧ gameStatus g' = finished
                   ∧ winner g' = Some (Win (opponent (currentPlayer g)))
                   ∧ score_of (scores g') (opponent (currentPlayer g))
                     = S (score_of (scores g) (opponent (currentPlayer g)))
                   ∧ score_of (scores g') (currentPlayer g)
                     = score_of (scores g) (currentPlayer g)
                   ∧ draws (scores g') = draws (scores g)
                   ∧ board g' = board g ∧ moves g' = moves g))
  ∧ (∀ st0 r0,
       (∀ g0, games st0 !! r0 = Some g0 → gameStatus g0 ≠ playing) →
       onMoveTimeout r0 st0 = (st0, [])).
Proof.
  intros Hrun Hg Hplaying.
  split; [|intros st0 r0; apply onMoveTimeout_not_playing].
  destruct (wf_armed st (reachable_wf evs st Hrun) r g Hg Hplaying)
    as (t & Hstart & Htimer).
  exists t. do 2 (split; [done|]). split.
  - intros now Hearly. unfold fire. rewrite Htimer. simpl in *.
    by rewrite bool_decide_eq_false_2 by lia.
  - intros now Hdue.
    rewrite (fire_forfeit now r st g _ Hg Hplaying Htimer Hdue). simpl.
    rewrite lookup_insert_eq. eexists. split; [done|]. simpl.
    do 2 (split; [done|]). rewrite !score_of_bump.
    rewrite decide_True by done.
    rewrite decide_False by apply opponent_ne.
    repeat split; try done. by destruct (opponent (currentPlayer g)).
Qed.

Lemma timeout_forfeit_witness :
  run two_players initial = Some (state_after two_players)
  ∧ ∃ g', games (fire 30001 (moveKey "r") (state_after two_players)).1 !! "r" = Some g'
          ∧ gameStatus g' = finished
          ∧ winner g' = Some (Win O)
          ∧ scores g' = {| sX := 0; sO := 1; draws := 0 |}.
Proof.
  split; [vm_compute; reflexivity|].
  destruct (timeout_forfeit two_players (state_after two_players) "r" _
              ltac:(vm_compute; reflexivity) ltac:(vm_compute; reflexivity)
              ltac:(vm_compute; reflexivity))
    as [(t & Hstart & Htimer & _ & Hfire) _].
  vm_compute in Hstart. injection Hstart as <-.
  destruct (Hfire 30001%Z ltac:(vm_compute; discriminate))
    as (g' & Hg' & Hst & Hw & _).
  exists g'. split; [exact Hg'|]. split; [exact Hst|]. split; [exact Hw|].
  vm_compute in Hg'. injection Hg' as <-. reflexivity.
Defined.

End Forfeit.

(** ** Removal at an index outside the board *)

Section OutOfRange.
Import Hardened.

Lemma array_get_outside (g : Game) i :
  game_wf g → (i < 0 ∨ 8 < i)%Z → array_get (board g) i = None.
Proof.
  intros [[Hlen _ _ _] _] Hout.
  destruct (array_get (board g) i) as [c|] eqn:Hget; [|done].
  apply array_get_Some_range in Hget. lia.
Qed.

(** C10.  On the hardened server, in every reachable state, a
    [removeSymbol] request whose index is below 0 or above 8 is not
    accepted and leaves the games, the members and the timers as they
    were: the board has nine cells, so reading it at that index gives no
    cell, which is not the symbol of the player; a request that passes
    the earlier checks is answered [CannotRemoveForeignSymbol].  The
    handler is a total function: it returns on every input. *)
Theorem remove_out_of_range evs st now s r i :
  run evs initial = Some st →
  (i < 0 ∨ 8 < i)%Z →
  (∀ g, games st !! r = Some g → array_get (board g) i = None)
  ∧ accepted (removeSymbol now s r i st).2 = false
  ∧ games (removeSymbol now s r i st).1 = games st
  ∧ players (removeSymbol now s r i st).1 = players st
  ∧ roomTimers (removeSymbol now s r i st).1 = roomTimers st
  ∧ (∀ g roomPlayers,
       (checkRateLimit now s st).1 = true →
       games st !! r = Some g →
       players st !! r = Some roomPlayers →
       role_of roomPlayers s = Some (Player (currentPlayer g)) →
       gameStatus g = playing →
       (removeSymbol now s r i st).2
         = [ToSocket s (Error CannotRemoveForeignSymbol)]).
Proof.
  intros Hrun Hout. pose proof (reachable_wf evs st Hrun) as Hwf.
  assert (∀ g, games st !! r = Some g → array_get (board g) i = None) as Hnone.
  { intros g Hg. apply array_get_outside; [|done]. by apply (wf_games st Hwf r). }
  split; [done|].
  assert (accepted (removeSymbol now s r i st).2 = false
          ∧ (removeSymbol now s r i st).1 = (checkRateLimit now s st).2)
    as [Hrej Hst].
  { destruct (removeSymbol_cases now s r i st)
      as [->|[[e ->]|(g & rp & p & Hg & _ & _ & _ & _ & Hown & _)]]; [done..|].
    rewrite (Hnone g Hg) in Hown. discriminate. }
  rewrite Hst. do 4 (split; [done|]).
  intros g roomPlayers Hrl Hg Hrp Hrole Hplaying.
  unfold removeSymbol. destruct (checkRateLimit now s st) as [allowed st1] eqn:E.
  assert (games st1 = games st ∧ players st1 = players st) as [Hg1 Hp1].
  { change st1 with (allowed, st1).2. rewrite <- E. done. }
  simpl in Hrl. subst allowed. simpl. rewrite Hg1, Hp1, Hg, Hrp, Hrole.
  rewrite bool_decide_eq_false_2 by (by intros []).
  rewrite bool_decide_eq_false_2 by (by intros []).
  rewrite (Hnone g Hg). by rewrite bool_decide_eq_true_2.
Qed.

Lemma remove_out_of_range_witness :
  run two_players initial = Some (state_after two_players)
  ∧ (removeSymbol 2 "a" "r" 9 (state_after two_players)).2
    = [ToSocket "a" (Error CannotRemoveForeignSymbol)]
  ∧ games (removeSymbol 2 "a" "r" 9 (state_after two_players)).1
    = games (state_after two_players).
Proof.
  split; [vm_compute; reflexivity|].
  destruct (remove_out_of_range two_players (state_after two_players)
              2%Z "a" "r" 9%Z ltac:(vm_compute; reflexivity) ltac:(lia))
    as (_ & _ & Hgames & _ & _ & Hreply).
  split; [|exact Hgames].
  eapply Hreply; vm_compute; reflexivity.
Defined.

End OutOfRange.

(** ** Counting cells *)

Section Counting.

Lemma count_cells (b : list Cell) :
  length (filter (λ c, c = Sym X) b) + length (filter (λ c, c = Sym O) b)
  + length (filter (λ c, c = Blank) b) = length b.
Proof.
  induction b as [|c b IH]; [done|].
  rewrite !filter_cons. destruct c as [|[]]; simpl in *; lia.
Qed.

Lemma count_insert (c c' : Cell) : ∀ (b : list Cell) n,
  b !! n = Some c → c' ≠ c →
  length (filter (λ x, x = c) b)
  = S (length (filter (λ x, x = c) (<[n := c']> b))).
Proof.
  induction b as [|x b IH]; intros n Hn Hne; [done|].
  destruct n as [|n]; simpl in *.
  - injection Hn as ->. rewrite !filter_cons.
    rewrite decide_True by done. by rewrite decide_False by done.
  - rewrite !filter_cons. specialize (IH n Hn Hne).
    case_decide; simpl; lia.
Qed.

Lemma count_none (c : Cell) (b : list Cell) :
  (∀ i, array_get b i ≠ Some c) → filter (λ x, x = c) b = [].
Proof.
  intros Hnone. destruct (filter _ b) as [|x l] eqn:Hf; [done|].
  assert (x ∈ filter (λ x, x = c) b) as Hin by (rewrite Hf; left).
  apply list_elem_of_filter in Hin as [-> [n Hn]%list_elem_of_lookup].
  destruct (Hnone (Z.of_nat n)). unfold array_get.
  rewrite decide_True by lia. by rewrite Nat2Z.id.
Qed.

Lemma length_moves_count (c : Cell) : ∀ (l : list Z) (b : list Cell),
  NoDup l →
  (∀ i, array_get b i = Some c ↔ i ∈ l) →
  length l = length (filter (λ x, x = c) b).
Proof.
  induction l as [|i l IH]; intros b Hnodup Hcells.
  - rewrite count_none; [done|]. intros i Hi. apply Hcells in Hi.
    by apply elem_of_nil in Hi.
  - apply NoDup_cons in Hnodup as [Hnotin Hnodup].
    assert (array_get b i = Some c) as Hi by (apply Hcells; left).
    pose proof (array_get_Some_range _ _ _ Hi) as Hrange.
    assert (∃ c', c' ≠ c) as [c' Hc'].
    { destruct c; [by exists (Sym X) | by exists Blank]. }
    simpl. rewrite (IH (array_set b i c')); [| done |].
    + unfold array_set. rewrite decide_True by lia.
      symmetry. apply count_insert; [|done].
      unfold array_get in Hi. by rewrite decide_True in Hi by lia.
    + intros j. destruct (decide (j = i)) as [->|Hji].
      * rewrite array_get_set_eq by done. split; [congruence | done].
      * rewrite array_get_set_ne by done. rewrite Hcells.
        rewrite elem_of_cons. naive_solver.
Qed.

Lemma board_wf_consistent cap b m : board_wf cap b m → consistent cap b m = true.
Proof.
  intros [Hlen Hcells Hnodup Hcap]. unfold consistent.
  apply andb_true_intro. split; [apply andb_true_intro; split|].
  - unfold cells_match_moves. apply forallb_forall. intros i _.
    apply bool_decide_eq_true. unfold non_empty, in_exactly_one.
    pose proof (Hcells i X) as HX. pose proof (Hcells i O) as HO. simpl in *.
    destruct (array_get b i) as [[|[]]|];
      repeat case_bool_decide; simpl; try done; naive_solver.
  - unfold cells_add_up. apply bool_decide_eq_true.
    rewrite (length_moves_count (Sym X) (mX m) b (Hnodup X) (λ i, Hcells i X)).
    rewrite (length_moves_count (Sym O) (mO m) b (Hnodup O) (λ i, Hcells i O)).
    by rewrite count_cells.
  - unfold within_cap. apply bool_decide_eq_true.
    split; [apply (Hcap X) | apply (Hcap O)].
Qed.

End Counting.

(** ** Board and moves stay consistent, except through [undo] *)

Section Consistency.

(** X16.  On the hardened server the invariants of the data model hold in
    every state reached by requests that carry an integer index (the
    events of the model): board and moves agree cell by cell, the counts
    add up to 9, and neither player has more than [MAX_SYMBOLS] moves. *)
Lemma hardened_consistency evs st r g :
  Hardened.run evs Hardened.initial = Some st →
  Hardened.games st !! r = Some g →
  consistent (Hardened.MAX_SYMBOLS Hardened.CONFIG)
    (Hardened.board g) (Hardened.moves g) = true.
Proof.
  intros Hrun Hg. apply board_wf_consistent.
  by destruct (wf_games st (reachable_wf evs st Hrun) r g Hg).
Qed.

Lemma hardened_consistency_witness :
  ∃ g, Hardened.games (state_after x_at_cap) !! "r" = Some g
       ∧ consistent (Hardened.MAX_SYMBOLS Hardened.CONFIG)
           (Hardened.board g) (Hardened.moves g) = true.
Proof.
  destruct (Hardened.games (state_after x_at_cap) !! "r") as [g|] eqn:Hg;
    [|vm_compute in Hg; discriminate].
  exists g. split; [reflexivity|].
  apply (hardened_consistency x_at_cap (state_after x_at_cap) "r" g);
    [vm_compute; reflexivity | exact Hg].
Defined.

Import Simple.

Lemma simple_makeMove_wf r i p st : simple_wf st → simple_wf (makeMove r i p st).1.
Proof.
  intros Hwf. unfold makeMove.
  destruct (games st !! r) as [g|] eqn:Hg; [|done].
  case_bool_decide as Hturn; [done|].
  case_bool_decide as Hcap; [done|].
  case_bool_decide as Hblank; [done|].
  apply map_Forall_insert_2; [|done]. simpl.
  apply board_wf_place; [by apply (Hwf r) | done | lia].
Qed.

Lemma simple_removeSymbol_wf r i p st :
  simple_wf st → simple_wf (removeSymbol r i p st).1.
Proof.
  intros Hwf. unfold removeSymbol.
  destruct (games st !! r) as [g|] eqn:Hg; [|done].
  case_bool_decide as Hown; [|done].
  apply map_Forall_insert_2; [|done]. simpl.
  apply board_wf_remove; [by apply (Hwf r) | done].
Qed.

Lemma simple_resetGame_wf r st : simple_wf st → simple_wf (resetGame r st).1.
Proof.
  intros Hwf. apply map_Forall_insert_2; [|done]. apply board_wf_empty.
Qed.

Lemma simple_joinGame_wf s r st st' out :
  simple_wf st → joinGame s r st = Some (st', out) → simple_wf st'.
Proof.
  intros Hwf. unfold joinGame.
  set (st1 := match games st !! r with Some _ => _ | None => _ end).
  assert (simple_wf st1) as Hwf1.
  { subst st1. destruct (games st !! r); [done|].
    apply map_Forall_insert_2; [apply board_wf_empty | done]. }
  destruct (players st1 !! r); [|done].
  destruct (games st1 !! r); [|done].
  destruct (_ !! s); [|done]. by intros [= <- _].
Qed.

(** On the minimal server joining, placing, removing and resetting keep
    the invariants of the data model. *)
Lemma simple_consistency_without_undo ev st st' out g r :
  simple_wf st →
  (∀ r', ev ≠ Undo r') →
  handle ev st = Some (st', out) →
  games st' !! r = Some g →
  consistent 3 (board g) (moves g) = true.
Proof.
  intros Hwf Hev Hhandle Hg. apply board_wf_consistent.
  assert (simple_wf st') as Hwf'; [|by apply (Hwf' r)].
  destruct ev as [s r0|r0 i p|r0 i p|r0|r0]; simpl in Hhandle.
  - by apply (simple_joinGame_wf s r0 st st' out).
  - injection Hhandle as Heq. change st' with (st', out).1. rewrite <- Heq.
    by apply simple_makeMove_wf.
  - injection Hhandle as Heq. change st' with (st', out).1. rewrite <- Heq.
    by apply simple_removeSymbol_wf.
  - by destruct (Hev r0).
  - injection Hhandle as <- _. by apply simple_resetGame_wf.
Qed.

Lemma pop_Some {A} (l : list A) x rest : pop l = Some (x, rest) → l = rest ++ [x].
Proof.
  unfold pop. destruct (reverse l) as [|y r] eqn:Hrev; [done|].
  intros [= <- <-]. rewrite <- (reverse_involutive l), Hrev. apply reverse_cons.
Qed.

Lemma simple_handle_in_range ev st st' out :
  simple_in_range st → handle ev st = Some (st', out) → simple_in_range st'.
Proof.
  intros Hok. destruct ev as [s r|r i p|r i p|r|r]; simpl.
  - unfold joinGame.
    set (st1 := match games st !! r with Some _ => _ | None => _ end).
    assert (simple_in_range st1) as Hok1.
    { subst st1. destruct (games st !! r); [done|].
      apply map_Forall_insert_2; [by split | done]. }
    destruct (players st1 !! r); [|done].
    destruct (games st1 !! r); [|done].
    destruct (_ !! s); [|done]. by intros [= <- _].
  - intros [= Heq]. change st' with (st', out).1. rewrite <- Heq.
    unfold makeMove. destruct (games st !! r) as [g|] eqn:Hg; [|done].
    repeat (case_bool_decide; [done|]).
    apply map_Forall_insert_2; [|done]. simpl. rewrite array_set_length.
    apply (Hok r g Hg).
  - intros [= Heq]. change st' with (st', out).1. rewrite <- Heq.
    unfold removeSymbol. destruct (games st !! r) as [g|] eqn:Hg; [|done].
    case_bool_decide as Hown; [|done].
    destruct (Hok r g Hg) as [Hlen Hstack].
    apply map_Forall_insert_2; [|done]. simpl. rewrite array_set_length.
    split; [done|]. apply Forall_app. split; [done|].
    apply Forall_singleton. simpl.
    apply array_get_Some_range in Hown. lia.
  - intros [= Heq]. change st' with (st', out).1. rewrite <- Heq.
    unfold undo. destruct (games st !! r) as [g|] eqn:Hg; [|done].
    destruct (pop (removedStack g)) as [[[p i] rest]|] eqn:Hpop; [|done].
    destruct (Hok r g Hg) as [Hlen Hstack].
    apply map_Forall_insert_2; [|done]. simpl. rewrite array_set_length.
    split; [done|]. apply pop_Some in Hpop. rewrite Hpop in Hstack.
    by apply Forall_app in Hstack as [? _].
  - intros [= <- _]. apply map_Forall_insert_2; [by split | done].
Qed.

(** In every reachable state of the minimal server the boards have nine
    cells and [undo] writes inside the board. *)
Lemma simple_writes_in_range evs : ∀ st st',
  simple_in_range st → run evs st = Some st' → simple_in_range st'.
Proof.
  induction evs as [|ev evs IH]; intros st st' Hok; simpl.
  - by intros [= <-].
  - destruct (handle ev st) as [[st1 out]|] eqn:Hev; [|done].
    apply IH. by apply (simple_handle_in_range ev st st1 out).
Qed.

(** C1 fails on the minimal server.  After the run [before_undo] the
    board and the moves are consistent; [undo] is accepted and puts X
    back on cell 0, which O has taken since: cell 0 is then in the moves
    of both players, the counts add up to 10, and X has four moves. *)
Theorem undo_breaks_consistency :
  run before_undo initial = Some (simple_state_after before_undo)
  ∧ ∃ g g',
      games (simple_state_after before_undo) !! "r" = Some g
      ∧ consistent 3 (board g) (moves g) = true
      ∧ simple_accepted (undo "r" (simple_state_after before_undo)).2 = true
      ∧ games (undo "r" (simple_state_after before_undo)).1 !! "r" = Some g'
      ∧ board g' = [Sym X; Sym O; Sym X; Sym O; Sym X; Sym X; Blank; Blank; Blank]
      ∧ moves g' = {| mX := [2; 4; 5; 0]; mO := [1; 3; 0] |}%Z
      ∧ cells_match_moves (board g') (moves g') = false
      ∧ cells_add_up (board g') (moves g') = false
      ∧ within_cap 3 (moves g') = false.
Proof.
  split; [vm_compute; reflexivity|].
  eexists _, _. split; [vm_compute; reflexivity|].
  split; [vm_compute; reflexivity|].
  split; [vm_compute; reflexivity|].
  split; [vm_compute; reflexivity|].
  repeat split; vm_compute; reflexivity.
Qed.

End Consistency.

(** ** Status and winner *)

Section StatusWinner.
Import Hardened.

(** The two boards of the specification's examples. *)
Lemma checkWinner_first_row :
  checkWinner [Sym X; Sym X; Sym X; Blank; Blank; Blank; Blank; Blank; Blank]
  = Some {| res_winner := Win X; res_line := Some (0, 1, 2)%Z |}.
Proof. reflexivity. Qed.

Lemma checkWinner_full_board :
  checkWinner [Sym X; Sym O; Sym X; Sym X; Sym O; Sym O; Sym O; Sym X; Sym X]
  = Some {| res_winner := Draw; res_line := None |}.
Proof. reflexivity. Qed.

Lemma first_line_win b ls result :
  first_line b ls = Some result → ∃ m, res_winner result = Win m.
Proof.
  induction ls as [|l ls IH]; simpl; [done|].
  destruct (line_owner b l) as [m|]; [|done].
  intros [= <-]. by exists m.
Qed.

(** With at most three symbols per player the board is never full: no
    placement on a well-formed board ends in a draw. *)
Lemma no_draw_under_cap b m result :
  board_wf 3 b m → checkWinner b = Some result → res_winner result ≠ Draw.
Proof.
  intros Hwf. pose proof (board_wf_consistent 3 b m Hwf) as Hcons.
  destruct Hwf as [Hlen Hcells Hnodup Hcap].
  unfold consistent in Hcons.
  apply andb_prop in Hcons as [[_ Hsum]%andb_prop _].
  unfold cells_add_up in Hsum. apply bool_decide_eq_true in Hsum.
  pose proof (Hcap X) as HcX. pose proof (Hcap O) as HcO. simpl in *.
  unfold checkWinner.
  destruct (first_line b lines) as [r|] eqn:Hline.
  - intros [= <-]. by destruct (first_line_win b lines r Hline) as [w ->].
  - destruct (forallb _ b) eqn:Hfull; [|done].
    assert (filter (λ c, c = Blank) b = []) as Hnone; [|rewrite Hnone in Hsum; simpl in Hsum; lia].
    destruct (filter _ b) as [|c l] eqn:Hf; [done|].
    assert (c ∈ filter (λ c, c = Blank) b) as Hin by (rewrite Hf; left).
    apply list_elem_of_filter in Hin as [-> Hin].
    rewrite forallb_forall in Hfull.
    specialize (Hfull Blank (proj1 (list_elem_of_In _ _) Hin)).
    by apply bool_decide_eq_true in Hfull.
Qed.

(** X17.  In every reachable state a finished game has a winner. *)
Lemma finished_has_winner evs st r g :
  run evs initial = Some st → games st !! r = Some g →
  gameStatus g = finished → winner g ≠ None.
Proof.
  intros Hrun Hg.
  by destruct (wf_games st (reachable_wf evs st Hrun) r g Hg).
Qed.

Lemma finished_has_winner_witness :
  ∃ g, games (state_after x_wins) !! "r" = Some g
       ∧ gameStatus g = finished ∧ winner g ≠ None.
Proof.
  destruct (games (state_after x_wins) !! "r") as [g|] eqn:Hg;
    [|vm_compute in Hg; discriminate].
  exists g. split; [reflexivity|].
  assert (gameStatus g = finished) as Hfin.
  { vm_compute in Hg. injection Hg as <-. reflexivity. }
  split; [exact Hfin|].
  apply (finished_has_winner x_wins (state_after x_wins) "r" g);
    [vm_compute; reflexivity | exact Hg | exact Hfin].
Defined.

(** C3 fails.  X completes the first row: the game is finished and X
    has won.  Then the connection that holds O disconnects: the handler
    sets the status to [waiting] and leaves the winner in place. *)
Theorem disconnect_after_win :
  run (x_wins ++ [Disconnect "b"]) initial
    = Some (state_after (x_wins ++ [Disconnect "b"]))
  ∧ ∃ g g',
      games (state_after x_wins) !! "r" = Some g
      ∧ gameStatus g = finished ∧ winner g = Some (Win X)
      ∧ games (state_after (x_wins ++ [Disconnect "b"])) !! "r" = Some g'
      ∧ gameStatus g' = waiting ∧ winner g' = Some (Win X).
Proof.
  split; [vm_compute; reflexivity|].
  eexists _, _. split; [vm_compute; reflexivity|].
  split; [reflexivity|]. split; [reflexivity|].
  split; [vm_compute; reflexivity|].
  split; reflexivity.
Qed.

(** When another connection then joins, the game is played again with
    the old winner still in place. *)
Lemma rejoin_after_win :
  ∃ g,
    games (state_after (x_wins ++ [Disconnect "b"; JoinGame 9 "c" "r" None "idc"]))
      !! "r" = Some g
    ∧ gameStatus g = playing ∧ winner g = Some (Win X).
Proof.
  eexists. split; [vm_compute; reflexivity|]. split; reflexivity.
Qed.

End StatusWinner.

(** ** Rooms do not interfere *)

Section Views.
Import Hardened Rooms.
#[local] Arguments checkRateLimit : simpl never.
#[local] Arguments startMoveTimer : simpl never.

Lemma keys_apart r r0 :
  r ≠ r0 →
  moveKey r0 ≠ moveKey r ∧ expiryKey r0 ≠ expiryKey r
  ∧ moveKey r0 ≠ expiryKey r ∧ expiryKey r0 ≠ moveKey r.
Proof.
  intros Hne. repeat split.
  - by intros ?%moveKey_inj.
  - by intros ?%expiryKey_inj.
  - apply moveKey_expiryKey.
  - intros Heq. symmetry in Heq. by apply moveKey_expiryKey in Heq.
Qed.

Lemma keys_of_room r : moveKey r ≠ expiryKey r ∧ expiryKey r ≠ moveKey r.
Proof.
  split; [apply moveKey_expiryKey|].
  intros Heq. symmetry in Heq. by apply moveKey_expiryKey in Heq.
Qed.

Lemma room_view_rateLimits f st r :
  room_view (set_rateLimits f st) r = room_view st r.
Proof. done. Qed.

Lemma makeMove_view now s r0 i st r :
  room_step r (MakeMove now s r0 i) (room_view st r)
    (room_view (makeMove now s r0 i st).1 r).
Proof.
  destruct (makeMove_cases now s r0 i st)
    as [[e ->]|(g & rp & p & Hg & Hrp & Hrole & Hst & Hcur & Hcap & Hidx & Hblank & _ & Hres)];
    [apply step_none|].
  subst p. simpl in Hres.
  destruct (decide (r = r0)) as [->|Hne].
  - destruct (keys_of_room r0) as [K1 K2].
    destruct (checkWinner _) as [result|] eqn:Hwin; rewrite Hres;
      unfold room_view; simpl; rewrite Hg, Hrp.
    + rewrite !lookup_insert_eq, lookup_delete_eq, lookup_delete_ne by done.
      by apply step_won.
    + rewrite !lookup_insert_eq, lookup_insert_ne, lookup_delete_ne by done.
      by apply step_placed.
  - destruct (keys_apart r r0 Hne) as (K1 & K2 & K3 & K4).
    destruct (checkWinner _) as [result|]; rewrite Hres;
      unfold room_view; simpl.
    + rewrite lookup_insert_ne, !lookup_delete_ne by done. apply step_none.
    + rewrite lookup_insert_ne, !lookup_insert_ne, !lookup_delete_ne by done.
      apply step_none.
Qed.

Lemma removeSymbol_view now s r0 i st r :
  room_step r (RemoveSymbol now s r0 i) (room_view st r)
    (room_view (removeSymbol now s r0 i st).1 r).
Proof.
  destruct (removeSymbol_cases now s r0 i st)
    as [->|[[e ->]|(g & rp & p & Hg & Hrp & Hrole & Hst & Hcur & Hown & _ & ->)]];
    [apply step_none..|].
  subst p. unfold room_view. simpl.
  destruct (decide (r = r0)) as [->|Hne].
  - destruct (keys_of_room r0) as [K1 K2]. rewrite Hg, Hrp.
    rewrite !lookup_insert_eq, lookup_insert_ne, lookup_delete_ne by done.
    by apply step_removed.
  - destruct (keys_apart r r0 Hne) as (K1 & K2 & K3 & K4).
    rewrite !lookup_insert_ne, !lookup_delete_ne by done. apply step_none.
Qed.

Lemma rematch_view now s r0 st r :
  room_step r (Rematch now s r0) (room_view st r)
    (room_view (rematch now s r0 st).1 r).
Proof.
  unfold rematch.
  destruct (games st !! r0) as [g|] eqn:Hg; [|apply step_none].
  destruct (players st !! r0) as [rp|] eqn:Hrp; [|apply step_none].
  destruct (role_of rp s) as [[p|]|] eqn:Hrole; [|apply step_none..].
  simpl. rewrite startMoveTimer_put by done.
  unfold room_view. simpl.
  destruct (decide (r = r0)) as [->|Hne].
  - destruct (keys_of_room r0) as [K1 K2]. rewrite Hg, Hrp.
    rewrite !lookup_insert_eq, lookup_insert_ne, lookup_delete_ne by done.
    by apply (step_rematch r0 now s g rp p).
  - destruct (keys_apart r r0 Hne) as (K1 & K2 & K3 & K4).
    rewrite !lookup_insert_ne, !lookup_delete_ne by done. apply step_none.
Qed.

Lemma fire_view now key st r :
  state_wf st →
  room_step r (Fire now key) (room_view st r) (room_view (fire now key st).1 r).
Proof.
  intros Hwf. unfold fire.
  destruct (roomTimers st !! key) as [t|] eqn:Hk; [|apply step_none].
  case_bool_decide as Hdue; [|apply step_none].
  destruct (wf_timers st Hwf key t Hk) as [(r0 & -> & Hcb)|(r0 & -> & Hcb)];
    rewrite Hcb; simpl.
  - unfold onMoveTimeout. simpl.
    destruct (decide (r = r0)) as [->|Hne].
    + destruct (keys_of_room r0) as [K1 K2].
      destruct (games st !! r0) as [g|] eqn:Hg.
      * case_bool_decide as Hst; unfold room_view; simpl; rewrite Hg, Hk.
        -- rewrite lookup_delete_eq, lookup_delete_ne by done.
           apply step_move_fired; [|done]. by intros game [= <-].
        -- rewrite lookup_insert_eq, lookup_delete_eq, lookup_delete_ne by done.
           by apply step_forfeit.
      * unfold room_view; simpl; rewrite Hg, Hk.
        rewrite lookup_delete_eq, lookup_delete_ne by done.
        by apply step_move_fired.
    + destruct (keys_apart r r0 Hne) as (K1 & K2 & K3 & K4).
      destruct (games st !! r0) as [g|] eqn:Hg.
      * case_bool_decide as Hst; unfold room_view; simpl.
        -- rewrite !lookup_delete_ne by done. apply step_none.
        -- rewrite lookup_insert_ne, !lookup_delete_ne by done. apply step_none.
      * unfold room_view; simpl. rewrite !lookup_delete_ne by done. apply step_none.
  - unfold room_view. simpl.
    destruct (decide (r = r0)) as [->|Hne].
    + rewrite !lookup_delete_eq, Hk.
      destruct (keys_of_room r0) as [K1 K2].
      rewrite lookup_delete_ne, lookup_delete_eq by done.
      by apply step_expired.
    + destruct (keys_apart r r0 Hne) as (K1 & K2 & K3 & K4).
      rewrite !lookup_delete_ne by done. apply step_none.
Qed.

Lemma leaveRoom_view s r acc :
  room_view (leaveRoom s r acc).1 r = leave_view s (room_view acc.1 r).
Proof.
  destruct acc as [st out]. unfold room_view, leave_view. simpl.
  destruct (keys_of_room r) as [K1 K2].
  destruct (players st !! r) as [rp|] eqn:Hrp; simpl; [|by rewrite Hrp].
  destruct (rp !! s) as [me|] eqn:Hme; simpl; [|by rewrite Hrp].
  case_bool_decide; simpl.
  - rewrite !lookup_delete_eq. by rewrite lookup_delete_ne, lookup_delete_eq by done.
  - case_bool_decide; simpl.
    + destruct (games st !! r) as [g|] eqn:Hg; simpl.
      * rewrite !lookup_insert_eq, lookup_delete_eq. by rewrite lookup_delete_ne by done.
      * by rewrite Hg, lookup_insert_eq.
    + by rewrite lookup_insert_eq.
Qed.

Lemma leaveRoom_view_other s r0 acc r :
  r ≠ r0 → room_view (leaveRoom s r0 acc).1 r = room_view acc.1 r.
Proof.
  intros Hne. destruct acc as [st out]. unfold room_view. simpl.
  destruct (keys_apart r r0 Hne) as (K1 & K2 & K3 & K4).
  destruct (players st !! r0) as [rp|] eqn:Hrp; simpl; [|done].
  destruct (rp !! s) as [me|] eqn:Hme; simpl; [|done].
  case_bool_decide; simpl.
  - by rewrite !lookup_delete_ne, lookup_insert_ne by done.
  - case_bool_decide; simpl.
    + destruct (games st !! r0) as [g|] eqn:Hg; simpl.
      * by rewrite !lookup_insert_ne, !lookup_delete_ne by done.
      * by rewrite lookup_insert_ne by done.
    + by rewrite lookup_insert_ne by done.
Qed.

Lemma leave_rooms_view s r rooms : ∀ acc,
  NoDup rooms →
  room_view (foldl (λ acc r0, leaveRoom s r0 acc) acc rooms).1 r =
    if bool_decide (r ∈ rooms) then leave_view s (room_view acc.1 r)
    else room_view acc.1 r.
Proof.
  induction rooms as [|r0 rooms IH]; intros acc Hnodup; [done|].
  apply NoDup_cons in Hnodup as [Hnotin Hnodup]. simpl.
  rewrite IH by done.
  destruct (decide (r = r0)) as [->|Hne].
  - rewrite bool_decide_eq_false_2 by done.
    rewrite bool_decide_eq_true_2 by left. apply leaveRoom_view.
  - rewrite leaveRoom_view_other by done.
    rewrite (bool_decide_ext (r ∈ r0 :: rooms) (r ∈ rooms)); [done|].
    rewrite elem_of_cons. naive_solver.
Qed.

Lemma leave_view_absent s g mt et : leave_view s (g, None, mt, et) = (g, None, mt, et).
Proof. done. Qed.

Lemma disconnect_view s st r :
  room_view (disconnect s st).1 r = leave_view s (room_view st r).
Proof.
  unfold disconnect.
  pose proof (leave_rooms_view s r (map_to_list (players st)).*1 (st, [])
                (NoDup_fst_map_to_list _)) as Hfold.
  destruct (foldl _ _ _) as [st' out]. simpl in *.
  rewrite room_view_rateLimits, Hfold.
  case_bool_decide as Hin; [done|].
  assert (players st !! r = None) as Hnone.
  { apply eq_None_not_Some. intros [rp Hrp]. apply Hin.
    apply list_elem_of_fmap. exists (r, rp). split; [done|].
    by apply elem_of_map_to_list. }
  unfold room_view. by rewrite Hnone.
Qed.

Lemma existingRoles_empty : existingRoles ∅ = [].
Proof. unfold existingRoles. by rewrite map_to_list_empty. Qed.

Lemma joinGame_view now s r0 n f st st' out r :
  state_wf st →
  joinGame now s r0 n f st = Some (st', out) →
  room_step r (JoinGame now s r0 n f) (room_view st r) (room_view st' r).
Proof.
  intros Hwf Hjoin.
  destruct (isValidRoomId r0) eqn:Hvalid.
  2:{ unfold joinGame in Hjoin. rewrite Hvalid in Hjoin. simpl in Hjoin.
      injection Hjoin as <- _. apply step_none. }
  destruct (joinGame_cases now s r0 n f st Hwf Hvalid)
    as (rp & g & _ & Hrp & Hg & Hcase).
  destruct (games st !! r0) as [g0|] eqn:Hg0.
  - (* the room exists *)
    assert (g0 = g) as -> by congruence.
    destruct (rp !! s) as [me|] eqn:Hme.
    { rewrite Hcase in Hjoin. injection Hjoin as <- _. apply step_none. }
    simpl in Hcase. destruct Hcase as (g2 & _ & Hcase).
    rewrite Hcase in Hjoin. injection Hjoin as <- _.
    destruct (decide (r = r0)) as [->|Hne].
    + destruct (keys_of_room r0) as [K1 K2].
      destruct (bool_decide (length (existingRoles rp) = 1)) eqn:Hlen;
        destruct (bool_decide (freeRole (existingRoles rp) ≠ Spectator)) eqn:Hfree;
        simpl; unfold room_view; simpl; rewrite Hg0, Hrp.
      * apply bool_decide_eq_true in Hlen, Hfree.
        rewrite !lookup_insert_eq, lookup_insert_ne, lookup_delete_ne by done.
        by apply step_joined_start.
      * apply bool_decide_eq_false in Hfree. rewrite lookup_insert_eq.
        apply step_joined; [done | tauto].
      * apply bool_decide_eq_false in Hlen. rewrite lookup_insert_eq.
        apply step_joined; [done | tauto].
      * apply bool_decide_eq_false in Hlen. rewrite lookup_insert_eq.
        apply step_joined; [done | tauto].
    + destruct (keys_apart r r0 Hne) as (K1 & K2 & K3 & K4).
      destruct (_ && _); unfold room_view; simpl.
      * rewrite !lookup_insert_ne, !lookup_delete_ne by done. apply step_none.
      * rewrite !lookup_insert_ne by done. apply step_none.
  - (* the room is created *)
    simpl in Hrp, Hg. rewrite lookup_insert_eq in Hrp. rewrite lookup_insert_eq in Hg.
    injection Hrp as <-. injection Hg as <-.
    rewrite lookup_empty in Hcase. simpl in Hcase.
    rewrite existingRoles_empty in Hcase. simpl in Hcase.
    destruct Hcase as (g2 & _ & Hcase).
    rewrite Hcase in Hjoin. injection Hjoin as <- _.
    unfold room_view. simpl.
    destruct (decide (r = r0)) as [->|Hne].
    + destruct (keys_of_room r0) as [K1 K2]. rewrite Hg0.
      rewrite !lookup_insert_eq, lookup_insert_ne, lookup_delete_ne by done.
      rewrite insert_empty, <- existingRoles_empty.
      by apply (step_created r0 now s n f).
    + destruct (keys_apart r r0 Hne) as (K1 & K2 & K3 & K4).
      rewrite !lookup_insert_ne, !lookup_delete_ne by done. apply step_none.
Qed.

(** Every event changes every room by one [room_step]. *)
Lemma handle_view ev st st' out r :
  state_wf st →
  handle ev st = Some (st', out) →
  room_step r ev (room_view st r) (room_view st' r).
Proof.
  intros Hwf.
  destruct ev as [now s r0 n f|now s r0 i|now s r0 i|now s r0|s|now key]; simpl.
  - by apply joinGame_view.
  - intros [= Heq]. change st' with (st', out).1. rewrite <- Heq. apply makeMove_view.
  - intros [= Heq]. change st' with (st', out).1. rewrite <- Heq. apply removeSymbol_view.
  - intros [= Heq]. change st' with (st', out).1. rewrite <- Heq. apply rematch_view.
  - intros [= Heq]. change st' with (st', out).1. rewrite <- Heq.
    rewrite disconnect_view. apply step_left.
  - intros [= Heq]. change st' with (st', out).1. rewrite <- Heq. by apply fire_view.
Qed.

End Views.

(** ** What holds of every room in every reachable state *)

Section Reachable.
Import Hardened Rooms.
#[local] Arguments leave_view : simpl never.

Lemma room_view_initial r : room_view initial r = (None, None, None, None).
Proof. unfold room_view. simpl. by rewrite !lookup_empty. Qed.

(** Induction over runs, one room at a time. *)
Lemma reachable_view_ind (I : string → View → Prop) :
  (∀ r, I r (None, None, None, None)) →
  (∀ r ev st g rp mt et v',
     state_wf st → room_view st r = (g, rp, mt, et) →
     I r (g, rp, mt, et) → room_step r ev (g, rp, mt, et) v' → I r v') →
  ∀ evs st r, run evs initial = Some st → I r (room_view st r).
Proof.
  intros Hinit Hstep.
  assert (∀ evs st st', state_wf st → (∀ r, I r (room_view st r)) →
            run evs st = Some st' → ∀ r, I r (room_view st' r)) as Hrun.
  { induction evs as [|ev evs IH]; intros st st' Hwf HI; simpl.
    - by intros [= <-].
    - destruct (handle ev st) as [[st1 out]|] eqn:Hev; [|done].
      apply IH; [by apply (handle_wf ev st st1 out)|].
      intros r. pose proof (handle_view ev st st1 out r Hwf Hev) as Hview.
      specialize (HI r).
      destruct (room_view st r) as [[[g rp] mt] et] eqn:Hv.
      by apply (Hstep r ev st g rp mt et). }
  intros evs st r Hreach.
  apply (Hrun evs initial st state_wf_initial); [|done].
  intros r'. rewrite room_view_initial. apply Hinit.
Qed.

Lemma leave_view_cases s g rp mt et :
  leave_view s (g, rp, mt, et) = (g, rp, mt, et)
  ∨ (∃ roomPlayers me, rp = Some roomPlayers ∧ roomPlayers !! s = Some me
       ∧ (size (delete s roomPlayers) = 0
            ∧ leave_view s (g, rp, mt, et) = (None, None, None, None)
          ∨ size (delete s roomPlayers) ≠ 0
            ∧ (role me ≠ Spectator
                 ∧ (∃ game, g = Some game
                      ∧ leave_view s (g, rp, mt, et)
                        = (Some (set_gameStatus waiting game),
                           Some (delete s roomPlayers), None, et))
               ∨ leave_view s (g, rp, mt, et)
                 = (g, Some (delete s roomPlayers), mt, et)))).
Proof.
  unfold leave_view. destruct rp as [roomPlayers|]; [|by left].
  destruct (roomPlayers !! s) as [me|] eqn:Hme; [|by left].
  right. exists roomPlayers, me. do 2 (split; [done|]).
  case_bool_decide; [by left|]. right. split; [done|].
  case_bool_decide; [|by right].
  destruct g as [game|]; [|by right].
  left. split; [done|]. by exists game.
Qed.

End Reachable.

Ltac step_inv H :=
  inversion H; subst;
  unfold Rooms.started, Rooms.next_turn, Rooms.placed, Rooms.removed,
    Rooms.rematch_game, Rooms.forfeited in *;
  simpl.

Ltac left_cases :=
  match goal with
  | |- context [Rooms.leave_view ?s (?g, ?rp, ?mt, ?et)] =>
      destruct (leave_view_cases s g rp mt et)
        as [->|(roomPlayers & me & -> & Hme &
                [[Hsize ->]|[Hsize [[Hactive (game & -> & ->)]| ->]]])]
  end.

Section Invariants.
Import Hardened Rooms.
#[local] Arguments leave_view : simpl never.

(** X3.  On the hardened server no game of a reachable state has ended in
    a draw: with at most three symbols per player the board is never full,
    so the draw branch of [checkWinner] is never taken by [makeMove], the
    winner is never ["draw"] and the count of draws stays 0. *)
Theorem draw_never_reached evs st r g :
  run evs initial = Some st → games st !! r = Some g →
  winner g ≠ Some Draw ∧ draws (scores g) = 0.
Proof.
  intros Hrun. revert g.
  refine (reachable_view_ind
    (λ _ v, ∀ g, v.1.1.1 = Some g → winner g ≠ Some Draw ∧ draws (scores g) = 0)
    _ _ evs st r Hrun); [intros ? ? H; by simpl in H|].
  clear. intros r ev st g rp mt et v' Hwf Hv IH Hstep. simpl in IH.
  assert (∀ game, g = Some game → game_wf game) as Hgwf.
  { intros game ->. apply (wf_games st Hwf r). by injection Hv as -> _ _ _. }
  assert (∀ game, g = Some game →
            winner game ≠ Some Draw ∧ draws (scores game) = 0) as IH' by done.
  step_inv Hstep; try (intros ? [= <-]; simpl); try done; try (by apply IH').
  - destruct (IH' g0 eq_refl) as [Hw Hd].
    destruct (Hgwf g0 eq_refl) as [Hb _].
    assert (res_winner result ≠ Draw) as Hres.
    { eapply (no_draw_under_cap _ _ result); [|done].
      by apply board_wf_place. }
    unfold conclude. destruct (res_winner result) as [w|]; [|done].
    simpl. split; [done|]. by destruct w.
  - by destruct (IH' g0 eq_refl) as [Hw Hd].
  - destruct (IH' g0 eq_refl) as [Hw Hd].
    split; [done|]. by destruct (opponent (currentPlayer g0)).
  - left_cases; simpl; try done; intros ? Heq; simplify_eq; simpl; by apply IH'.
Qed.

Lemma draw_never_reached_witness :
  ∃ g, games (state_after x_wins) !! "r" = Some g
       ∧ winner g ≠ Some Draw ∧ draws (scores g) = 0.
Proof.
  destruct (games (state_after x_wins) !! "r") as [g|] eqn:Hg;
    [|vm_compute in Hg; discriminate].
  exists g. split; [reflexivity|].
  apply (draw_never_reached x_wins (state_after x_wins) "r" g);
    [vm_compute; reflexivity | exact Hg].
Defined.

(** X4.  On the hardened server a room exists only under an identifier
    that [isValidRoomId] accepts: [joinGame] is the only handler that
    creates a room, and it validates first. *)
Theorem rooms_have_valid_ids evs st r g :
  run evs initial = Some st → games st !! r = Some g → isValidRoomId r = true.
Proof.
  intros Hrun Hg.
  refine (reachable_view_ind (λ r v, is_Some v.1.1.1 → isValidRoomId r = true)
            _ _ evs st r Hrun _); [by intros ? [? ?]| |by exists g].
  clear. intros r ev st g rp mt et v' Hwf Hv IH Hstep. simpl in IH.
  step_inv Hstep; try done; try (intros _; apply IH; by eexists).
  left_cases; simpl; try done.
  intros _. apply IH. by eexists.
Qed.

Lemma rooms_have_valid_ids_witness : isValidRoomId "r" = true.
Proof.
  destruct (games (state_after two_players) !! "r") as [g|] eqn:Hg;
    [|vm_compute in Hg; discriminate].
  apply (rooms_have_valid_ids two_players (state_after two_players) "r" g);
    [vm_compute; reflexivity | exact Hg].
Defined.

(** X6.  On the hardened server every room of a reachable state has a
    game and at least one member: a room is created together with its
    first member and destroyed when its last member disconnects. *)
Theorem rooms_are_inhabited evs st r roomPlayers :
  run evs initial = Some st → players st !! r = Some roomPlayers →
  roomPlayers ≠ ∅ ∧ is_Some (games st !! r).
Proof.
  intros Hrun Hrp. split.
  - revert roomPlayers Hrp.
    refine (reachable_view_ind (λ _ v, ∀ rp, v.1.1.2 = Some rp → rp ≠ ∅)
              _ _ evs st r Hrun); [intros ? ? H; by simpl in H|].
    clear. intros r ev st g rp mt et v' Hwf Hv IH Hstep. simpl in IH.
    step_inv Hstep; try done;
      try (intros ? [= <-]; first [apply insert_non_empty | by apply IH]).
    left_cases; simpl; try done;
      intros ? [= <-]; by intros ?%map_size_empty_iff.
  - apply elem_of_dom. rewrite (wf_dom st (reachable_wf evs st Hrun)).
    apply elem_of_dom. by eexists.
Qed.

Lemma rooms_are_inhabited_witness :
  ∃ roomPlayers, players (state_after two_players) !! "r" = Some roomPlayers
                 ∧ roomPlayers ≠ ∅
                 ∧ is_Some (games (state_after two_players) !! "r").
Proof.
  destruct (players (state_after two_players) !! "r") as [roomPlayers|] eqn:Hrp;
    [|vm_compute in Hrp; discriminate].
  exists roomPlayers. split; [reflexivity|].
  apply (rooms_are_inhabited two_players (state_after two_players) "r" roomPlayers);
    [vm_compute; reflexivity | exact Hrp].
Defined.

(** X10.  On the hardened server a pending move timer always belongs to
    a room whose game is being played: a win, a forfeit, a pause and the
    destruction of the room all leave no move timer behind, so the status
    test of the timer callback never fails on a reachable state. *)
Theorem move_timer_means_playing evs st r t :
  run evs initial = Some st → roomTimers st !! moveKey r = Some t →
  ∃ g, games st !! r = Some g ∧ gameStatus g = playing.
Proof.
  intros Hrun. revert t.
  refine (reachable_view_ind
            (λ _ v, ∀ t, v.1.2 = Some t →
                         ∃ g, v.1.1.1 = Some g ∧ gameStatus g = playing)
            _ _ evs st r Hrun); [intros ? ? H; by simpl in H|].
  clear. intros r ev st g rp mt et v' Hwf Hv IH Hstep. simpl in IH.
  step_inv Hstep; try done; try (intros ? _; by eexists).
  - intros t Ht. by destruct (IH t Ht) as (? & [=] & _).
  - left_cases; simpl; try done.
Qed.

Lemma move_timer_means_playing_witness :
  ∃ g, games (state_after x_at_cap) !! "r" = Some g ∧ gameStatus g = playing.
Proof.
  destruct (roomTimers (state_after x_at_cap) !! moveKey "r") as [t|] eqn:Ht;
    [|vm_compute in Ht; discriminate].
  apply (move_timer_means_playing x_at_cap (state_after x_at_cap) "r" t);
    [vm_compute; reflexivity | exact Ht].
Defined.

(** No event moves the expiry timer of a room that it leaves in place. *)
Lemma expiry_kept ev st st' out r :
  state_wf st → handle ev st = Some (st', out) →
  is_Some (games st !! r) → is_Some (games st' !! r) →
  roomTimers st' !! expiryKey r = roomTimers st !! expiryKey r.
Proof.
  intros Hwf Hev Hbefore Hafter.
  pose proof (handle_view ev st st' out r Hwf Hev) as Hstep.
  unfold room_view in Hstep.
  destruct Hbefore as [g Hg]. destruct Hafter as [g' Hg'].
  rewrite Hg, Hg' in Hstep.
  remember (roomTimers st' !! expiryKey r) as et' eqn:Het'.
  remember (roomTimers st !! expiryKey r) as et eqn:Het.
  clear Het Het'.
  inversion Hstep; subst; try done.
  match goal with
  | H : leave_view ?s ?v = _ |- _ =>
      unfold leave_view in H; repeat case_match; simplify_eq; done
  end.
Qed.

(** Only [joinGame] creates a room, and it sets the expiry timer
    [ROOM_EXPIRY] after the time of the request. *)
Lemma expiry_set ev st st' out r :
  state_wf st → handle ev st = Some (st', out) →
  games st !! r = None → is_Some (games st' !! r) →
  (∃ now s n f, ev = JoinGame now s r n f
                ∧ roomTimers st' !! expiryKey r = Some (expiryTimer now r)).
Proof.
  intros Hwf Hev Hbefore [g' Hg'].
  pose proof (handle_view ev st st' out r Hwf Hev) as Hstep.
  unfold room_view in Hstep. rewrite Hbefore, Hg' in Hstep.
  remember (roomTimers st' !! expiryKey r) as et' eqn:Het'.
  clear Het'.
  inversion Hstep; subst; try done.
  - by exists now, s, n, f.
  - match goal with
    | H : leave_view ?s ?v = _ |- _ =>
        unfold leave_view in H; repeat case_match; simplify_eq
    end.
Qed.

Lemma expiry_stays r evs : ∀ st st' t,
  state_wf st →
  is_Some (games st !! r) →
  roomTimers st !! expiryKey r = Some t →
  run evs st = Some st' →
  stays r evs st = true →
  roomTimers st' !! expiryKey r = Some t.
Proof.
  induction evs as [|ev evs IH]; intros st st' t Hwf Hg Ht; simpl.
  - by intros [= <-].
  - destruct (handle ev st) as [[st1 out]|] eqn:Hev; [|done].
    intros Hrun [Hg1%bool_decide_eq_true Hstays]%andb_prop.
    apply (IH st1 st' t); [by apply (handle_wf ev st st1 out) | done | | done | done].
    by rewrite (expiry_kept ev st st1 out r).
Qed.

(** A room exists exactly when its expiry timer is pending. *)
Lemma expiry_pending_iff evs st r :
  run evs initial = Some st →
  is_Some (games st !! r) ↔ is_Some (roomTimers st !! expiryKey r).
Proof.
  intros Hrun.
  refine (reachable_view_ind (λ _ v, is_Some v.1.1.1 ↔ is_Some v.2)
            _ _ evs st r Hrun).
  { intros _. simpl. split; by intros [? ?]. }
  clear. intros r ev st g rp mt et v' Hwf Hv IH Hstep. simpl in IH.
  step_inv Hstep; try done;
    try (by split; intros _; eexists);
    try (by split; [intros _; apply IH; eexists | intros _; eexists]).
  left_cases; simpl; try done;
    try (by split; [intros _; apply IH; eexists | intros _; eexists]).
Qed.

Lemma run_app evs1 : ∀ evs2 st st1 st2,
  run evs1 st = Some st1 → run evs2 st1 = Some st2 →
  run (evs1 ++ evs2) st = Some st2.
Proof.
  induction evs1 as [|ev evs1 IH]; intros evs2 st st1 st2; simpl.
  - by intros [= <-].
  - destruct (handle ev st) as [[st' out]|]; [|done]. apply IH.
Qed.

(** X11.  On the hardened server the expiry of a room is fixed when the
    room is created.  When a [joinGame] at time [now] creates room [r] in
    a reachable state and the room is still there after every one of the
    events that follow, then its pending expiry timer is the one set at
    creation, due at [now + ROOM_EXPIRY]: no move, removal, rematch, join
    or disconnect postpones it.  The timer does nothing before that time,
    and at or after that time it destroys the room.  In the state reached,
    a room exists exactly when its expiry timer is pending. *)
Theorem expiry_never_postponed evs st now s r n f st1 out evs' st2 :
  run evs initial = Some st →
  games st !! r = None →
  handle (JoinGame now s r n f) st = Some (st1, out) →
  is_Some (games st1 !! r) →
  run evs' st1 = Some st2 →
  stays r evs' st1 = true →
  roomTimers st2 !! expiryKey r
  = Some {| deadline := now + ROOM_EXPIRY CONFIG; callback := RoomExpiry r |}
  ∧ (∀ t, (t < now + ROOM_EXPIRY CONFIG)%Z →
          fire t (expiryKey r) st2 = (st2, []))
  ∧ (∀ t, (now + ROOM_EXPIRY CONFIG ≤ t)%Z →
          room_view (fire t (expiryKey r) st2).1 r = (None, None, None, None))
  ∧ (∀ r', is_Some (games st2 !! r')
           ↔ is_Some (roomTimers st2 !! expiryKey r')).
Proof.
  intros Hrun Hnone Hjoin Hg1 Hrun' Hstays.
  pose proof (reachable_wf evs st Hrun) as Hwf.
  destruct (expiry_set _ st st1 out r Hwf Hjoin Hnone Hg1)
    as (now' & s' & n' & f' & [= <- <- <- <-] & Ht1).
  pose proof (handle_wf _ st st1 out Hwf Hjoin) as Hwf1.
  pose proof (expiry_stays r evs' st1 st2 _ Hwf1 Hg1 Ht1 Hrun' Hstays) as Ht2.
  unfold expiryTimer in Ht2.
  split; [done|]. split; [|split].
  - intros t Hearly. unfold fire. rewrite Ht2. simpl in *.
    by rewrite bool_decide_eq_false_2 by lia.
  - intros t Hdue. unfold fire. rewrite Ht2. simpl in Hdue |- *.
    rewrite bool_decide_eq_true_2 by lia.
    unfold room_view, cleanupRoom, clearRoomTimers, clearTimeout. simpl.
    rewrite !lookup_delete_eq.
    rewrite lookup_delete_ne by (intros Heq; by apply (moveKey_expiryKey r r)).
    by rewrite lookup_delete_eq.
  - intros r'.
    apply (expiry_pending_iff (evs ++ JoinGame now s r n f :: evs')).
    apply (run_app evs _ initial st st2 Hrun). cbn [run]. by rewrite Hjoin.
Qed.

Lemma expiry_never_postponed_witness :
  roomTimers (state_after x_at_cap) !! expiryKey "r"
  = Some {| deadline := 3600000; callback := RoomExpiry "r" |}.
Proof.
  refine (proj1 (expiry_never_postponed [] initial 0%Z "a" "r" None "ida"
                   (state_after [JoinGame 0 "a" "r" None "ida"])
                   (default [] (snd <$> handle (JoinGame 0 "a" "r" None "ida") initial))
                   (drop 1 x_at_cap) (state_after x_at_cap) _ _ _ _ _ _)).
  - reflexivity.
  - reflexivity.
  - vm_compute. reflexivity.
  - vm_compute. by eexists.
  - vm_compute. reflexivity.
  - vm_compute. reflexivity.
Defined.

Lemma handle_game_step evs st ev st' out r g g' :
  run evs initial = Some st → handle ev st = Some (st', out) →
  games st !! r = Some g → games st' !! r = Some g' →
  ∃ rp mt et rp' mt' et',
    room_step r ev (Some g, rp, mt, et) (Some g', rp', mt', et').
Proof.
  intros Hrun Hev Hg Hg'.
  pose proof (handle_view ev st st' out r (reachable_wf evs st Hrun) Hev) as Hstep.
  unfold room_view in Hstep. rewrite Hg, Hg' in Hstep. by eexists _, _, _, _, _, _.
Qed.

(** X8.  On the hardened server the move history of a game is an
    append-only log: whatever the event, short of a rematch of that room,
    the history afterwards is the history before, or the history before
    followed by one entry, which records an accepted placement or removal
    with the current player, the index and the time of the request. *)
Theorem history_append_only evs st ev st' out r g g' :
  run evs initial = Some st → handle ev st = Some (st', out) →
  games st !! r = Some g → games st' !! r = Some g' →
  (∀ now s, ev ≠ Rematch now s r) →
  moveHistory g' = moveHistory g
  ∨ (∃ now s i,
       ev = MakeMove now s r i
       ∧ moveHistory g' = moveHistory g ++
           [{| type := place; player := currentPlayer g;
               index := i; timestamp := now |}])
  ∨ (∃ now s i,
       ev = RemoveSymbol now s r i
       ∧ moveHistory g' = moveHistory g ++
           [{| type := remove; player := currentPlayer g;
               index := i; timestamp := now |}]).
Proof.
  intros Hrun Hev Hg Hg' Hnot.
  destruct (handle_game_step evs st ev st' out r g g' Hrun Hev Hg Hg')
    as (rp & mt & et & rp' & mt' & et' & Hstep).
  inversion Hstep; subst;
    unfold started, next_turn, placed, removed, rematch_game, forfeited in *;
    simpl; try (by left).
  - right. left. by eexists _, _, _.
  - right. left. eexists _, _, _. split; [done|].
    unfold conclude. by destruct (res_winner result).
  - right. right. by eexists _, _, _.
  - by destruct (Hnot now s).
  - match goal with
    | H : leave_view _ _ = _ |- _ =>
        unfold leave_view in H; repeat case_match; simplify_eq; by left
    end.
Qed.

Lemma history_append_only_witness :
  ∃ g g',
    games (state_after two_players) !! "r" = Some g
    ∧ games (state_after (two_players ++ [MakeMove 2 "a" "r" 0])) !! "r" = Some g'
    ∧ (moveHistory g' = moveHistory g
       ∨ (∃ now s i,
            MakeMove 2 "a" "r" 0 = MakeMove now s "r" i
            ∧ moveHistory g' = moveHistory g ++
                [{| type := place; player := currentPlayer g;
                    index := i; timestamp := now |}])
       ∨ (∃ now s i,
            MakeMove 2 "a" "r" 0 = RemoveSymbol now s "r" i
            ∧ moveHistory g' = moveHistory g ++
                [{| type := remove; player := currentPlayer g;
                    index := i; timestamp := now |}])).
Proof.
  destruct (games (state_after two_players) !! "r") as [g|] eqn:Hg;
    [|vm_compute in Hg; discriminate].
  destruct (games (state_after (two_players ++ [MakeMove 2 "a" "r" 0])) !! "r")
    as [g'|] eqn:Hg'; [|vm_compute in Hg'; discriminate].
  exists g, g'. do 2 (split; [reflexivity|]).
  apply (history_append_only two_players (state_after two_players)
           (MakeMove 2 "a" "r" 0)
           (state_after (two_players ++ [MakeMove 2 "a" "r" 0]))
           (makeMove 2 "a" "r" 0 (state_after two_players)).2 "r" g g').
  - vm_compute. reflexivity.
  - vm_compute. reflexivity.
  - exact Hg.
  - exact Hg'.
  - intros now s. discriminate.
Defined.

(** X9.  On the hardened server no event lowers a score of a game that
    stays in its room, a rematch included, and one event adds at most one
    point in all. *)
Theorem scores_only_grow evs st ev st' out r g g' :
  run evs initial = Some st → handle ev st = Some (st', out) →
  games st !! r = Some g → games st' !! r = Some g' →
  scores_le (scores g) (scores g')
  ∧ sX (scores g') + sO (scores g') + draws (scores g')
    ≤ S (sX (scores g) + sO (scores g) + draws (scores g)).
Proof.
  intros Hrun Hev Hg Hg'.
  destruct (handle_game_step evs st ev st' out r g g' Hrun Hev Hg Hg')
    as (rp & mt & et & rp' & mt' & et' & Hstep).
  unfold scores_le.
  inversion Hstep; subst;
    unfold started, next_turn, placed, removed, rematch_game, forfeited in *;
    simpl; try lia.
  - unfold conclude. destruct (res_winner result) as [[]|]; simpl; lia.
  - destruct (opponent (currentPlayer g)); simpl; lia.
  - match goal with
    | H : leave_view _ _ = _ |- _ =>
        unfold leave_view in H; repeat case_match; simplify_eq; simpl; lia
    end.
Qed.

Lemma scores_only_grow_witness :
  ∃ g g',
    games (state_after before_x_wins) !! "r" = Some g
    ∧ games (state_after x_wins) !! "r" = Some g'
    ∧ scores_le (scores g) (scores g')
    ∧ sX (scores g') + sO (scores g') + draws (scores g')
      ≤ S (sX (scores g) + sO (scores g) + draws (scores g)).
Proof.
  destruct (games (state_after before_x_wins) !! "r") as [g|] eqn:Hg;
    [|vm_compute in Hg; discriminate].
  destruct (games (state_after x_wins) !! "r") as [g'|] eqn:Hg';
    [|vm_compute in Hg'; discriminate].
  exists g, g'. do 2 (split; [reflexivity|]).
  apply (scores_only_grow before_x_wins (state_after before_x_wins)
           (MakeMove 6 "a" "r" 2) (state_after x_wins)
           (makeMove 6 "a" "r" 2 (state_after before_x_wins)).2 "r" g g').
  - vm_compute. reflexivity.
  - vm_compute. reflexivity.
  - exact Hg.
  - exact Hg'.
Defined.

End Invariants.

(** ** Winning lines *)

Section Lines.
Import Hardened Rooms.
#[local] Arguments leave_view : simpl never.

Lemma line_owner_complete b l m : line_owner b l = Some m ↔ complete b l m.
Proof.
  destruct l as [[a b'] c]. unfold line_owner, complete. simpl.
  destruct (array_get b a) as [[|p]|] eqn:Ha; try (split; [done | by intros [[=] _]]).
  destruct (bool_decide (array_get b b' = Some (Sym p))) eqn:Hb;
    destruct (bool_decide (array_get b c = Some (Sym p))) eqn:Hc; simpl;
    try apply bool_decide_eq_true in Hb; try apply bool_decide_eq_true in Hc;
    try apply bool_decide_eq_false in Hb; try apply bool_decide_eq_false in Hc;
    split; try done.
  - by intros [= <-].
  - intros ([= <-] & _ & _). done.
  - intros ([= <-] & _ & Hc'). done.
  - intros ([= <-] & Hb' & _). done.
  - intros ([= <-] & Hb' & _). done.
Qed.

Lemma first_line_Some b ls result :
  first_line b ls = Some result →
  ∃ pre l post m,
    ls = pre ++ l :: post
    ∧ result = {| res_winner := Win m; res_line := Some l |}
    ∧ complete b l m
    ∧ ∀ l' m', l' ∈ pre → ¬ complete b l' m'.
Proof.
  induction ls as [|l ls IH]; simpl; [done|].
  destruct (line_owner b l) as [m|] eqn:Hown.
  - intros [= <-]. exists [], l, ls, m.
    do 2 (split; [done|]). split; [by apply line_owner_complete|].
    by intros l' m' ?%elem_of_nil.
  - intros (pre & l0 & post & m & -> & -> & Hc & Hpre)%IH.
    exists (l :: pre), l0, post, m. do 3 (split; [done|]).
    intros l' m' [->|Hin]%elem_of_cons; [|by apply Hpre].
    intros Hc'%line_owner_complete. congruence.
Qed.

Lemma first_line_None b ls :
  first_line b ls = None ↔ ∀ l m, l ∈ ls → ¬ complete b l m.
Proof.
  induction ls as [|l ls IH]; simpl.
  - split; [|done]. by intros _ l m ?%elem_of_nil.
  - destruct (line_owner b l) as [m|] eqn:Hown.
    + split; [done|]. intros Hnone. destruct (Hnone l m); [left|].
      by apply line_owner_complete.
    + rewrite IH. split.
      * intros Hnone l' m' [->|Hin]%elem_of_cons; [|by apply Hnone].
        intros Hc'%line_owner_complete. congruence.
      * intros Hnone l' m' Hin. apply Hnone. by right.
Qed.

Lemma board_full b :
  forallb (λ cell, bool_decide (cell ≠ Blank)) b = true ↔ Blank ∉ b.
Proof.
  rewrite forallb_forall. split.
  - intros Hall Hin%list_elem_of_In. apply Hall in Hin.
    by apply bool_decide_eq_true in Hin.
  - intros Hnot c Hin%list_elem_of_In. apply bool_decide_eq_true.
    by intros ->.
Qed.

Lemma checkWinner_Some b result :
  checkWinner b = Some result →
  (∃ pre l post m,
     lines = pre ++ l :: post
     ∧ result = {| res_winner := Win m; res_line := Some l |}
     ∧ complete b l m
     ∧ ∀ l' m', l' ∈ pre → ¬ complete b l' m')
  ∨ (result = {| res_winner := Draw; res_line := None |}
     ∧ (∀ l m, l ∈ lines → ¬ complete b l m)
     ∧ Blank ∉ b).
Proof.
  unfold checkWinner.
  destruct (first_line b lines) as [r|] eqn:Hline.
  - intros [= <-]. left. by apply first_line_Some.
  - destruct (forallb _ b) eqn:Hfull; [|done].
    intros [= <-]. right. split; [done|]. split.
    + by apply first_line_None.
    + by apply board_full.
Qed.

Lemma checkWinner_None b :
  checkWinner b = None ↔ (∀ l m, l ∈ lines → ¬ complete b l m) ∧ Blank ∈ b.
Proof.
  unfold checkWinner.
  destruct (first_line b lines) as [r|] eqn:Hline.
  - split; [done|]. intros [Hnone _].
    apply first_line_None in Hnone. congruence.
  - destruct (forallb _ b) eqn:Hfull.
    + split; [done|]. intros [_ Hin]. by apply board_full in Hfull.
    + split; [|done]. intros _. split; [by apply first_line_None|].
      destruct (decide (Blank ∈ b)) as [|Hnot]; [done|].
      apply board_full in Hnot. congruence.
Qed.

(** X2.  [checkWinner] returns the first line of its list, in order, whose
    three cells hold the same symbol, with that symbol as the winner; it
    returns a draw exactly when no line is complete and no cell is empty,
    and nothing exactly when no line is complete and some cell is empty;
    whenever some line is complete it reports a win. *)
Theorem checkWinner_spec b :
  (∀ result,
     checkWinner b = Some result →
     (∃ pre l post m,
        lines = pre ++ l :: post
        ∧ result = {| res_winner := Win m; res_line := Some l |}
        ∧ complete b l m
        ∧ ∀ l' m', l' ∈ pre → ¬ complete b l' m')
     ∨ (result = {| res_winner := Draw; res_line := None |}
        ∧ (∀ l m, l ∈ lines → ¬ complete b l m)
        ∧ Blank ∉ b))
  ∧ (checkWinner b = None ↔ (∀ l m, l ∈ lines → ¬ complete b l m) ∧ Blank ∈ b)
  ∧ (∀ l m, l ∈ lines → complete b l m →
       ∃ l' m', checkWinner b
                = Some {| res_winner := Win m'; res_line := Some l' |}).
Proof.
  split; [apply checkWinner_Some|]. split; [apply checkWinner_None|].
  unfold checkWinner.
  - intros l m Hin Hc.
    destruct (first_line b lines) as [r|] eqn:Hline.
    + apply first_line_Some in Hline as (pre & l' & post & m' & _ & -> & _).
      by exists l', m'.
    + destruct (proj1 (first_line_None b lines) Hline l m Hin Hc).
Qed.

Lemma lines_distinct l : l ∈ lines → NoDup [l.1.1; l.1.2; l.2].
Proof.
  unfold lines. intros Hin.
  repeat (apply elem_of_cons in Hin as [->|Hin]);
    [.. | by apply elem_of_nil in Hin];
    simpl; apply (bool_decide_unpack _); by vm_compute.
Qed.

Lemma empty_no_line l m : ¬ complete emptyBoard l m.
Proof.
  intros [Ha _]. unfold array_get in Ha. case_decide; [|done].
  by apply lookup_replicate in Ha as [[=] _].
Qed.

(** A player who owns a complete line has at most three symbols, so all
    of them are on the line. *)
Lemma complete_moves b mv l m x :
  board_wf 3 b mv → l ∈ lines → complete b l m →
  x ∈ moves_of mv m → x ∈ [l.1.1; l.1.2; l.2].
Proof.
  intros [Hlen Hcells Hnodup Hcap] Hin (Ha & Hb & Hc) Hx.
  assert ([l.1.1; l.1.2; l.2] ≡ₚ moves_of mv m) as Hperm.
  { apply submseteq_length_Permutation; [|apply Hcap].
    apply NoDup_submseteq; [by apply lines_distinct|].
    intros y Hy. apply Hcells.
    repeat (apply elem_of_cons in Hy as [->|Hy]); [done..|].
    by apply elem_of_nil in Hy. }
  by rewrite Hperm.
Qed.

Lemma complete_after_write b i c l m :
  is_Some (array_get b i) →
  complete (array_set b i c) l m →
  (c = Sym m ∧ i ∈ [l.1.1; l.1.2; l.2])
  ∨ (complete b l m ∧ i ∉ [l.1.1; l.1.2; l.2]).
Proof.
  intros [c0 Hi] (Ha & Hb & Hc).
  pose proof (array_get_Some_range _ _ _ Hi) as Hrange.
  destruct (decide (i ∈ [l.1.1; l.1.2; l.2])) as [Hin|Hnot].
  - left. split; [|done].
    repeat (apply elem_of_cons in Hin as [->|Hin]);
      [.. | by apply elem_of_nil in Hin];
      rewrite array_get_set_eq in * by done; congruence.
  - right. split; [|done].
    rewrite !not_elem_of_cons in Hnot. destruct Hnot as (? & ? & ? & _).
    unfold complete. by rewrite !array_get_set_ne in * by done.
Qed.

(** In every reachable state a complete line belongs to the current
    player. *)
Lemma complete_line_owner evs st r g l m :
  run evs initial = Some st → games st !! r = Some g →
  l ∈ lines → complete (board g) l m → currentPlayer g = m.
Proof.
  intros Hrun. revert g.
  refine (reachable_view_ind
            (λ _ v, ∀ g, v.1.1.1 = Some g → l ∈ lines →
                         complete (board g) l m → currentPlayer g = m)
            _ _ evs st r Hrun); [intros ? ? H; by simpl in H|].
  clear. intros r ev st g rp mt et v' Hwf Hv IH Hstep. simpl in IH.
  assert (∀ game, g = Some game → game_wf game) as Hgwf.
  { intros game ->. apply (wf_games st Hwf r). by injection Hv as -> _ _ _. }
  assert (∀ game, g = Some game → l ∈ lines →
            complete (board game) l m → currentPlayer game = m) as IH' by done.
  inversion Hstep; subst;
    unfold started, next_turn, placed, removed, rematch_game, forfeited in *;
    simpl; try (intros ? [= <-]; simpl); try done; try (by apply IH').
  - intros _ Hc. by destruct (empty_no_line l m).
  - intros Hl Hc.
    match goal with
    | H : checkWinner _ = None |- _ =>
        apply checkWinner_None in H as [Hnone _]
    end.
    by destruct (Hnone l m Hl).
  - intros Hl Hc.
    assert (currentPlayer (conclude result
              (record_move now place (currentPlayer g0) i
                 (array_set (board g0) i (Sym (currentPlayer g0)))
                 (moves_of (moves g0) (currentPlayer g0) ++ [i]) g0))
            = currentPlayer g0) as ->
      by (unfold conclude; by destruct (res_winner result)).
    assert (complete (array_set (board g0) i (Sym (currentPlayer g0))) l m) as Hc'
      by (unfold conclude in Hc; by destruct (res_winner result)).
    apply complete_after_write in Hc' as [[[= ->] _]|[Hold _]]; [done| |by eexists].
    by apply (IH' g0).
  - intros Hl Hc.
    apply complete_after_write in Hc as [[[=] _]|[Hold Hnot]]; [|by eexists].
    pose proof (IH' g0 eq_refl Hl Hold) as <-.
    destruct (Hgwf g0 eq_refl) as [Hb _]. destruct Hnot.
    apply (complete_moves (board g0) (moves g0) l (currentPlayer g0)); [done..|].
    by apply (wf_cells _ _ _ Hb).
  - intros _ Hc. by destruct (empty_no_line l m).
  - left_cases; simpl; try done; intros ? Heq; simplify_eq; simpl; by apply IH'.
Qed.

(** X13.  On the hardened server a placement that ends the game is won
    by the player who placed: in every reachable state, when an accepted
    [makeMove] leaves the game finished, the winner is the current player
    of the game before, the winning line is one of the eight lines and is
    complete for that player, and that player's score has grown by 1. *)
Theorem win_goes_to_the_mover evs st now s r i g g' :
  run evs initial = Some st →
  games st !! r = Some g →
  accepted (makeMove now s r i st).2 = true →
  games (makeMove now s r i st).1 !! r = Some g' →
  gameStatus g' = finished →
  winner g' = Some (Win (currentPlayer g))
  ∧ (∃ l, winningLine g' = Some l ∧ l ∈ lines
          ∧ complete (board g') l (currentPlayer g))
  ∧ score_of (scores g') (currentPlayer g)
    = S (score_of (scores g) (currentPlayer g)).
Proof.
  intros Hrun Hg Hacc Hg' Hfin.
  destruct (makeMove_cases now s r i st)
    as [[e Hrej]|(g0 & rp & p & Hg0 & _ & _ & Hst & Hcur & Hcap & _ & Hblank & _ & Hres)].
  { rewrite Hrej in Hacc. done. }
  assert (g0 = g) as -> by congruence. subst p. simpl in Hres.
  set (b := array_set (board g) i (Sym (currentPlayer g))) in *.
  destruct (checkWinner b) as [result|] eqn:Hwin; rewrite Hres in Hg'; simpl in Hg';
    rewrite lookup_insert_eq in Hg'; injection Hg' as <-; [|simpl in Hfin; congruence].
  pose proof (wf_games st (reachable_wf evs st Hrun) r g Hg) as [Hb _].
  assert (board_wf 3 b (set_moves (moves g) (currentPlayer g)
                         (moves_of (moves g) (currentPlayer g) ++ [i]))) as Hb'
    by (by apply board_wf_place).
  destruct (checkWinner_Some b result Hwin)
    as [(pre & l & post & m & Hlines & -> & Hc & _)|[-> _]].
  2:{ by destruct (no_draw_under_cap _ _ _ Hb' Hwin). }
  assert (l ∈ lines) as Hl by (rewrite Hlines; apply elem_of_app; right; left).
  assert (m = currentPlayer g) as ->.
  { destruct (complete_after_write (board g) i (Sym (currentPlayer g)) l m)
      as [[[= ->] _]|[Hold _]]; [by eexists | done | done |].
    symmetry. by apply (complete_line_owner evs st r g l m). }
  unfold conclude. simpl. split; [done|]. split; [by exists l|].
  rewrite score_of_bump. by rewrite decide_True.
Qed.

Lemma win_goes_to_the_mover_witness :
  ∃ g g',
    games (state_after before_x_wins) !! "r" = Some g
    ∧ games (makeMove 6 "a" "r" 2 (state_after before_x_wins)).1 !! "r" = Some g'
    ∧ winner g' = Some (Win (currentPlayer g))
    ∧ score_of (scores g') (currentPlayer g)
      = S (score_of (scores g) (currentPlayer g)).
Proof.
  destruct (games (state_after before_x_wins) !! "r") as [g|] eqn:Hg;
    [|vm_compute in Hg; discriminate].
  destruct (games (makeMove 6 "a" "r" 2 (state_after before_x_wins)).1 !! "r")
    as [g'|] eqn:Hg'; [|vm_compute in Hg'; discriminate].
  exists g, g'. do 2 (split; [reflexivity|]).
  destruct (win_goes_to_the_mover before_x_wins (state_after before_x_wins)
              6%Z "a" "r" 2%Z g g') as (Hw & _ & Hs).
  - vm_compute. reflexivity.
  - exact Hg.
  - vm_compute. reflexivity.
  - exact Hg'.
  - vm_compute in Hg'. injection Hg' as <-. reflexivity.
  - split; [exact Hw | exact Hs].
Defined.

End Lines.

(** ** Room statistics *)

Section Stats.
Import Hardened Rooms.

Lemma seat_of_seat acc e m :
  seat_of (seat acc e) m
  = if decide (role e.2 = Player m)
    then Some {| seat_id := playerId e.2; seat_socketId := e.1 |}
    else seat_of acc m.
Proof.
  unfold seat. destruct (role e.2) as [[]|] eqn:Hrole, m; simpl;
    by repeat case_decide.
Qed.

(** The fold keeps the last entry of each symbol; when a symbol is held
    once it is the entry of its holder. *)
Lemma seat_of_foldl entries : ∀ acc m,
  (∀ e1 e2, e1 ∈ entries → e2 ∈ entries →
            role e1.2 = Player m → role e2.2 = Player m → e1 = e2) →
  seat_of acc m = None →
  ∀ x, seat_of (foldl seat acc entries) m = Some x
       ↔ ∃ e, e ∈ entries ∧ role e.2 = Player m
              ∧ x = {| seat_id := playerId e.2; seat_socketId := e.1 |}.
Proof.
  induction entries as [|e entries IH] using rev_ind; intros acc m Hone Hacc x.
  - simpl. rewrite Hacc. split; [done|]. intros (e & Hin & _).
    by apply elem_of_nil in Hin.
  - rewrite foldl_snoc, seat_of_seat.
    assert (∀ e1 e2, e1 ∈ entries → e2 ∈ entries →
              role e1.2 = Player m → role e2.2 = Player m → e1 = e2) as Hone'.
    { intros e1 e2 H1 H2. apply Hone; apply elem_of_app; by left. }
    specialize (IH acc m Hone' Hacc x).
    destruct (decide (role e.2 = Player m)) as [Hrole|Hrole].
    + split.
      * intros [= <-]. exists e. split; [|done].
        apply elem_of_app. right. by left.
      * intros (e' & Hin & Hrole' & ->).
        assert (e' = e) as ->; [|done].
        apply Hone; [done| |done|done]. apply elem_of_app. right. by left.
    + rewrite IH. split.
      * intros (e' & Hin & Hrole' & ->). exists e'. split; [|done].
        apply elem_of_app. by left.
      * intros (e' & [Hin|Hin%list_elem_of_singleton]%elem_of_app & Hrole' & ->).
        -- by exists e'.
        -- by subst.
Qed.

Lemma foldl_seat_Permutation entries entries' acc :
  entries ≡ₚ entries' →
  (∀ m e1 e2, e1 ∈ entries → e2 ∈ entries →
              role e1.2 = Player m → role e2.2 = Player m → e1 = e2) →
  foldl seat acc entries = foldl seat acc entries'.
Proof.
  intros Hperm. revert acc.
  induction Hperm as [|e l l' Hperm IH|e1 e2 l|l1 l2 l3 H12 IH12 H23 IH23];
    intros acc Hone.
  - done.
  - simpl. apply IH. intros m a b Ha Hb. apply Hone; by right.
  - simpl. f_equal.
    destruct (role e1.2) as [m1|] eqn:H1, (role e2.2) as [m2|] eqn:H2;
      unfold seat; rewrite ?H1, ?H2; try done.
    destruct (decide (m1 = m2)) as [->|Hne].
    + assert (e2 = e1) as ->; [|done].
      apply (Hone m2); [by left | right; by left | done | done].
    + by destruct m1, m2.
  - rewrite IH12 by done. apply IH23.
    intros m a b Ha Hb. apply Hone; by rewrite H12.
Qed.

Lemma spectators_plus_active_list (l : list (string * Member)) :
  length (filter (λ e : string * Member, role e.2 = Spectator) l)
  + length (filter (λ r, r ≠ Spectator) (role <$> l.*2)) = length l.
Proof.
  induction l as [|e l IH]; [done|].
  rewrite !fmap_cons, !filter_cons.
  destruct (decide (role e.2 = Spectator)) as [Hs|Hs].
  - rewrite decide_False by (by intros ?). cbn [length]. lia.
  - rewrite decide_True by done. cbn [length]. lia.
Qed.

(** X15.  [getRoomStats] of a room of a reachable state lists under X
    and under O exactly the connection that holds that symbol, with its
    player id, whatever the order in which the member object is
    enumerated; the spectator count and the number of players add up to
    the number of members; status and scores are those of the game. *)
Theorem getRoomStats_lists_the_players evs st r roomPlayers entries :
  run evs initial = Some st →
  players st !! r = Some roomPlayers →
  entries ≡ₚ map_to_list roomPlayers →
  (∀ m s id,
     seat_of (stats_players (getRoomStats_of entries (games st !! r))) m
     = Some {| seat_id := id; seat_socketId := s |}
     ↔ ∃ mem, roomPlayers !! s = Some mem ∧ role mem = Player m
              ∧ playerId mem = id)
  ∧ stats_spectators (getRoomStats_of entries (games st !! r))
    + activeMembers roomPlayers = size roomPlayers
  ∧ (∃ g, games st !! r = Some g
          ∧ stats_gameStatus (getRoomStats_of entries (games st !! r))
            = gameStatus g
          ∧ stats_scores (getRoomStats_of entries (games st !! r)) = scores g)
  ∧ getRoomStats_of entries (games st !! r) = getRoomStats r st.
Proof.
  intros Hrun Hrp Hperm.
  pose proof (reachable_wf evs st Hrun) as Hwf.
  destruct (wf_roles st Hwf r roomPlayers Hrp) as [HX HO].
  assert (∀ m e1 e2, e1 ∈ entries → e2 ∈ entries →
            role e1.2 = Player m → role e2.2 = Player m → e1 = e2) as Hone.
  { intros m [s1 m1] [s2 m2] H1 H2 Hr1 Hr2. simpl in *.
    rewrite Hperm in H1, H2.
    apply elem_of_map_to_list in H1, H2.
    assert (s1 = s2) as ->.
    { destruct m; [by apply (HX s1 s2 m1 m2) | by apply (HO s1 s2 m1 m2)]. }
    by simplify_eq. }
  split; [|split; [|split]].
  - intros m s id. simpl.
    rewrite (seat_of_foldl entries _ m (Hone m)) by (by destruct m).
    split.
    + intros ([s' mem] & Hin & Hrole & [= -> ->]). simpl in *.
      rewrite Hperm in Hin. apply elem_of_map_to_list in Hin. by exists mem.
    + intros (mem & Hmem & Hrole & <-). exists (s, mem).
      split; [|done]. rewrite Hperm. by apply elem_of_map_to_list.
  - simpl. rewrite Hperm. unfold activeMembers, existingRoles.
    rewrite spectators_plus_active_list. apply length_map_to_list.
  - assert (is_Some (games st !! r)) as [g Hg].
    { apply elem_of_dom. rewrite (wf_dom st Hwf). apply elem_of_dom. by eexists. }
    exists g. by rewrite Hg.
  - unfold getRoomStats, getRoomStats_of. rewrite Hrp. simpl. f_equal.
    + by apply foldl_seat_Permutation.
    + by rewrite Hperm.
Qed.

Lemma getRoomStats_lists_the_players_witness :
  seat_of (stats_players (getRoomStats "r" (state_after two_players))) O
  = Some {| seat_id := "bob"; seat_socketId := "b" |}.
Proof.
  destruct (players (state_after two_players) !! "r") as [roomPlayers|] eqn:Hrp;
    [|vm_compute in Hrp; discriminate].
  destruct (getRoomStats_lists_the_players two_players (state_after two_players)
              "r" roomPlayers (map_to_list roomPlayers))
    as (Hseat & _ & _ & Heq); [vm_compute; reflexivity | exact Hrp | done |].
  rewrite <- Heq. apply Hseat.
  vm_compute in Hrp. injection Hrp as <-.
  exists {| role := Player O; playerId := "bob"; joinedAt := 1 |}.
  split; [vm_compute; reflexivity | split; reflexivity].
Defined.

End Stats.

(** ** Leaving, expiring, and who may play *)

Section Lifecycle.
Import Hardened Rooms.
#[local] Arguments checkRateLimit : simpl never.



(** X14.  Timer keys never collide: the move keys of two rooms are equal
    only for the same room, likewise the expiry keys, and a move key is
    never an expiry key, whatever the room identifiers. *)
Theorem timer_keys_never_collide r1 r2 :
  (moveKey r1 = moveKey r2 ↔ r1 = r2)
  ∧ (expiryKey r1 = expiryKey r2 ↔ r1 = r2)
  ∧ moveKey r1 ≠ expiryKey r2.
Proof.
  split; [|split].
  - split; [apply moveKey_inj | by intros ->].
  - split; [apply expiryKey_inj | by intros ->].
  - apply moveKey_expiryKey.
Qed.

Lemma disconnect_rateLimits s st : rateLimits (disconnect s st).1 !! s = None.
Proof.
  unfold disconnect. destruct (foldl _ _ _) as [st' out]. simpl.
  apply lookup_delete_eq.
Qed.

(** X5.  [disconnect] treats every room on its own.  Afterwards the
    connection has no rate-limit entry and is a member of no room; a room
    of which it was the only member is destroyed with its timers; a room
    it shared keeps its other members, and its game is paused if the
    connection held X or O and untouched if it was a spectator; a room it
    was not in is untouched. *)
Theorem disconnect_room_by_room s st :
  rateLimits (disconnect s st).1 !! s = None
  ∧ (∀ r roomPlayers,
       players (disconnect s st).1 !! r = Some roomPlayers →
       roomPlayers !! s = None)
  ∧ (∀ r roomPlayers me,
       players st !! r = Some roomPlayers → roomPlayers !! s = Some me →
       if bool_decide (size roomPlayers = 1) then
         room_view (disconnect s st).1 r = (None, None, None, None)
       else
         players (disconnect s st).1 !! r = Some (delete s roomPlayers)
         ∧ roomTimers (disconnect s st).1 !! expiryKey r
           = roomTimers st !! expiryKey r
         ∧ if bool_decide (role me = Spectator) then
             games (disconnect s st).1 !! r = games st !! r
             ∧ roomTimers (disconnect s st).1 !! moveKey r
               = roomTimers st !! moveKey r
           else
             games (disconnect s st).1 !! r
             = set_gameStatus waiting <$> games st !! r
             ∧ (is_Some (games st !! r) →
                roomTimers (disconnect s st).1 !! moveKey r = None))
  ∧ (∀ r,
       (∀ roomPlayers, players st !! r = Some roomPlayers →
                       roomPlayers !! s = None) →
       room_view (disconnect s st).1 r = room_view st r).
Proof.
  split; [apply disconnect_rateLimits|]. split; [|split].
  - intros r roomPlayers Hrp.
    pose proof (disconnect_view s st r) as Hview. unfold room_view in Hview.
    rewrite Hrp in Hview. unfold leave_view in Hview.
    destruct (players st !! r) as [rp|]; [|done].
    destruct (rp !! s) as [me|] eqn:Hme; [|congruence].
    repeat case_match; simplify_eq; apply lookup_delete_eq.
  - intros r roomPlayers me Hrp Hme.
    pose proof (disconnect_view s st r) as Hview.
    assert (size (delete s roomPlayers) = pred (size roomPlayers)) as Hsize
      by (by apply map_size_delete_Some).
    assert (size roomPlayers ≠ 0) as Hpos.
    { intros ->%map_size_empty_iff. by rewrite lookup_empty in Hme. }
    unfold room_view in *. rewrite Hrp in Hview. unfold leave_view in Hview.
    simpl in Hview. rewrite Hme in Hview.
    destruct (decide (size roomPlayers = 1)) as [Hone|Hone].
    + rewrite bool_decide_eq_true_2 by done.
      by rewrite bool_decide_eq_true_2 in Hview by lia.
    + rewrite bool_decide_eq_false_2 by done.
      rewrite bool_decide_eq_false_2 in Hview by lia.
      destruct (decide (role me = Spectator)) as [Hspec|Hspec].
      * rewrite bool_decide_eq_true_2 by done.
        rewrite bool_decide_eq_false_2 in Hview by (by intros []).
        by injection Hview as -> -> -> ->.
      * rewrite bool_decide_eq_false_2 by done.
        rewrite bool_decide_eq_true_2 in Hview by done.
        destruct (games st !! r) as [g|];
          injection Hview as -> -> Hm ->; repeat split; try done.
  - intros r Hnot. rewrite disconnect_view. unfold room_view, leave_view.
    destruct (players st !! r) as [rp|] eqn:Hrp; [|done].
    by rewrite (Hnot rp eq_refl).
Qed.

(** X7.  On the hardened server only the connection that holds the
    symbol of the current player can change a game by a move: a
    [makeMove] or [removeSymbol] from any other connection is not accepted
    and leaves games, members and timers as they were; a [rematch] from a
    connection that holds neither X nor O does nothing at all. *)
Theorem only_the_player_on_turn_moves now s r i st g roomPlayers :
  games st !! r = Some g →
  players st !! r = Some roomPlayers →
  role_of roomPlayers s ≠ Some (Player (currentPlayer g)) →
  (accepted (makeMove now s r i st).2 = false
   ∧ games (makeMove now s r i st).1 = games st
   ∧ players (makeMove now s r i st).1 = players st
   ∧ roomTimers (makeMove now s r i st).1 = roomTimers st)
  ∧ (accepted (removeSymbol now s r i st).2 = false
     ∧ games (removeSymbol now s r i st).1 = games st
     ∧ players (removeSymbol now s r i st).1 = players st
     ∧ roomTimers (removeSymbol now s r i st).1 = roomTimers st)
  ∧ ((∀ p, role_of roomPlayers s ≠ Some (Player p)) →
     rematch now s r st = (st, [])).
Proof.
  intros Hg Hrp Hrole. split; [|split].
  - destruct (makeMove_cases now s r i st)
      as [[e ->]|(g0 & rp & p & Hg0 & Hrp0 & Hrole0 & _ & Hcur & _)]; [done|].
    congruence.
  - destruct (removeSymbol_cases now s r i st)
      as [->|[[e ->]|(g0 & rp & p & Hg0 & Hrp0 & Hrole0 & _ & Hcur & _)]];
      [done..|].
    congruence.
  - intros Hnone. unfold rematch. rewrite Hg, Hrp.
    destruct (role_of roomPlayers s) as [[p|]|] eqn:Hr; [|done..].
    by destruct (Hnone p).
Qed.

Lemma only_the_player_on_turn_moves_witness :
  run two_players initial = Some (state_after two_players)
  ∧ accepted (makeMove 2 "b" "r" 4 (state_after two_players)).2 = false
  ∧ games (makeMove 2 "b" "r" 4 (state_after two_players)).1
    = games (state_after two_players).
Proof.
  split; [vm_compute; reflexivity|].
  destruct (only_the_player_on_turn_moves 2%Z "b" "r" 4%Z (state_after two_players) _ _
              ltac:(vm_compute; reflexivity) ltac:(vm_compute; reflexivity)
              ltac:(vm_compute; discriminate))
    as [(Hacc & Hgames & _) _].
  split; [exact Hacc | exact Hgames].
Defined.

(** X12.  On the hardened server, when the expiry timer of a room fires
    the room is destroyed with its game, its members and both its timers,
    whatever the status of the game and however many members it has;
    every other room is left as it was. *)
Theorem expiry_destroys_the_room evs st r t now :
  run evs initial = Some st →
  roomTimers st !! expiryKey r = Some t →
  (deadline t ≤ now)%Z →
  room_view (fire now (expiryKey r) st).1 r = (None, None, None, None)
  ∧ ∀ r', r' ≠ r →
          room_view (fire now (expiryKey r) st).1 r' = room_view st r'.
Proof.
  intros Hrun Ht Hdue. pose proof (reachable_wf evs st Hrun) as Hwf.
  unfold fire. rewrite Ht. rewrite bool_decide_eq_true_2 by done.
  destruct (wf_timers st Hwf _ t Ht) as [(r0 & Hk & Hcb)|(r0 & Hk & Hcb)].
  { symmetry in Hk. by apply moveKey_expiryKey in Hk. }
  apply expiryKey_inj in Hk as <-. rewrite Hcb. simpl.
  destruct (keys_of_room r) as [K1 K2]. split.
  - unfold room_view. simpl.
    rewrite !lookup_delete_eq. by rewrite lookup_delete_ne, lookup_delete_eq by done.
  - intros r' Hne. destruct (keys_apart r' r Hne) as (K3 & K4 & K5 & K6).
    unfold room_view. simpl. by rewrite !lookup_delete_ne by done.
Qed.

Lemma expiry_destroys_the_room_witness :
  run x_at_cap initial = Some (state_after x_at_cap)
  ∧ room_view (fire 3600000 (expiryKey "r") (state_after x_at_cap)).1 "r"
    = (None, None, None, None).
Proof.
  split; [vm_compute; reflexivity|].
  refine (proj1 (expiry_destroys_the_room x_at_cap (state_after x_at_cap) "r" _
                   3600000%Z ltac:(vm_compute; reflexivity)
                   ltac:(vm_compute; reflexivity) _)).
  vm_compute. discriminate.
Defined.

End Lifecycle.

(** ** More on the minimal server *)

Section Minimal.
Import Simple.

Lemma simple_handle_wf ev st st' out :
  simple_wf st → (∀ r, ev ≠ Undo r) → handle ev st = Some (st', out) →
  simple_wf st'.
Proof.
  intros Hwf Hev Hhandle.
  destruct ev as [s r0|r0 i p|r0 i p|r0|r0]; simpl in Hhandle.
  - by apply (simple_joinGame_wf s r0 st st' out).
  - injection Hhandle as Heq. change st' with (st', out).1. rewrite <- Heq.
    by apply simple_makeMove_wf.
  - injection Hhandle as Heq. change st' with (st', out).1. rewrite <- Heq.
    by apply simple_removeSymbol_wf.
  - by destruct (Hev r0).
  - injection Hhandle as <- _. by apply simple_resetGame_wf.
Qed.

Lemma simple_reachable_wf evs st r g :
  (∀ r', Undo r' ∉ evs) →
  run evs initial = Some st →
  games st !! r = Some g →
  board_wf 3 (board g) (moves g).
Proof.
  intros Hfree Hrun Hg.
  assert (∀ evs st st', (∀ r', Undo r' ∉ evs) → simple_wf st →
            run evs st = Some st' → simple_wf st') as Hall.
  { clear. induction evs as [|ev evs IH]; intros st st' Hfree Hwf; simpl.
    - by intros [= <-].
    - destruct (handle ev st) as [[st1 out]|] eqn:Hev; [|done].
      apply IH.
      + intros r' Hin. apply (Hfree r'). by right.
      + apply (simple_handle_wf ev st st1 out); [done| |done].
        intros r' ->. apply (Hfree r'). by left. }
  apply (Hall evs initial st Hfree (map_Forall_empty _) Hrun r g Hg).
Qed.

(** X18.  On the minimal server, for requests that carry an integer
    index and a symbol as player and for room identifiers that are not
    names of inherited properties, every run without [undo] keeps the
    invariants of the data model: the board and the moves agree cell by
    cell, the counts add up to 9, and nobody has more than three moves. *)
Theorem simple_undo_free_runs_are_consistent evs st r g :
  Forall (λ ev, simple_room ev ∉ inherited) evs →
  (∀ r', Undo r' ∉ evs) →
  run evs initial = Some st →
  games st !! r = Some g →
  consistent 3 (board g) (moves g) = true.
Proof.
  intros _ Hfree Hrun Hg. apply board_wf_consistent.
  by apply (simple_reachable_wf evs st r).
Qed.

Lemma simple_undo_free_runs_are_consistent_witness :
  ∃ g, games (simple_state_after before_undo) !! "r" = Some g
       ∧ consistent 3 (board g) (moves g) = true.
Proof.
  eexists. split; [vm_compute; reflexivity|].
  apply (simple_undo_free_runs_are_consistent before_undo
           (simple_state_after before_undo) "r").
  - unfold before_undo. repeat constructor; simpl; unfold inherited; intros Hin;
      repeat (apply elem_of_cons in Hin as [Heq|Hin]; [discriminate|]);
      by apply elem_of_nil in Hin.
  - intros r' Hin. unfold before_undo in Hin.
    repeat (apply elem_of_cons in Hin as [Heq|Hin]; [discriminate|]).
    by apply elem_of_nil in Hin.
  - vm_compute. reflexivity.
  - vm_compute. reflexivity.
Defined.

(** A game without a member map stays so: [joinGame] of its room throws,
    and no other request gives the room a member map or takes its game
    away. *)
Lemma simple_orphan_step ev st st1 out r :
  handle ev st = Some (st1, out) →
  is_Some (games st !! r) → players st !! r = None →
  is_Some (games st1 !! r) ∧ players st1 !! r = None.
Proof.
  intros Hev [g Hg] Hnone.
  destruct ev as [s' r'|r' i p|r' i p|r'|r']; simpl in Hev.
  - unfold joinGame in Hev.
    destruct (decide (r' = r)) as [->|Hne].
    { rewrite Hg in Hev. by rewrite Hnone in Hev. }
    destruct (games st !! r') as [g'|] eqn:Hg'.
    + destruct (players st !! r') as [rp|]; [|done]. rewrite Hg' in Hev.
      destruct (match rp !! s' with Some _ => _ | None => _ end !! s'); [|done].
      injection Hev as <- _. simpl. rewrite Hg.
      split; [by eexists | by rewrite lookup_insert_ne].
    + simpl in Hev. rewrite !lookup_insert_eq in Hev.
      destruct (match (∅ : gmap string Mark) !! s' with Some _ => _ | None => _ end !! s');
        [|done].
      injection Hev as <- _. simpl.
      rewrite lookup_insert_ne, Hg by done.
      split; [by eexists | by rewrite !lookup_insert_ne].
  - injection Hev as Hev. change st1 with (st1, out).1. rewrite <- Hev. clear Hev.
    unfold makeMove.
    destruct (games st !! r') as [g'|] eqn:Hg'; [|simpl; rewrite Hg; eauto].
    repeat case_bool_decide; simpl; rewrite ?Hg; eauto.
    split; [|done].
    destruct (decide (r' = r)) as [->|Hne];
      [by rewrite lookup_insert_eq | by rewrite lookup_insert_ne, Hg].
  - injection Hev as Hev. change st1 with (st1, out).1. rewrite <- Hev. clear Hev.
    unfold removeSymbol.
    destruct (games st !! r') as [g'|] eqn:Hg'; [|simpl; rewrite Hg; eauto].
    case_bool_decide; simpl; rewrite ?Hg; eauto.
    split; [|done].
    destruct (decide (r' = r)) as [->|Hne];
      [by rewrite lookup_insert_eq | by rewrite lookup_insert_ne, Hg].
  - injection Hev as Hev. change st1 with (st1, out).1. rewrite <- Hev. clear Hev.
    unfold undo.
    destruct (games st !! r') as [g'|] eqn:Hg'; [|simpl; rewrite Hg; eauto].
    destruct (pop _) as [[[p i] rest]|]; simpl; rewrite ?Hg; eauto.
    split; [|done].
    destruct (decide (r' = r)) as [->|Hne];
      [by rewrite lookup_insert_eq | by rewrite lookup_insert_ne, Hg].
  - injection Hev as Hev. change st1 with (st1, out).1. rewrite <- Hev. clear Hev.
    unfold resetGame. simpl. split; [|done].
    destruct (decide (r' = r)) as [->|Hne];
      [by rewrite lookup_insert_eq | by rewrite lookup_insert_ne, Hg].
Qed.

Lemma simple_orphan_kept s r evs : ∀ st,
  is_Some (games st !! r) → players st !! r = None →
  run (evs ++ [JoinGame s r]) st = None.
Proof.
  induction evs as [|ev evs IH]; intros st Hg Hnone.
  - destruct Hg as [g Hg]. simpl. unfold joinGame. rewrite Hg. by rewrite Hnone.
  - simpl. destruct (handle ev st) as [[st1 out]|] eqn:Hev; [|done].
    destruct (simple_orphan_step ev st st1 out r Hev Hg Hnone). by apply IH.
Qed.

(** X19.  On the minimal server, for room identifiers that are not names
    of inherited properties, [resetGame] for a room that nobody has joined
    leaves a game without a member map, and the next [joinGame] of that
    room throws, whatever requests come in between: every run that goes on
    to such a [joinGame] stops with the TypeError. *)
Theorem simple_join_after_reset_throws s r st evs :
  Forall (λ ev, simple_room ev ∉ inherited)
    (ResetGame r :: evs ++ [JoinGame s r]) →
  players st !! r = None →
  run (ResetGame r :: evs ++ [JoinGame s r]) st = None.
Proof.
  intros _ Hnone. simpl. apply simple_orphan_kept; simpl.
  - rewrite lookup_insert_eq. by eexists.
  - done.
Qed.

Lemma simple_join_after_reset_throws_witness :
  run [ResetGame "r"; JoinGame "b" "q"; MakeMove "q" 0 X; JoinGame "a" "r"]
    initial = None.
Proof.
  apply (simple_join_after_reset_throws "a" "r" initial
           [JoinGame "b" "q"; MakeMove "q" 0%Z X]).
  - repeat constructor; simpl; unfold inherited; intros Hin;
      repeat (apply elem_of_cons in Hin as [Heq|Hin]; [discriminate|]);
      by apply elem_of_nil in Hin.
  - reflexivity.
Defined.

Lemma simple_reachable_in_range evs st :
  run evs initial = Some st → simple_in_range st.
Proof. apply simple_writes_in_range, map_Forall_empty. Qed.

(** X20.  On the minimal server, which has no bounds check, a placement
    or a removal that carries a symbol as player and an integer index
    below 0 or above 8 changes nothing and emits nothing, in any state
    reached by such requests, for room identifiers that are not names of
    inherited properties: the board keeps its nine cells, so the cell read
    is neither empty nor that symbol. *)
Theorem simple_out_of_range evs st r i p :
  Forall (λ ev, simple_room ev ∉ inherited) evs →
  r ∉ inherited →
  run evs initial = Some st →
  (i < 0 ∨ 8 < i)%Z →
  makeMove r i p st = (st, []) ∧ removeSymbol r i p st = (st, []).
Proof.
  intros _ _ Hrun Hout.
  pose proof (simple_reachable_in_range evs st Hrun) as Hok.
  assert (∀ g, games st !! r = Some g → array_get (board g) i = None) as Hnone.
  { intros g Hg. destruct (Hok r g Hg) as [Hlen _].
    destruct (array_get (board g) i) as [c|] eqn:Hget; [|done].
    apply array_get_Some_range in Hget. lia. }
  split.
  - unfold makeMove. destruct (games st !! r) as [g|] eqn:Hg; [|done].
    rewrite (Hnone g eq_refl). repeat case_bool_decide; done.
  - unfold removeSymbol. destruct (games st !! r) as [g|] eqn:Hg; [|done].
    rewrite (Hnone g eq_refl). by case_bool_decide.
Qed.

Lemma simple_out_of_range_witness :
  makeMove "r" 9 X (simple_state_after three_join)
  = (simple_state_after three_join, []).
Proof.
  refine (proj1 (simple_out_of_range three_join (simple_state_after three_join)
                   "r" 9%Z X _ _ _ _)).
  - unfold three_join. repeat constructor; simpl; unfold inherited; intros Hin;
      repeat (apply elem_of_cons in Hin as [Heq|Hin]; [discriminate|]);
      by apply elem_of_nil in Hin.
  - unfold inherited; intros Hin;
      repeat (apply elem_of_cons in Hin as [Heq|Hin]; [discriminate|]);
      by apply elem_of_nil in Hin.
  - vm_compute. reflexivity.
  - lia.
Defined.

Lemma pop_snoc {A} (l : list A) x : pop (l ++ [x]) = Some (x, l).
Proof. unfold pop. rewrite reverse_snoc. simpl. by rewrite reverse_involutive. Qed.

Lemma array_set_back {A} (a : list A) i x y :
  array_get a i = Some x → array_set (array_set a i y) i x = a.
Proof.
  unfold array_get, array_set. destruct (decide (0 ≤ i)%Z); [|done].
  intros Hget. rewrite list_insert_insert_eq. by apply list_insert_id.
Qed.

Lemma without_snoc_Permutation i (l : list Z) :
  NoDup l → i ∈ l → without i l ++ [i] ≡ₚ l.
Proof.
  intros Hnodup Hin. unfold without. apply NoDup_Permutation; [|done|].
  - apply NoDup_app. split; [by apply NoDup_filter|].
    split; [|apply NoDup_singleton].
    intros x [Hx _]%list_elem_of_filter ->%list_elem_of_singleton. done.
  - intros x. rewrite elem_of_app, list_elem_of_filter, list_elem_of_singleton.
    destruct (decide (x = i)) as [->|]; naive_solver.
Qed.

(** X21.  On the minimal server an [undo] that follows an accepted
    removal at once takes it back: the board, the removal stack and the
    current player are as before the removal, the other player's moves are
    untouched, and the moves of the player are the same indices, the
    restored one now last. *)
Theorem simple_undo_takes_back_removal r i p st g :
  games st !! r = Some g →
  board_wf 3 (board g) (moves g) →
  array_get (board g) i = Some (Sym p) →
  simple_accepted (removeSymbol r i p st).2 = true
  ∧ ∃ g',
      games (undo r (removeSymbol r i p st).1).1 !! r = Some g'
      ∧ board g' = board g
      ∧ removedStack g' = removedStack g
      ∧ currentPlayer g' = currentPlayer g
      ∧ moves_of (moves g') (opponent p) = moves_of (moves g) (opponent p)
      ∧ moves_of (moves g') p = without i (moves_of (moves g) p) ++ [i]
      ∧ moves_of (moves g') p ≡ₚ moves_of (moves g) p.
Proof.
  intros Hg [Hlen Hcells Hnodup Hcap] Hown.
  unfold removeSymbol. rewrite Hg. rewrite bool_decide_eq_true_2 by done.
  split; [done|]. unfold undo. simpl. rewrite lookup_insert_eq. simpl.
  rewrite pop_snoc. simpl. rewrite lookup_insert_eq.
  eexists. split; [done|]. simpl.
  split; [by apply array_set_back|]. do 2 (split; [done|]).
  rewrite !moves_of_set_moves.
  destruct (decide (opponent p = p)) as [Heq|_]; [by destruct p|].
  destruct (decide (p = p)); [|done]. do 2 (split; [done|]).
  apply without_snoc_Permutation; [done | by apply Hcells].
Qed.

Lemma simple_undo_takes_back_removal_witness :
  ∃ g',
    games (undo "r" (removeSymbol "r" 2 X (simple_state_after before_undo)).1).1
      !! "r" = Some g'
    ∧ board g' = [Sym O; Sym O; Sym X; Sym O; Sym X; Sym X; Blank; Blank; Blank].
Proof.
  destruct (games (simple_state_after before_undo) !! "r") as [g|] eqn:Hg;
    [|vm_compute in Hg; discriminate].
  destruct (simple_undo_takes_back_removal "r" 2%Z X
              (simple_state_after before_undo) g Hg)
    as [_ (g' & Hg' & Hb & _)].
  - apply (simple_reachable_wf before_undo (simple_state_after before_undo) "r");
      [|vm_compute; reflexivity|exact Hg].
    intros r' Hin. unfold before_undo in Hin.
    repeat (apply elem_of_cons in Hin as [Heq|Hin]; [discriminate|]).
    by apply elem_of_nil in Hin.
  - vm_compute in Hg. injection Hg as <-. vm_compute. reflexivity.
  - exists g'. split; [exact Hg'|]. rewrite Hb.
    vm_compute in Hg. injection Hg as <-. reflexivity.
Defined.

End Minimal.

(** ** Rate-limited requests *)

Section Requests.
Import Hardened.
#[local] Arguments checkRateLimit : simpl never.
#[local] Arguments startMoveTimer : simpl never.

Lemma handle_request now s a st : handle (request now s a) st = Some (act now s a st).
Proof. by destruct a. Qed.

(** A request is counted whatever its outcome: the handler leaves the
    entry that [checkRateLimit] has written. *)
Lemma act_rateLimits now s a st :
  rateLimits (act now s a st).1 = rateLimits (checkRateLimit now s st).2.
Proof.
  destruct a as [r i|r i]; unfold act.
  - destruct (makeMove_cases now s r i st)
      as [[e ->]|(g & rp & p & _ & _ & _ & _ & _ & _ & _ & _ & _ & Hst)]; [done|].
    simpl in Hst. destruct (checkWinner _); by rewrite Hst.
  - destruct (removeSymbol_cases now s r i st)
      as [->|[[e ->]|(g & rp & p & _ & _ & _ & _ & _ & _ & _ & ->)]]; done.
Qed.

(** The reply is [RateLimited] exactly when [checkRateLimit] refuses. *)
Lemma act_rate_limited now s a st :
  rate_limited (act now s a st).2 = negb (checkRateLimit now s st).1.
Proof.
  destruct a as [r i|r i]; unfold act.
  - unfold makeMove. destruct (checkRateLimit now s st) as [[] st1]; simpl; [|done].
    destruct (games st1 !! r) as [g|]; [|done].
    destruct (players st1 !! r) as [rp|]; [|done].
    destruct (role_of rp s) as [[p|]|]; [|done..].
    repeat (case_bool_decide; [done|]).
    by destruct (checkWinner _).
  - unfold removeSymbol. destruct (checkRateLimit now s st) as [[] st1]; simpl; [|done].
    destruct (games st1 !! r) as [g|]; [|done].
    destruct (players st1 !! r) as [rp|]; [|done].
    destruct (role_of rp s) as [[p|]|]; [|done..].
    by repeat (case_bool_decide; [done|]).
Qed.

(** A refused request gets the error and nothing else happens. *)
Lemma act_refused now s a st :
  (checkRateLimit now s st).1 = false →
  act now s a st = ((checkRateLimit now s st).2, [ToSocket s (Error RateLimited)]).
Proof.
  destruct a as [r i|r i]; unfold act.
  - unfold makeMove. destruct (checkRateLimit now s st) as [b st1]. simpl.
    by intros ->.
  - unfold removeSymbol. destruct (checkRateLimit now s st) as [b st1]. simpl.
    by intros ->.
Qed.

(** A request that passes the limiter and the other checks of its handler
    is carried out. *)
Lemma act_accepted now s a st :
  (checkRateLimit now s st).1 = true → passes_checks st s a →
  accepted (act now s a st).2 = true.
Proof.
  destruct a as [r i|r i]; unfold act.
  - intros Hrl (g & rp & p & Hg & Hrp & Hrole & Hst & Hcur & Hcap & Hi & Hcell).
    unfold makeMove. destruct (checkRateLimit now s st) as [b st1] eqn:Hc.
    simpl in Hrl, Hcap. subst b. simpl.
    assert (games st1 = games st ∧ players st1 = players st) as [-> ->].
    { change st1 with (true, st1).2. by rewrite <- Hc. }
    rewrite Hg, Hrp, Hrole.
    rewrite bool_decide_eq_false_2 by (by intros ?).
    rewrite bool_decide_eq_false_2 by (by intros ?).
    rewrite bool_decide_eq_false_2 by lia.
    rewrite bool_decide_eq_false_2 by lia.
    rewrite bool_decide_eq_false_2 by (by intros ?).
    by destruct (checkWinner _).
  - intros Hrl (g & rp & p & Hg & Hrp & Hrole & Hst & Hcur & Hcell).
    unfold removeSymbol. destruct (checkRateLimit now s st) as [b st1] eqn:Hc.
    simpl in Hrl. subst b. simpl.
    assert (games st1 = games st ∧ players st1 = players st) as [-> ->].
    { change st1 with (true, st1).2. by rewrite <- Hc. }
    rewrite Hg, Hrp, Hrole.
    rewrite bool_decide_eq_false_2 by (by intros ?).
    rewrite bool_decide_eq_false_2 by (by intros ?).
    rewrite bool_decide_eq_false_2 by (by intros ?).
    done.
Qed.

Lemma leaveRoom_rateLimits s r acc :
  rateLimits (leaveRoom s r acc).1 = rateLimits acc.1.
Proof.
  destruct acc as [st out]. unfold leaveRoom. simpl.
  destruct (players st !! r) as [rp|]; [|done].
  destruct (rp !! s) as [me|]; [|done].
  case_bool_decide; [done|]. case_bool_decide; [|done].
  simpl. by destruct (games st !! r).
Qed.

Lemma leave_rooms_rateLimits s rooms : ∀ acc,
  rateLimits (foldl (λ acc r, leaveRoom s r acc) acc rooms).1 = rateLimits acc.1.
Proof.
  induction rooms as [|r rooms IH]; intros acc; simpl; [done|].
  by rewrite IH, leaveRoom_rateLimits.
Qed.

Lemma joinGame_rateLimits now s r n f st st' out :
  joinGame now s r n f st = Some (st', out) → rateLimits st' = rateLimits st.
Proof.
  unfold joinGame. case_match; [by intros [= <- _]|].
  set (st1 := match games st !! r with Some _ => st | None => _ end).
  assert (rateLimits st1 = rateLimits st) as H1.
  { subst st1. by destruct (games st !! r). }
  destruct (players st1 !! r) as [rp|]; [|done].
  set (st2 := match rp !! s with Some _ => st1 | None => _ end).
  assert (rateLimits st2 = rateLimits st1) as H2.
  { subst st2. destruct (rp !! s); [done|].
    destruct (_ && _); [|done]. by rewrite startMoveTimer_rateLimits. }
  destruct (games st2 !! r); [|done].
  destruct (players st2 !! r ≫= _); [|done].
  intros [= <- _]. by rewrite H2, H1.
Qed.

(** What one event does to the entry of a connection that does not
    disconnect: a placement or removal of the connection passes through
    [checkRateLimit], every other event leaves the entry alone. *)
Lemma handle_rateLimits ev st st' out s :
  handle ev st = Some (st', out) → ev ≠ Disconnect s →
  rateLimits st' !! s
  = match request_times s [ev] with
    | now :: _ => rateLimits (checkRateLimit now s st).2 !! s
    | [] => rateLimits st !! s
    end.
Proof.
  intros Hev Hne.
  destruct ev as [now s' r n f|now s' r i|now s' r i|now s' r|s'|now key];
    cbn -[makeMove removeSymbol rematch disconnect fire checkRateLimit] in *.
  - by rewrite (joinGame_rateLimits _ _ _ _ _ _ _ _ Hev).
  - injection Hev as Hev. change st' with (st', out).1. rewrite <- Hev. clear Hev.
    change (makeMove now s' r i st) with (act now s' (Placement r i) st).
    rewrite act_rateLimits.
    destruct (decide (s' = s)) as [->|Hs]; [done|].
    unfold checkRateLimit. simpl. by rewrite lookup_insert_ne.
  - injection Hev as Hev. change st' with (st', out).1. rewrite <- Hev. clear Hev.
    change (removeSymbol now s' r i st) with (act now s' (Removal r i) st).
    rewrite act_rateLimits.
    destruct (decide (s' = s)) as [->|Hs]; [done|].
    unfold checkRateLimit. simpl. by rewrite lookup_insert_ne.
  - injection Hev as Hev. change st' with (st', out).1. rewrite <- Hev. clear Hev.
    unfold rematch. destruct (games st !! r); [|done].
    destruct (players st !! r) as [rp|]; [|done].
    destruct (role_of rp s') as [[p|]|]; [|done..].
    simpl. by rewrite startMoveTimer_rateLimits.
  - injection Hev as Hev. change st' with (st', out).1. rewrite <- Hev. clear Hev.
    unfold disconnect.
    pose proof (leave_rooms_rateLimits s' (map_to_list (players st)).*1 (st, []))
      as Hkeep.
    destruct (foldl _ _ _) as [st1 out1]. simpl in *.
    rewrite lookup_delete_ne by congruence. by rewrite Hkeep.
  - injection Hev as Hev. change st' with (st', out).1. rewrite <- Hev. clear Hev.
    unfold fire. destruct (roomTimers st !! key) as [t|]; [|done].
    case_bool_decide; [|done].
    destruct (callback t) as [r|r]; simpl; [|done].
    unfold onMoveTimeout. simpl. destruct (games st !! r) as [g|]; [|done].
    by case_bool_decide.
Qed.

Lemma request_times_cons s ev evs :
  request_times s (ev :: evs) = request_times s [ev] ++ request_times s evs.
Proof.
  unfold request_times. destruct ev; simpl; try done; by destruct (decide _).
Qed.

(** Within a window the entry counts the requests of the connection and
    nothing else. *)
Lemma run_counts s evs : ∀ st st' l,
  rateLimits st !! s = Some l →
  run evs st = Some st' →
  Disconnect s ∉ evs →
  Forall (λ t, t ≤ resetTime l)%Z (request_times s evs) →
  rateLimits st' !! s
  = Some {| count := count l + length (request_times s evs);
            resetTime := resetTime l |}.
Proof.
  induction evs as [|ev evs IH]; intros st st' l Hl Hrun Hno Htimes.
  - injection Hrun as <-. rewrite Hl. destruct l. simpl. f_equal. f_equal. lia.
  - simpl in Hrun. destruct (handle ev st) as [[st1 out]|] eqn:Hev; [|done].
    rewrite request_times_cons in Htimes |- *.
    apply Forall_app in Htimes as [Hnow Htimes].
    assert (ev ≠ Disconnect s) as Hne by (intros ->; apply Hno; left).
    assert (Disconnect s ∉ evs) as Hno' by (intros ?; apply Hno; by right).
    pose proof (handle_rateLimits ev st st1 out s Hev Hne) as Hstep.
    destruct (request_times s [ev]) as [|now rest] eqn:Hreq.
    + rewrite Hl in Hstep. simpl. by apply (IH st1 st' l).
    + assert (rest = []) as ->.
      { unfold request_times in Hreq.
        destruct ev; simpl in Hreq; try done; destruct (decide _); by simplify_eq. }
      inversion_clear Hnow as [|? ? Hle _].
      rewrite (checkRateLimit_same_window now s st l Hl Hle) in Hstep.
      simpl in Hstep. rewrite lookup_insert_eq in Hstep.
      rewrite (IH st1 st' _ Hstep Hrun Hno' Htimes). simpl.
      f_equal. f_equal. lia.
Qed.

(** C8.  The rate limiter as the clients meet it.  A connection sends a
    placement or removal at [t0] that starts a rate-limit window, and the
    server then handles any events [evs] in which the connection does not
    disconnect and its placements and removals arrive no later than the
    reset time [t0 + RATE_LIMIT_WINDOW].  Every placement and removal of
    the connection is counted, whatever its outcome, and nothing else is.
    The request at [t0] passes the limiter with the counter at 1.  The
    next request within the window is the [k]-th of the window, for [k] =
    2 + the number of requests in [evs]: it is counted as such; for [k] up
    to [MAX_MOVES_PER_WINDOW] it is not answered [RateLimited]; from [k] =
    [MAX_MOVES_PER_WINDOW + 1] on it is answered [RateLimited] and nothing
    but the counter changes.  A request that arrives after the reset time
    passes the limiter and restarts the counter at 1.  A request that
    passes the limiter and the other checks of its handler is carried
    out. *)
Theorem rate_limit_window s st t0 a0 evs st1 :
  opens_window st s t0 →
  run (request t0 s a0 :: evs) st = Some st1 →
  Disconnect s ∉ evs →
  Forall (λ t, t ≤ t0 + RATE_LIMIT_WINDOW CONFIG)%Z (request_times s evs) →
  (rate_limited (act t0 s a0 st).2 = false
   ∧ rateLimits (act t0 s a0 st).1 !! s
     = Some {| count := 1; resetTime := t0 + RATE_LIMIT_WINDOW CONFIG |})
  ∧ (∀ now a,
       (now ≤ t0 + RATE_LIMIT_WINDOW CONFIG)%Z →
       rateLimits (act now s a st1).1 !! s
       = Some {| count := 2 + length (request_times s evs);
                 resetTime := t0 + RATE_LIMIT_WINDOW CONFIG |}
       ∧ (2 + length (request_times s evs) ≤ MAX_MOVES_PER_WINDOW CONFIG →
          rate_limited (act now s a st1).2 = false)
       ∧ (MAX_MOVES_PER_WINDOW CONFIG < 2 + length (request_times s evs) →
          (act now s a st1).2 = [ToSocket s (Error RateLimited)]
          ∧ games (act now s a st1).1 = games st1
          ∧ players (act now s a st1).1 = players st1
          ∧ roomTimers (act now s a st1).1 = roomTimers st1))
  ∧ (∀ now a,
       (t0 + RATE_LIMIT_WINDOW CONFIG < now)%Z →
       rate_limited (act now s a st1).2 = false
       ∧ rateLimits (act now s a st1).1 !! s
         = Some {| count := 1; resetTime := now + RATE_LIMIT_WINDOW CONFIG |})
  ∧ (∀ now a st',
       rate_limited (act now s a st').2 = false → passes_checks st' s a →
       accepted (act now s a st').2 = true).
Proof.
  intros Hopen Hrun Hno Htimes.
  pose proof (checkRateLimit_new_window t0 s st Hopen) as Hfirst.
  simpl in Hrun. rewrite handle_request in Hrun.
  rewrite (surjective_pairing (act t0 s a0 st)) in Hrun.
  assert (rateLimits (act t0 s a0 st).1 !! s
          = Some {| count := 1; resetTime := t0 + RATE_LIMIT_WINDOW CONFIG |})
    as Hone.
  { rewrite act_rateLimits, Hfirst. simpl. by rewrite lookup_insert_eq. }
  pose proof (run_counts s evs _ st1 _ Hone Hrun Hno Htimes) as Hl.
  simpl in Hl.
  split; [|split; [|split]].
  - split; [|done]. by rewrite act_rate_limited, Hfirst.
  - intros now a Hnow.
    pose proof (checkRateLimit_same_window now s st1 _ Hl Hnow) as Hc.
    simpl in Hc. split; [|split].
    + rewrite act_rateLimits, Hc. simpl. rewrite lookup_insert_eq.
      do 2 f_equal.
    + intros Hk. rewrite act_rate_limited, Hc. simpl.
      rewrite bool_decide_eq_true_2; [done | simpl in Hk; lia].
    + intros Hk. rewrite act_refused.
      * rewrite Hc. done.
      * rewrite Hc. simpl. apply bool_decide_eq_false_2. simpl in Hk. lia.
  - intros now a Hnow.
    assert (opens_window st1 s now) as Hopen'.
    { intros l. rewrite Hl. intros [= <-]. done. }
    pose proof (checkRateLimit_new_window now s st1 Hopen') as Hc.
    split.
    + by rewrite act_rate_limited, Hc.
    + rewrite act_rateLimits, Hc. simpl. by rewrite lookup_insert_eq.
  - intros now a st' Hpass Hvalid. apply act_accepted; [|done].
    rewrite act_rate_limited in Hpass. by destruct (checkRateLimit now s st').1.
Qed.

Lemma rate_limit_window_witness :
  (act 10 "a" (Placement "r" 7)
     (state_after (two_players ++ Hardened.MakeMove 2 "a" "r" 0 :: six_requests))).2
  = [ToSocket "a" (Error RateLimited)]
  ∧ rate_limited
      (act 1003 "a" (Placement "r" 7)
         (state_after (two_players ++ Hardened.MakeMove 2 "a" "r" 0 :: six_requests))).2
    = false.
Proof.
  destruct (rate_limit_window "a" (state_after two_players) 2%Z (Placement "r" 0)
              six_requests
              (state_after (two_players ++ Hardened.MakeMove 2 "a" "r" 0 :: six_requests)))
    as (_ & Hin & Hafter & _).
  - intros l Hl. vm_compute in Hl. discriminate.
  - vm_compute. reflexivity.
  - unfold six_requests. intros Hin.
    repeat (apply elem_of_cons in Hin as [Heq|Hin]; [discriminate|]).
    by apply elem_of_nil in Hin.
  - change (request_times "a" six_requests) with [4; 6; 8; 9]%Z.
    repeat constructor; simpl; lia.
  - split.
    + apply (Hin 10%Z (Placement "r" 7)); [simpl; lia | vm_compute; lia].
    + apply (Hafter 1003%Z (Placement "r" 7)). simpl. lia.
Defined.

End Requests.
